(** * Finite-difference derivatives and expression factors (GTSAM)

    A shallow embedding of [gtsam/base/numericalDerivative.h] and
    [gtsam/nonlinear/ExpressionFactor.h], and the properties of the
    finite-difference engine, the linearization harness, the cross-check
    driver and the analytic-derivative factor.

    Conventions of the embedding:
    - a C++ [double] is an exact rational ([Qc]); rounding, infinities and
      NaN are outside the model, so every statement below is a statement
      about the arithmetic the code performs, carried out exactly;
    - an Eigen vector is a [list double]; an Eigen matrix is its number of
      rows together with the list of its columns (Eigen stores matrices
      column by column, and every write in the two files is a column
      write).  Eigen leaves operations on operands of different sizes
      undefined; the coefficient-wise operations of the model stop at the
      shorter operand, and the statements that depend on sizes say so;
    - a [Key] is a [size_t], used as an identifier only, hence [N];
    - a thrown C++ exception is the [Throw] branch of [result]; a null
      dereference or an out-of-bounds [operator[]] is recorded as the
      exception [undefined_behaviour];
    - a [for] loop over [0 .. n-1] is [for_loop] ([for_loopM] when the body
      may throw), a fold that threads the variables the loop body
      assigns;
    - the collaborators that the two files only use (the assignment
      container, the expression, the noise model, the assembled linear
      system, the test macros) are modelled from their description and
      marked as such. *)

From Stdlib Require Import QArith Qcanon Qcabs.
From stdpp Require Import gmap list numbers strings sorting.

(** ** Scalars, vectors and matrices *)

Abbreviation double := Qc (only parsing).

Abbreviation Vector := (list Qc) (only parsing).

(** [zero(n)] / [Eigen::VectorXd::Zero(n)] / [setZero()] on a vector. *)
Definition zero (n : nat) : Vector := replicate n 0%Qc.

(** [a - b] on Eigen vectors (coefficient-wise). *)
Definition vsub (a b : Vector) : Vector := zip_with Qcminus a b.

(** [a + b] on Eigen vectors (coefficient-wise). *)
Definition vadd (a b : Vector) : Vector := zip_with Qcplus a b.

(** [v * c] for a scalar [c]. *)
Definition vscale (v : Vector) (c : double) : Vector := (λ x, x * c)%Qc <$> v.

(** Unary minus on an Eigen vector. *)
Definition vneg (v : Vector) : Vector := Qcopp <$> v.

(** The tangent vector of length [n] that is [c] in coordinate [j] and zero
    in every other coordinate: [c * e_j].  It is defined coordinate by
    coordinate, independently of the in-place updates the code performs. *)
Definition basis (n j : nat) (c : double) : Vector :=
  (λ i, if decide (i = j) then c else 0%Qc) <$> seq 0 n.

Record Matrix : Type := mkMatrix { rows : nat; columns : list Vector }.

Definition cols (A : Matrix) : nat := length (columns A).

(** [zeros(m, n)] / [Matrix::Zero(m, n)]. *)
Definition zeros (m n : nat) : Matrix := mkMatrix m (replicate n (zero m)).

(** [H.col(j) = v] and [H.col(j) << v]. *)
Definition set_col (H : Matrix) (j : nat) (v : Vector) : Matrix :=
  mkMatrix (rows H) (<[j := v]> (columns H)).

(** Read access [H.col(j)]. *)
Definition col (H : Matrix) (j : nat) : option Vector := columns H !! j.

(** A matrix is well formed when each stored column has [rows] entries. *)
Definition wf_matrix (A : Matrix) : Prop :=
  Forall (λ c, length c = rows A) (columns A).

(** The product [A * x], as the linear combination of the columns of [A]
    weighted by the coordinates of [x]. *)
Fixpoint lincomb (m : nat) (cs : list Vector) (x : Vector) : Vector :=
  match cs, x with
  | c :: cs', xi :: x' => vadd (vscale c xi) (lincomb m cs' x')
  | _, _ => zero m
  end.

Definition mat_vec (A : Matrix) (x : Vector) : Vector :=
  lincomb (rows A) (columns A) x.

(** ** Loops *)

(** [for (j = 0; j < n; j++) body], threading the assigned variables. *)
Definition for_loop {S : Type} (n : nat) (body : nat → S → S) (s : S) : S :=
  foldl (λ s j, body j s) s (seq 0 n).

(** ** The chart abstraction ([DefaultChart<X>]) *)

Class Chart (X : Type) : Type := {
  dimension : nat;
  retract : X → Vector → X;
  local : X → X → Vector
}.
Arguments dimension X {_}.

(** The trivial chart of a fixed-size Euclidean vector:
    [retract(x, d) = x + d] and [local(x, y) = y - x]. *)
Definition EuclideanChart (n : nat) : Chart Vector := {|
  dimension := n;
  retract x d := vadd x d;
  local x y := vsub y x
|}.

(** ** The finite-difference engine *)

Section engine.
Context {X : Type} `{ChartX : Chart X}.

(** [numericalGradient]: the loop variables are the tangent vector [d]
    and the gradient [g].  ([N > 0] is a static assertion of the code; for
    [N = 0] the loop does not run.) *)
Definition numericalGradient (h : X → double) (x : X) (delta : double)
  : Vector :=
  let factor := (1 / (2 * delta))%Qc in
  let N := dimension X in
  let d := zero N in
  let g := zero N in
  snd (for_loop N (λ j '(d, g),
    let d := <[j := delta]> d in
    let hxplus := h (retract x d) in
    let d := <[j := (- delta)%Qc]> d in
    let hxmin := h (retract x d) in
    let d := <[j := 0%Qc]> d in
    (d, <[j := ((hxplus - hxmin) * factor)%Qc]> g)) (d, g)).

Context {Y : Type} `{ChartY : Chart Y}.

(** [numericalDerivative11]: the loop variables are the tangent vector
    [dx] and the Jacobian [H]. *)
Definition numericalDerivative11 (h : X → Y) (x : X) (delta : double)
  : Matrix :=
  let N := dimension X in
  let hx := h x in
  let zeroY := local hx hx in
  let m := length zeroY in
  let dx := zero N in
  let H := zeros m N in
  let factor := (1 / (2 * delta))%Qc in
  snd (for_loop N (λ j '(dx, H),
    let dx := <[j := delta]> dx in
    let dy1 := local hx (h (retract x dx)) in
    let dx := <[j := (- delta)%Qc]> dx in
    let dy2 := local hx (h (retract x dx)) in
    let dx := <[j := 0%Qc]> dx in
    (dx, set_col H j (vscale (vsub dy1 dy2) factor))) (dx, H)).
End engine.
(** ** What the engine is specified to compute *)

Section engine_spec.
Context {X : Type} `{ChartX : Chart X}.

(** The central difference along coordinate [j] of a scalar function. *)
Definition central_difference (h : X → double) (x : X) (delta : double)
    (j : nat) : double :=
  ((h (retract x (basis (dimension X) j delta))
    - h (retract x (basis (dimension X) j (- delta))))
   / (2 * delta))%Qc.

Context {Y : Type} `{ChartY : Chart Y}.

(** Column [j] of the Jacobian of a manifold-valued function: the two
    perturbed outputs are measured in the tangent space at [h x], and
    their difference is divided by [2 * delta], coordinate by
    coordinate. *)
Definition central_difference_column (h : X → Y) (x : X) (delta : double)
    (j : nat) : Vector :=
  let y0 := h x in
  (λ c, c / (2 * delta))%Qc <$>
    vsub (local y0 (h (retract x (basis (dimension X) j delta))))
         (local y0 (h (retract x (basis (dimension X) j (- delta))))).
End engine_spec.

(** The function [h] has output tangent dimension [M] around [x]: the
    tangent vectors that [local] returns at [h x] have [M] coordinates
    (for a fixed-size output type this is the static size of
    [ChartY::vector]). *)
Definition output_dimension {X Y : Type} `{Chart Y} (h : X → Y) (x : X)
    (M : nat) : Prop :=
  ∀ x' : X, length (local (h x) (h x')) = M.

(** ** Exceptions *)

Abbreviation Key := N (only parsing).

Inductive exception : Type :=
  | invalid_argument (what : string)
  | runtime_error (what : string)
  | out_of_range
  | ValuesKeyDoesNotExist (key : Key)
  | ValuesKeyAlreadyExists (key : Key)
  | undefined_behaviour.

Inductive result (A : Type) : Type :=
  | Return (a : A)
  | Throw (e : exception).
Arguments Return {A} a.
Arguments Throw {A} e.

#[global] Instance result_ret : MRet result := λ A a, Return a.
#[global] Instance result_bind : MBind result := λ A B k m,
  match m with
  | Return a => k a
  | Throw e => Throw e
  end.
#[global] Instance result_fmap : FMap result := λ A B g m,
  match m with
  | Return a => Return (g a)
  | Throw e => Throw e
  end.

(** Dereferencing a possibly null [shared_ptr], and indexing a
    [std::vector] with [operator[]]: outside their domain both are
    undefined behaviour, which the model records as a failure. *)
Definition deref {A : Type} (p : option A) : result A :=
  match p with
  | Some a => Return a
  | None => Throw undefined_behaviour
  end.

Definition at_index {A : Type} (v : list A) (i : nat) : result A :=
  deref (v !! i).

(** A loop whose body may throw. *)
Fixpoint foldM {A S : Type} (body : A → S → result S) (l : list A) (s : S)
    : result S :=
  match l with
  | [] => Return s
  | a :: l' => s' ← body a s; foldM body l' s'
  end.

Definition for_loopM {S : Type} (n : nat) (body : nat → S → result S) (s : S)
    : result S :=
  foldM body (seq 0 n) s.

(** ** [std::map<Key, V>]

    An ordered map: iteration visits the entries by ascending key, so it is
    modelled as an association list kept sorted by key. *)

Fixpoint map_assign {V : Type} (k : Key) (v : V) (m : list (Key * V))
    : list (Key * V) :=
  match m with
  | [] => [(k, v)]
  | (k', v') :: m' =>
      if (k <? k')%N then (k, v) :: (k', v') :: m'
      else if (k =? k')%N then (k, v) :: m'
      else (k', v') :: map_assign k v m'
  end.

(** ** Block matrices and the assembled linear system *)

(** [VerticalBlockMatrix]: one matrix and the widths of its column
    blocks. *)
Record VerticalBlockMatrix : Type := mkVBM {
  blockDims : list nat;
  matrix : Matrix
}.

(** First column of block [i]. *)
Definition offset (dims : list nat) (i : nat) : nat := sum_list (take i dims).

(** [Ab(i)]: the columns of block [i]. *)
Definition block (Ab : VerticalBlockMatrix) (i : nat) : Matrix :=
  mkMatrix (rows (matrix Ab))
    (take (default 0%nat (blockDims Ab !! i))
       (drop (offset (blockDims Ab) i) (columns (matrix Ab)))).

(** [A + B], coefficient-wise. *)
Definition madd (A B : Matrix) : Matrix :=
  mkMatrix (rows A) (zip_with vadd (columns A) (columns B)).

(** [Ab(i) = B]. *)
Definition set_block (Ab : VerticalBlockMatrix) (i : nat) (B : Matrix)
    : VerticalBlockMatrix :=
  let cs := columns (matrix Ab) in
  let off := offset (blockDims Ab) i in
  let d := default 0%nat (blockDims Ab !! i) in
  mkVBM (blockDims Ab)
    (mkMatrix (rows (matrix Ab))
       (take off cs ++ take d (columns B) ++ drop (off + d) cs)).

(** [Ab(i).col(0) = v]. *)
Definition set_block_col0 (Ab : VerticalBlockMatrix) (i : nat) (v : Vector)
    : VerticalBlockMatrix :=
  mkVBM (blockDims Ab) (set_col (matrix Ab) (offset (blockDims Ab) i) v).

(** Horizontal concatenation of the columns of a list of blocks. *)
Definition hcat (blocks : list Matrix) : list Vector :=
  concat (columns <$> blocks).

(** The [n]-by-[n] identity matrix. *)
Definition identity (n : nat) : Matrix :=
  mkMatrix n ((λ j, basis n j 1%Qc) <$> seq 0 n).

Section linear_system.
Context {NM : Type}.

(** [JacobianFactor]: the keys, the augmented matrix [Ab = [A1 .. An b]]
    and the noise model the factor carries (possibly null). *)
Record JacobianFactor : Type := mkJacobianFactor {
  jf_keys : list Key;
  jf_Ab : VerticalBlockMatrix;
  jf_model : option NM
}.

(** [size()]: the number of keys. *)
Definition jf_size (jf : JacobianFactor) : nat := length (jf_keys jf).

(** [getA(i)] and [getb()]. *)
Definition getA (jf : JacobianFactor) (i : nat) : Matrix := block (jf_Ab jf) i.

Definition getb (jf : JacobianFactor) : Vector :=
  default [] (col (matrix (jf_Ab jf)) (offset (blockDims (jf_Ab jf)) (jf_size jf))).

(** Modelled from the spec: [JacobianFactor(keys, dims, m, model)], which
    is declared in [gtsam/linear/JacobianFactor.h]: a linear system with
    one block of the given width per key, one more column for the
    right-hand side and [m] rows.  The storage is not initialised by the
    constructor; [linearize] zeroes it before use ([setZero]), so it
    starts zeroed here. *)
Definition JacobianFactor_new (keys : list Key) (dims : list nat) (m : nat)
    (model : option NM) : JacobianFactor :=
  mkJacobianFactor keys
    (mkVBM (dims ++ [1%nat]) (zeros m (sum_list dims + 1)))
    model.

(** Modelled from the spec: [JacobianFactor(terms, b)] for a
    [std::map<Key, Matrix>] of terms, declared in
    [gtsam/linear/JacobianFactor.h]: one Jacobian block per entry of the
    map, in the iteration order of the map, followed by the right-hand
    side [b]; no noise model. *)
Definition JacobianFactor_of_terms (terms : list (Key * Matrix)) (b : Vector)
    : JacobianFactor :=
  mkJacobianFactor (fst <$> terms)
    (mkVBM ((cols ∘ snd <$> terms) ++ [1%nat])
       (mkMatrix (length b) (hcat (snd <$> terms) ++ [b])))
    None.

(** Modelled from the spec: [jacobianUnweighted()], declared in
    [gtsam/linear/JacobianFactor.h]: the pair of the stored Jacobian
    [[A1 .. An]] and the stored right-hand side, without applying the
    noise model the factor carries. *)
Definition jacobianUnweighted (jf : JacobianFactor) : Matrix * Vector :=
  let Ab := jf_Ab jf in
  (mkMatrix (rows (matrix Ab))
     (take (offset (blockDims Ab) (jf_size jf)) (columns (matrix Ab))),
   getb jf).

(** [GaussianFactor], the base class [linearize] returns a pointer to. *)
Inductive GaussianFactor : Type :=
  | Jacobian (jf : JacobianFactor)
  | Hessian.

(** [boost::dynamic_pointer_cast<JacobianFactor>(gf)]. *)
Definition dynamic_pointer_cast (gf : option GaussianFactor)
    : option JacobianFactor :=
  match gf with
  | Some (Jacobian jf) => Some jf
  | _ => None
  end.
End linear_system.
Arguments JacobianFactor NM : clear implicits.
Arguments GaussianFactor NM : clear implicits.

(** ** The noise model interface *)

(** Modelled from the spec: the noise model is an external collaborator
    ([gtsam/linear/NoiseModel.h]) that exposes its dimension, whether it is
    constrained, the unit model of a constrained model and the whitening of
    a system [(A, b)]. *)
Class NoiseModel (NM : Type) : Type := {
  nm_dim : NM → nat;
  isConstrained : NM → bool;
  Constrained_unit : NM → NM;
  WhitenSystem : NM → Matrix → Vector → Matrix * Vector
}.

(** ** The variable assignment container *)

(** The type-erased [Value]: a manifold value that knows its dimension and
    its retraction. *)
Class GenericValue (Value : Type) : Type := {
  dim : Value → nat;
  retract_ : Value → Vector → Value
}.

Section values.
Context {Value : Type} `{GV : GenericValue Value}.

(** Modelled from the spec: [Values::zeroVectors()], declared in
    [gtsam/nonlinear/Values.h]: a delta map with one zero tangent vector
    per key. *)
Definition zeroVectors (values : gmap Key Value) : gmap Key Vector :=
  (λ v, zero (dim v)) <$> values.

(** Modelled from the spec: [Values::retract(delta)], declared in
    [gtsam/nonlinear/Values.h]: a new assignment in which every value is
    retracted by its entry of the delta map; an absent entry counts as
    zero and leaves the value as it is. *)
Definition Values_retract (values : gmap Key Value)
    (delta : gmap Key Vector) : gmap Key Value :=
  map_imap (λ k v, Some (match delta !! k with
                         | Some d => retract_ v d
                         | None => v
                         end)) values.

(** Modelled from the spec: [Values::insert(key, value)], declared in
    [gtsam/nonlinear/Values.h]: mapping-like insert; keys are unique, a
    key that is already present is rejected. *)
Definition Values_insert (values : gmap Key Value) (key : Key) (v : Value)
    : result (gmap Key Value) :=
  match values !! key with
  | Some _ => Throw (ValuesKeyAlreadyExists key)
  | None => Return (<[key := v]> values)
  end.

(** Modelled from the spec: [Values::at(key)], declared in
    [gtsam/nonlinear/Values.h]: mapping-like lookup. *)
Definition Values_at (values : gmap Key Value) (key : Key) : result Value :=
  match values !! key with
  | Some v => Return v
  | None => Throw (ValuesKeyDoesNotExist key)
  end.
End values.

(** Modelled from the spec: [VectorValues::dim(key)] and the write access
    [dX[key] = dx], declared in [gtsam/linear/VectorValues.h]; both refuse
    a key the delta map does not hold. *)
Definition VectorValues_dim (dX : gmap Key Vector) (key : Key) : result nat :=
  match dX !! key with
  | Some v => Return (length v)
  | None => Throw out_of_range
  end.

Definition VectorValues_assign (dX : gmap Key Vector) (key : Key) (dx : Vector)
    : result (gmap Key Vector) :=
  match dX !! key with
  | Some _ => Return (<[key := dx]> dX)
  | None => Throw out_of_range
  end.

(** ** The capability interface of a factor

    The harness and the cross-check driver are templates over
    [FactorType]; they use the key range [begin() .. end()],
    [unwhitenedError(values)] and [linearize(values)]. *)
Record FactorType (Value NM : Type) : Type := mkFactorType {
  factor_keys : list Key;
  factor_unwhitenedError : gmap Key Value → result Vector;
  factor_linearize : gmap Key Value → result (option (GaussianFactor NM))
}.
Arguments factor_keys {Value NM} _.
Arguments factor_unwhitenedError {Value NM} _ _.
Arguments factor_linearize {Value NM} _ _.

(** ** The linearization harness *)

Section harness.
Context {Value : Type} `{GV : GenericValue Value} {NM : Type}.

(** The body of the inner loop of
    [computeNumericalDerivativeJacobianFactor]; the variables it assigns
    and that live on after the iteration are [J] and [dX]. *)
Definition harness_column (factor : FactorType Value NM)
    (values : gmap Key Value) (fd_step : double) (key : Key) (cols : nat)
    (col : nat) (s : Matrix * gmap Key Vector)
    : result (Matrix * gmap Key Vector) :=
  let '(J, dX) := s in
  let dx := zero cols in
  let dx := <[col := fd_step]> dx in
  dX ← VectorValues_assign dX key dx;
  let eval_values := Values_retract values dX in
  left ← factor_unwhitenedError factor eval_values;
  let dx := <[col := (- fd_step)%Qc]> dx in
  dX ← VectorValues_assign dX key dx;
  let eval_values := Values_retract values dX in
  right ← factor_unwhitenedError factor eval_values;
  Return (set_col J col (vscale (vsub left right) (1 / (2 * fd_step))%Qc),
          dX).

(** The body of the loop over the keys; the variables that live on are
    the map [jacobians] and the delta map [dX], which is declared before
    the loop. *)
Definition harness_key (factor : FactorType Value NM)
    (values : gmap Key Value) (fd_step : double) (rows : nat) (key : Key)
    (s : list (Key * Matrix) * gmap Key Vector)
    : result (list (Key * Matrix) * gmap Key Vector) :=
  let '(jacobians, dX) := s in
  cols ← VectorValues_dim dX key;
  let J := zeros rows cols in
  '(J, dX) ← for_loopM cols (harness_column factor values fd_step key cols)
               (J, dX);
  Return (map_assign key J jacobians, dX).

Definition computeNumericalDerivativeJacobianFactor
    (factor : FactorType Value NM) (values : gmap Key Value)
    (fd_step : double) : result (JacobianFactor NM) :=
  e ← factor_unwhitenedError factor values;
  let rows := length e in
  let jacobians : list (Key * Matrix) := [] in
  let dX := zeroVectors values in
  '(jacobians, dX) ← foldM (harness_key factor values fd_step rows)
                       (factor_keys factor) (jacobians, dX);
  Return (JacobianFactor_of_terms jacobians (vneg e)).
End harness.

(** ** The cross-check driver *)

(** Modelled from the spec: [assert_equal(expected, actual, tol)] of
    [gtsam/base/Vector.h] and [gtsam/base/Matrix.h]: the two operands have
    the same shape and agree elementwise within [tol]. *)
Definition assert_equal_Vector (expected actual : Vector) (tol : double)
    : bool :=
  bool_decide (length expected = length actual)
  && forallb (λ p, bool_decide (Qcabs (p.1 - p.2) ≤ tol)%Qc)
       (zip expected actual).

Definition assert_equal_Matrix (expected actual : Matrix) (tol : double)
    : bool :=
  bool_decide (rows expected = rows actual)
  && bool_decide (cols expected = cols actual)
  && forallb (λ p, assert_equal_Vector p.1 p.2 tol)
       (zip (columns expected) (columns actual)).

(** Modelled from the spec: [TestResult] and the [EXPECT] macro of
    CppUnitLite: a failed expectation is recorded and the test goes on. *)
Record Failure : Type := mkFailure { testName : string; condition : string }.

Abbreviation TestResult := (list Failure) (only parsing).

Definition EXPECT (result_ : TestResult) (name_ : string) (text : string)
    (holds : bool) : TestResult :=
  if holds then result_ else result_ ++ [mkFailure name_ text].

Section driver.
Context {Value : Type} `{GV : GenericValue Value} {NM : Type}.

Definition testFactorJacobians (result_ : TestResult) (name_ : string)
    (f : FactorType Value NM) (values : gmap Key Value)
    (fd_step tolerance : double) : result TestResult :=
  expected ← computeNumericalDerivativeJacobianFactor f values fd_step;
  gf ← factor_linearize f values;
  let jf := dynamic_pointer_cast gf in
  jf ← deref jf;
  let evalJ := jacobianUnweighted jf in
  let estJ := jacobianUnweighted expected in
  let result_ := EXPECT result_ name_
    "assert_equal(evalJ.first, estJ.first, tolerance)"
    (assert_equal_Matrix evalJ.1 estJ.1 tolerance) in
  let result_ := EXPECT result_ name_
    "assert_equal(evalJ.second, Eigen::VectorXd::Zero(evalJ.second.size()), tolerance)"
    (assert_equal_Vector evalJ.2 (zero (length evalJ.2)) tolerance) in
  let result_ := EXPECT result_ name_
    "assert_equal(estJ.second, Eigen::VectorXd::Zero(evalJ.second.size()), tolerance)"
    (assert_equal_Vector estJ.2 (zero (length evalJ.2)) tolerance) in
  Return result_.
End driver.

(** ** Expressions *)

(** Modelled from the spec: [Expression<T>] is an external collaborator
    ([gtsam/nonlinear/Expression.h]).  It exposes the value at an
    assignment, the value together with one Jacobian block per key, and
    its keys and their tangent dimensions.  The factor calls it through
    three entry points, kept apart here: [value],
    [valueAndDerivatives] (the blocks are returned in a vector) and
    [valueAndJacobianMap] (the blocks are added into the zeroed blocks of a
    [JacobianMap], one block per key of the map). *)
Record Expression (Value T : Type) : Type := mkExpression {
  value : gmap Key Value → result T;
  valueAndDerivatives :
    gmap Key Value → list Key → list nat → result (T * list Matrix);
  valueAndJacobianMap :
    gmap Key Value → list Key → result (T * list Matrix);
  keysAndDims : list Key * list nat
}.
Arguments value {Value T} _ _.
Arguments valueAndDerivatives {Value T} _ _ _ _.
Arguments valueAndJacobianMap {Value T} _ _ _.
Arguments keysAndDims {Value T} _.

(** What a [JacobianMap] over [(keys, Ab)] lets the expression do: add the
    Jacobian of the [i]-th key into block [i] of [Ab]. *)
Definition JacobianMap_add (Ab : VerticalBlockMatrix) (Js : list Matrix)
    : VerticalBlockMatrix :=
  foldl (λ Ab '(i, J), set_block Ab i (madd (block Ab i) J)) Ab
    (imap pair Js).

(** ** The analytic-derivative factor *)

Section expression_factor.
Context {Value : Type} `{GV : GenericValue Value}.
Context {NM : Type} `{NMI : NoiseModel NM}.
Context {T : Type} `{ChartT : Chart T}.

(** [ExpressionFactor<T>]: the members of [NoiseModelFactor]
    ([keys_], [noiseModel_], both set by the base class, and the
    virtual predicate [active]) followed by its own.  [noiseModel_] is a
    shared pointer and may be null; [expression_] is default-constructed
    (empty) until [initialize] runs. *)
Record ExpressionFactor : Type := mkExpressionFactor {
  keys_ : list Key;
  noiseModel_ : option NM;
  active : gmap Key Value → bool;
  measured_ : T;
  expression_ : option (Expression Value T);
  dims_ : list nat
}.

(** [static const int Dim = traits<T>::dimension], the fixed output
    dimension of the factor.  For the fixed-size types the factor is
    instantiated with it is a positive [int], and its comparison with the
    [size_t] that [dim()] returns is a comparison of naturals. *)
Definition Dim : nat := dimension T.

(** [size()] of the base class [Factor]: the number of keys. *)
Definition factor_size (this : ExpressionFactor) : nat :=
  length (keys_ this).

(** The protected constructor [ExpressionFactor(noiseModel, measurement)]:
    "Not properly initialized yet, need to call initialize".  The
    predicate [active] is the one of the base class, which accepts every
    assignment. *)
Definition ExpressionFactor_uninitialized (noiseModel : option NM)
    (measurement : T) : ExpressionFactor :=
  {| keys_ := [];
     noiseModel_ := noiseModel;
     active := λ _, true;
     measured_ := measurement;
     expression_ := None;
     dims_ := [] |}.

Definition initialize (this : ExpressionFactor)
    (expression : Expression Value T) : result ExpressionFactor :=
  match noiseModel_ this with
  | None => Throw (invalid_argument "ExpressionFactor: no NoiseModel.")
  | Some nm =>
      if negb (bool_decide (nm_dim nm = Dim)) then
        Throw (invalid_argument
          "ExpressionFactor was created with a NoiseModel of incorrect dimension.")
      else
        let '(keys, dims) := keysAndDims expression in
        Return {| keys_ := keys;
                  noiseModel_ := noiseModel_ this;
                  active := active this;
                  measured_ := measured_ this;
                  expression_ := Some expression;
                  dims_ := dims |}
  end.

(** The public constructor
    [ExpressionFactor(noiseModel, measurement, expression)]. *)
Definition ExpressionFactor_new (noiseModel : option NM) (measurement : T)
    (expression : Expression Value T) : result ExpressionFactor :=
  initialize (ExpressionFactor_uninitialized noiseModel measurement)
    expression.

(** [unwhitenedError(x, H)]: [H] is the optional vector the caller
    supplies; the second component of the result is what it holds
    afterwards. *)
Definition unwhitenedError (this : ExpressionFactor)
    (x : gmap Key Value) (H : option (list Matrix))
    : result (Vector * option (list Matrix)) :=
  expression ← deref (expression_ this);
  match H with
  | Some _ =>
      '(value, H') ← valueAndDerivatives expression x (keys_ this)
                       (dims_ this);
      Return (local (measured_ this) value, Some H')
  | None =>
      value ← value expression x;
      Return (local (measured_ this) value, None)
  end.

Definition linearize (this : ExpressionFactor) (x : gmap Key Value)
    : result (option (JacobianFactor NM)) :=
  if negb (active this x) then Return None
  else
    nm ← deref (noiseModel_ this);
    let noiseModel : option NM :=
      if isConstrained nm then Some (Constrained_unit nm) else None in
    let factor :=
      JacobianFactor_new (keys_ this) (dims_ this) Dim noiseModel in
    let Ab := jf_Ab factor in
    let Ab := mkVBM (blockDims Ab)
                (zeros (rows (matrix Ab)) (cols (matrix Ab))) in
    expression ← deref (expression_ this);
    '(value, Js) ← valueAndJacobianMap expression x (keys_ this);
    let Ab := JacobianMap_add Ab Js in
    let Ab := set_block_col0 Ab (factor_size this)
                (vneg (local (measured_ this) value)) in
    let b := default [] (col (block Ab (factor_size this)) 0) in
    let '(M, b) := WhitenSystem nm (matrix Ab) b in
    Return (Some (mkJacobianFactor (jf_keys factor)
                    (mkVBM (blockDims Ab) M) (jf_model factor))).

(** The factor seen through the capability interface. *)
Definition as_FactorType (this : ExpressionFactor) : FactorType Value NM :=
  {| factor_keys := keys_ this;
     factor_unwhitenedError x := fst <$> unwhitenedError this x None;
     factor_linearize x := fmap (M := option) Jacobian <$> linearize this x |}.

(** *** The two-variable specialization *)

(** [GenericValue<A>]: how a typed argument is stored in [Values]. *)
Context {A1 A2 : Type} (wrap1 : A1 → Value) (wrap2 : A2 → Value).

(** The protected constructor
    [ExpressionFactor2(key1, key2, noiseModel, measurement)]:
    "Constructor takes care of keys, but still need to call
    initialize". *)
Definition ExpressionFactor2_new (key1 key2 : Key) (noiseModel : option NM)
    (measurement : T) : result ExpressionFactor :=
  let this := ExpressionFactor_uninitialized noiseModel measurement in
  let this := {| keys_ := keys_ this ++ [key1];
                 noiseModel_ := noiseModel_ this;
                 active := active this;
                 measured_ := measured_ this;
                 expression_ := expression_ this;
                 dims_ := dims_ this |} in
  let this := {| keys_ := keys_ this ++ [key2];
                 noiseModel_ := noiseModel_ this;
                 active := active this;
                 measured_ := measured_ this;
                 expression_ := expression_ this;
                 dims_ := dims_ this |} in
  Return this.

(** [evaluateError(a1, a2, H1, H2)]: [H1] and [H2] are the optional
    output matrices; the result carries what they hold afterwards. *)
Definition evaluateError (this : ExpressionFactor) (a1 : A1) (a2 : A2)
    (H1 H2 : option Matrix)
    : result (Vector * option Matrix * option Matrix) :=
  let values : gmap Key Value := ∅ in
  key0 ← at_index (keys_ this) 0;
  values ← Values_insert values key0 (wrap1 a1);
  key1 ← at_index (keys_ this) 1;
  values ← Values_insert values key1 (wrap2 a2);
  let H := replicate 2 (zeros 0 0) in
  '(error, H) ← unwhitenedError this values (Some H);
  H ← deref H;
  H1 ← match H1 with
       | Some _ => h0 ← at_index H 0; Return (Some h0)
       | None => Return None
       end;
  H2 ← match H2 with
       | Some _ => h1 ← at_index H 1; Return (Some h1)
       | None => Return None
       end;
  Return (error, H1, H2).
End expression_factor.

(** ** Concrete collaborators for the scenarios *)

(** Euclidean vectors stored in [Values]: [dim] is the length and the
    retraction is vector addition. *)
#[global] Instance Vector_GenericValue : GenericValue Vector := {|
  dim v := length v;
  retract_ x d := vadd x d
|}.

(** Modelled from the spec: noise models are an external collaborator
    ([gtsam/linear/NoiseModel.h]).  These are the diagonal ones: the unit
    model of a given dimension (Scenario 3), a diagonal model given by its
    sigmas, and a constrained model, in which a zero sigma marks a
    constrained row. *)
Inductive DiagonalModel : Type :=
  | Unit (n : nat)
  | Sigmas (sigmas : Vector)
  | Constrained (sigmas : Vector).

(** Whitening of one column: each row is divided by its sigma; a
    constrained row (zero sigma) is left as it is. *)
Definition whiten_column (sigmas : Vector) (v : Vector) : Vector :=
  zip_with (λ x s, if decide (s = 0%Qc) then x else (x / s)%Qc) v sigmas.

Definition whiten_with (nm : DiagonalModel) (v : Vector) : Vector :=
  match nm with
  | Unit _ => v
  | Sigmas sigmas | Constrained sigmas => whiten_column sigmas v
  end.

#[global] Instance DiagonalModel_NoiseModel : NoiseModel DiagonalModel := {|
  nm_dim nm :=
    match nm with
    | Unit n => n
    | Sigmas sigmas | Constrained sigmas => length sigmas
    end;
  isConstrained nm :=
    match nm with
    | Constrained _ => true
    | _ => false
    end;
  Constrained_unit nm :=
    match nm with
    | Constrained sigmas =>
        Constrained ((λ s, if decide (s = 0%Qc) then 0%Qc else 1%Qc) <$> sigmas)
    | _ => nm
    end;
  WhitenSystem nm A b :=
    (mkMatrix (rows A) (whiten_with nm <$> columns A), whiten_with nm b)
|}.

(** Modelled from the spec: the leaf expression of
    [gtsam/nonlinear/Expression.h], as Scenario 3 uses it: [h(x) = x] reads
    the [n]-dimensional variable stored under [key]; its single Jacobian
    block is the identity. *)
Definition Leaf (n : nat) (key : Key) : Expression Vector Vector := {|
  value x := Values_at x key;
  valueAndDerivatives x _ _ := v ← Values_at x key; Return (v, [identity n]);
  valueAndJacobianMap x _ := v ← Values_at x key; Return (v, [identity n]);
  keysAndDims := ([key], [n])
|}.

(** A factor on two scalar variables whose error is their product. *)
Definition ProductFactor (key1 key2 : Key) : FactorType Vector DiagonalModel := {|
  factor_keys := [key1; key2];
  factor_unwhitenedError x :=
    a ← Values_at x key1;
    b ← Values_at x key2;
    Return [(default 0 (a !! 0%nat) * default 0 (b !! 0%nat))%Qc];
  factor_linearize _ := Return None
|}.

(** ** What the harness is specified to compute *)

Section harness_spec.
Context {Value : Type} `{GV : GenericValue Value} {NM : Type}.

(** The delta map that is [c] in coordinate [col] of [key] and zero in
    every other coordinate of [key] and of every other key. *)
Definition single_delta (values : gmap Key Value) (key : Key) (col : nat)
    (c : double) : gmap Key Vector :=
  map_imap (λ k v, Some (if decide (k = key) then basis (dim v) col c
                         else zero (dim v))) values.

(** The central difference of the factor's error along that single
    coordinate. *)
Definition harness_central_difference (factor : FactorType Value NM)
    (values : gmap Key Value) (fd_step : double) (key : Key) (col : nat)
    : result Vector :=
  error_plus ← factor_unwhitenedError factor
    (Values_retract values (single_delta values key col fd_step));
  error_minus ← factor_unwhitenedError factor
    (Values_retract values (single_delta values key col (- fd_step)%Qc));
  Return ((λ c, c / (2 * fd_step))%Qc <$> vsub error_plus error_minus).
(** The central difference of the factor's error along coordinate [col] of
    [key] around the delta map [dX0], whose entry for [key] has [cols]
    coordinates. *)
Definition central_difference_around (factor : FactorType Value NM)
    (values : gmap Key Value) (fd_step : double) (dX0 : gmap Key Vector)
    (key : Key) (cols col : nat) : result Vector :=
  error_plus ← factor_unwhitenedError factor
    (Values_retract values (<[key := basis cols col fd_step]> dX0));
  error_minus ← factor_unwhitenedError factor
    (Values_retract values (<[key := basis cols col (- fd_step)%Qc]> dX0));
  Return ((λ c, c / (2 * fd_step))%Qc <$> vsub error_plus error_minus).

(** The factor's error can be evaluated at every assignment over the
    keys of [values]. *)
Definition evaluable (factor : FactorType Value NM)
    (values : gmap Key Value) : Prop :=
  ∀ x : gmap Key Value, dom x = dom values →
    ∃ e, factor_unwhitenedError factor x = Return e.
End harness_spec.

(** ** What the cross-check driver is specified to compare *)

(** Two vectors, and two matrices, agree elementwise within [tol]. *)
Definition vectors_agree (tol : double) (u v : Vector) : Prop :=
  length u = length v ∧
  ∀ i a b, u !! i = Some a → v !! i = Some b → (Qcabs (a - b) ≤ tol)%Qc.

Definition matrices_agree (tol : double) (A B : Matrix) : Prop :=
  rows A = rows B ∧ cols A = cols B ∧
  ∀ j ca cb, col A j = Some ca → col B j = Some cb → vectors_agree tol ca cb.

(** Every entry of a vector is zero within [tol]. *)
Definition numerically_zero (tol : double) (v : Vector) : Prop :=
  ∀ i a, v !! i = Some a → (Qcabs a ≤ tol)%Qc.

(** ** What the factor is specified to compute *)

Section expression_factor_spec.
Context {Value : Type} `{GV : GenericValue Value}.
Context {NM : Type} `{NMI : NoiseModel NM}.
Context {T : Type} `{ChartT : Chart T}.

(** The right-hand side column of an augmented matrix with [n] variable
    blocks. *)
Definition rhs_column (Ab : VerticalBlockMatrix) (n : nat) : Vector :=
  default [] (col (block Ab n) 0).

(** The assembled system before whitening: the Jacobian blocks the
    expression produces in one pass, added into zeroed blocks, and the
    right-hand side [-local(measured, value)]. *)
Definition unwhitened_system (this : ExpressionFactor (Value := Value)
    (NM := NM) (T := T)) (x : gmap Key Value) : result VerticalBlockMatrix :=
  expression ← deref (expression_ this);
  '(value, Js) ← valueAndJacobianMap expression x (keys_ this);
  let Ab := mkVBM (dims_ this ++ [1%nat])
              (zeros Dim (sum_list (dims_ this) + 1)) in
  Return (set_block_col0 (JacobianMap_add Ab Js) (factor_size this)
            (vneg (local (measured_ this) value))).

(** The linear system obtained by whitening the assembled system with
    the noise model [w] and attaching the noise model [carried]. *)
Definition whitened_system (this : ExpressionFactor (Value := Value)
    (NM := NM) (T := T)) (x : gmap Key Value) (w : NM)
    (carried : option NM) : result (option (JacobianFactor NM)) :=
  Ab ← unwhitened_system this x;
  Return (Some (mkJacobianFactor (keys_ this)
    (mkVBM (blockDims Ab)
       (WhitenSystem w (matrix Ab)
          (rhs_column Ab (factor_size this))).1)
    carried)).

(** The reading of the constrained case in which the unit model does
    the whitening. *)
Definition whitens_with_unit_model (this : ExpressionFactor (Value := Value)
    (NM := NM) (T := T)) (x : gmap Key Value) : Prop :=
  ∀ nm, noiseModel_ this = Some nm → isConstrained nm = true →
    active this x = true →
    linearize this x
    = whitened_system this x (Constrained_unit nm)
        (Some (Constrained_unit nm)).

(** The two configuration errors [initialize] looks for. *)
Definition misconfigured (noiseModel : option NM) : Prop :=
  noiseModel = None ∨ ∃ nm, noiseModel = Some nm ∧ nm_dim nm ≠ Dim.

(** The factor has gone through [initialize]. *)
Definition initialized (this : ExpressionFactor (Value := Value)
    (NM := NM) (T := T)) (nm : NM) (e : Expression Value T) : Prop :=
  noiseModel_ this = Some nm ∧ expression_ this = Some e.
End expression_factor_spec.

(** ** Decidable equality of the data of the model *)

#[global] Instance Matrix_eq_dec : EqDecision Matrix.
Proof. solve_decision. Defined.

#[global] Instance VerticalBlockMatrix_eq_dec : EqDecision VerticalBlockMatrix.
Proof. solve_decision. Defined.

#[global] Instance JacobianFactor_eq_dec {NM : Type} `{EqDecision NM} :
  EqDecision (JacobianFactor NM).
Proof. solve_decision. Defined.

#[global] Instance GaussianFactor_eq_dec {NM : Type} `{EqDecision NM} :
  EqDecision (GaussianFactor NM).
Proof. solve_decision. Defined.

#[global] Instance exception_eq_dec : EqDecision exception.
Proof. solve_decision. Defined.

#[global] Instance result_eq_dec {A : Type} `{EqDecision A} :
  EqDecision (result A).
Proof. solve_decision. Defined.

#[global] Instance DiagonalModel_eq_dec : EqDecision DiagonalModel.
Proof. solve_decision. Defined.

#[global] Instance Failure_eq_dec : EqDecision Failure.
Proof. solve_decision. Defined.

(** Closed goals over rationals, lists and records are settled by running
    the decision procedure for equality. *)
Ltac by_compute := apply (bool_decide_unpack _); vm_compute; exact I.

(** ** The rest of the finite-difference engine *)

(** Curried variants: all arguments but one are fixed
    ([boost::bind(h, _1, x2)] and so on), then the single-argument form is
    used.  The overloads that take a raw function pointer only forward to
    these. *)
Section curried.
Context {Y X1 X2 X3 : Type}.
Context `{ChartY : Chart Y} `{Chart1 : Chart X1} `{Chart2 : Chart X2}
  `{Chart3 : Chart X3}.

Definition numericalDerivative21 (h : X1 → X2 → Y) (x1 : X1) (x2 : X2)
    (delta : double) : Matrix :=
  numericalDerivative11 (ChartX := Chart1) (λ a, h a x2) x1 delta.

Definition numericalDerivative22 (h : X1 → X2 → Y) (x1 : X1) (x2 : X2)
    (delta : double) : Matrix :=
  numericalDerivative11 (ChartX := Chart2) (λ a, h x1 a) x2 delta.

Definition numericalDerivative31 (h : X1 → X2 → X3 → Y) (x1 : X1) (x2 : X2)
    (x3 : X3) (delta : double) : Matrix :=
  numericalDerivative11 (ChartX := Chart1) (λ a, h a x2 x3) x1 delta.

Definition numericalDerivative32 (h : X1 → X2 → X3 → Y) (x1 : X1) (x2 : X2)
    (x3 : X3) (delta : double) : Matrix :=
  numericalDerivative11 (ChartX := Chart2) (λ a, h x1 a x3) x2 delta.

Definition numericalDerivative33 (h : X1 → X2 → X3 → Y) (x1 : X1) (x2 : X2)
    (x3 : X3) (delta : double) : Matrix :=
  numericalDerivative11 (ChartX := Chart3) (λ a, h x1 x2 a) x3 delta.
End curried.

(** Hessians: the Jacobian of the gradient map.  The gradient is a
    [Vector], whose chart is the Euclidean one ([local(g0, g) = g - g0]);
    its length is the tangent dimension of the argument of the
    gradient. *)
Section hessians.
Context {X1 X2 X3 : Type}.
Context `{Chart1 : Chart X1} `{Chart2 : Chart X2} `{Chart3 : Chart X3}.

Definition numericalHessian (f : X1 → double) (x : X1) (delta : double)
    : Matrix :=
  numericalDerivative11 (ChartX := Chart1)
    (ChartY := EuclideanChart (dimension X1))
    (λ a, numericalGradient f a delta) x delta.

(** The helper class [G_x1]: the gradient of [f] with respect to its first
    argument, centred at [x1_], as a function of the second argument. *)
Definition G_x1 (f_ : X1 → X2 → double) (x1_ : X1) (delta_ : double)
    (x2 : X2) : Vector :=
  numericalGradient (ChartX := Chart1) (λ a, f_ a x2) x1_ delta_.

Definition numericalHessian212 (f : X1 → X2 → double) (x1 : X1) (x2 : X2)
    (delta : double) : Matrix :=
  let g_x1 := G_x1 f x1 delta in
  numericalDerivative11 (ChartX := Chart2)
    (ChartY := EuclideanChart (dimension X1)) g_x1 x2 delta.

Definition numericalHessian211 (f : X1 → X2 → double) (x1 : X1) (x2 : X2)
    (delta : double) : Matrix :=
  let f2 := λ a, f a x2 in
  numericalDerivative11 (ChartX := Chart1)
    (ChartY := EuclideanChart (dimension X1))
    (λ a, numericalGradient f2 a delta) x1 delta.

Definition numericalHessian222 (f : X1 → X2 → double) (x1 : X1) (x2 : X2)
    (delta : double) : Matrix :=
  let f2 := λ a, f x1 a in
  numericalDerivative11 (ChartX := Chart2)
    (ChartY := EuclideanChart (dimension X2))
    (λ a, numericalGradient f2 a delta) x2 delta.

Definition numericalHessian311 (f : X1 → X2 → X3 → double) (x1 : X1)
    (x2 : X2) (x3 : X3) (delta : double) : Matrix :=
  let f2 := λ a, f a x2 x3 in
  numericalDerivative11 (ChartX := Chart1)
    (ChartY := EuclideanChart (dimension X1))
    (λ a, numericalGradient f2 a delta) x1 delta.

Definition numericalHessian322 (f : X1 → X2 → X3 → double) (x1 : X1)
    (x2 : X2) (x3 : X3) (delta : double) : Matrix :=
  let f2 := λ a, f x1 a x3 in
  numericalDerivative11 (ChartX := Chart2)
    (ChartY := EuclideanChart (dimension X2))
    (λ a, numericalGradient f2 a delta) x2 delta.

Definition numericalHessian333 (f : X1 → X2 → X3 → double) (x1 : X1)
    (x2 : X2) (x3 : X3) (delta : double) : Matrix :=
  let f2 := λ a, f x1 x2 a in
  numericalDerivative11 (ChartX := Chart3)
    (ChartY := EuclideanChart (dimension X3))
    (λ a, numericalGradient f2 a delta) x3 delta.
End hessians.

Section mixed_hessians.
Context {X1 X2 X3 : Type}.
Context `{Chart1 : Chart X1} `{Chart2 : Chart X2} `{Chart3 : Chart X3}.

Definition numericalHessian312 (f : X1 → X2 → X3 → double) (x1 : X1)
    (x2 : X2) (x3 : X3) (delta : double) : Matrix :=
  numericalHessian212 (Chart1 := Chart1) (Chart2 := Chart2)
    (λ a b, f a b x3) x1 x2 delta.

Definition numericalHessian313 (f : X1 → X2 → X3 → double) (x1 : X1)
    (x2 : X2) (x3 : X3) (delta : double) : Matrix :=
  numericalHessian212 (Chart1 := Chart1) (Chart2 := Chart3)
    (λ a c, f a x2 c) x1 x3 delta.

Definition numericalHessian323 (f : X1 → X2 → X3 → double) (x1 : X1)
    (x2 : X2) (x3 : X3) (delta : double) : Matrix :=
  numericalHessian212 (Chart1 := Chart2) (Chart2 := Chart3)
    (λ b c, f x1 b c) x2 x3 delta.
End mixed_hessians.

(** The four evaluations behind one coefficient of a Hessian: the second
    central difference of [f] along coordinate [i] of the first argument
    and coordinate [j] of the second. *)
Definition mixed_difference {X1 X2 : Type} `{Chart1 : Chart X1}
    `{Chart2 : Chart X2} (f : X1 → X2 → double) (x1 : X1) (x2 : X2)
    (delta : double) (i j : nat) : double :=
  let p1 := retract x1 (basis (dimension X1) i delta) in
  let m1 := retract x1 (basis (dimension X1) i (- delta)) in
  let p2 := retract x2 (basis (dimension X2) j delta) in
  let m2 := retract x2 (basis (dimension X2) j (- delta)) in
  ((f p1 p2 - f m1 p2 - f p1 m2 + f m1 m2)
   / ((2 * delta) * (2 * delta)))%Qc.

(** The same for a function of one argument: the point is perturbed along
    coordinate [j] first and along coordinate [i] from there. *)
Definition second_difference {X : Type} `{ChartX : Chart X} (f : X → double)
    (x : X) (delta : double) (i j : nat) : double :=
  let N := dimension X in
  let p := retract x (basis N j delta) in
  let m := retract x (basis N j (- delta)) in
  ((f (retract p (basis N i delta)) - f (retract p (basis N i (- delta)))
    - f (retract m (basis N i delta)) + f (retract m (basis N i (- delta))))
   / ((2 * delta) * (2 * delta)))%Qc.

(** The coefficient [H(i, j)] of a matrix. *)
Definition coeff (H : Matrix) (i j : nat) : option double :=
  col H j ≫= (λ c, c !! i).

(** The inner product [aᵗ b] of two vectors. *)
Definition dot (a b : Vector) : double :=
  foldr Qcplus 0%Qc (zip_with Qcmult a b).

(** The side conditions that [field] leaves: the step, and the constant 2,
    are not zero. *)
Ltac nonzero := repeat split; first [assumption | discriminate].

(** ** What the harness computes on a factor with several keys *)

Section harness_delta.
Context {Value : Type} `{GV : GenericValue Value}.

(** The entry the inner loop leaves in the delta map for a key it has
    visited: the last perturbation, [-fd_step] in the last coordinate; a
    key of dimension zero, or absent from [values], leaves the map as it
    is. *)
Definition visited_entry (values : gmap Key Value) (fd_step : double)
    (dX : gmap Key Vector) (key : Key) : gmap Key Vector :=
  match values !! key with
  | Some v =>
      match dim v with
      | O => dX
      | S n => <[key := basis (S n) n (- fd_step)%Qc]> dX
      end
  | None => dX
  end.

(** The delta map once the keys [visited] have been differentiated. *)
Definition visited_delta (values : gmap Key Value) (fd_step : double)
    (visited : list Key) : gmap Key Vector :=
  foldl (visited_entry values fd_step) (zeroVectors values) visited.
(** A delta map for [values]: one entry per key, of the dimension of the
    value. *)
Definition delta_for (values : gmap Key Value) (dX : gmap Key Vector)
    : Prop :=
  dom dX = dom values ∧
  ∀ k v, values !! k = Some v → ∃ d, dX !! k = Some d ∧ length d = dim v.
End harness_delta.

(** ** Factors on which the harness is exercised *)

Section harness_separable.
Context {Value : Type} `{GV : GenericValue Value} {NM : Type}.

(** Around [values], the error of [factor] is the sum of a term [g] of the
    tangent of [key], which has [n] coordinates, and a term [h] of the
    rest of the delta map. *)
Definition separable_along (factor : FactorType Value NM)
    (values : gmap Key Value) (key : Key) (n : nat) : Prop :=
  ∃ (g : Vector → Vector) (h : gmap Key Vector → Vector) (m : nat),
    ∀ d dX0, length d = n → delta_for values dX0 →
      factor_unwhitenedError factor (Values_retract values (<[key := d]> dX0))
      = Return (vadd (g d) (h dX0)) ∧
      length (g d) = m ∧ length (h dX0) = m.
End harness_separable.

(** A factor on two vector variables whose error is their difference. *)
Definition DifferenceFactor (key1 key2 : Key)
    : FactorType Vector DiagonalModel := {|
  factor_keys := [key1; key2];
  factor_unwhitenedError x :=
    a ← Values_at x key1;
    b ← Values_at x key2;
    Return (vsub b a);
  factor_linearize _ := Return None
|}.

(** A factor that declares the keys [keys] and whose error is the value
    stored under [key] alone. *)
Definition ValueFactor (keys : list Key) (key : Key)
    : FactorType Vector DiagonalModel := {|
  factor_keys := keys;
  factor_unwhitenedError x := Values_at x key;
  factor_linearize _ := Return None
|}.

(** ** Shapes of the Jacobian blocks an expression hands over *)

(** The blocks [Js] have [m] rows each and the widths [dims], in order. *)
Definition blocks_shaped (m : nat) (Js : list Matrix) (dims : list nat)
    : Prop :=
  Forall2 (λ (J : Matrix) (d : nat),
             cols J = d ∧ Forall (λ c : Vector, length c = m) (columns J))
    Js dims.

(** The noise model [nm] whitens a system column by column with [w]. *)
Definition whitens_columnwise {NM : Type} `{NoiseModel NM} (nm : NM)
    (w : Vector → Vector) : Prop :=
  ∀ (A : Matrix) (b : Vector),
    WhitenSystem nm A b = (mkMatrix (rows A) (w <$> columns A), w b).

(** An expression on two [n]-dimensional variables, [h(x) = x2 - x1]; its
    Jacobian blocks are [-I] and [I]. *)
Definition Between (n : nat) (key1 key2 : Key) : Expression Vector Vector :=
  let h (x : gmap Key Vector) : result Vector :=
    a ← Values_at x key1; b ← Values_at x key2; Return (vsub b a) in
  let Js := [mkMatrix n ((λ j, basis n j (- (1))%Qc) <$> seq 0 n);
             identity n] in
  {| value := h;
     valueAndDerivatives x _ _ := v ← h x; Return (v, Js);
     valueAndJacobianMap x _ := v ← h x; Return (v, Js);
     keysAndDims := ([key1; key2], [n; n]) |}.

(** ** Serialization of the analytic-derivative factor *)

Section serialization.
Context {Value : Type} `{GV : GenericValue Value}.
Context {NM : Type} `{NMI : NoiseModel NM}.
Context {T : Type} `{ChartT : Chart T}.

(** What [save] writes to the archive: the base object
    [NoiseModelFactor], that is its keys and its noise model, and
    [measured_].  The expression and [dims_] are not written. *)
Record Archive : Type := mkArchive {
  ar_keys : list Key;
  ar_noiseModel : option NM;
  ar_measured : T
}.

Definition save (this : ExpressionFactor (Value := Value) (NM := NM) (T := T))
    : Archive :=
  {| ar_keys := keys_ this;
     ar_noiseModel := noiseModel_ this;
     ar_measured := measured_ this |}.

(** The virtual [expression()] of [ExpressionFactor]: "Recreate expression
    from keys_ and measured_, used in load below". *)
Definition ExpressionFactor_expression
    (this : ExpressionFactor (Value := Value) (NM := NM) (T := T))
    : result (Expression Value T) :=
  Throw (runtime_error
    "ExpressionFactor::expression not provided: cannot deserialize.").

(** [load]: reads the base object and [measured_] into [this] and calls
    [initialize(expression())]; the virtual [expression()] the object
    dispatches to is the parameter [expression]. *)
Definition load
    (expression : ExpressionFactor (Value := Value) (NM := NM) (T := T)
                  → result (Expression Value T))
    (this : ExpressionFactor (Value := Value) (NM := NM) (T := T))
    (ar : Archive) : result (ExpressionFactor (Value := Value) (NM := NM)
                               (T := T)) :=
  let this := {| keys_ := ar_keys ar;
                 noiseModel_ := ar_noiseModel ar;
                 active := active this;
                 measured_ := ar_measured ar;
                 expression_ := expression_ this;
                 dims_ := dims_ this |} in
  e ← expression this;
  initialize this e.

(** The virtual [expression(key1, key2)] of [ExpressionFactor2]. *)
Definition ExpressionFactor2_expression_keys (key1 key2 : Key)
    : result (Expression Value T) :=
  Throw (runtime_error
    "ExpressionFactor2::expression not provided: cannot deserialize.").

(** The private [expression()] of [ExpressionFactor2], which overrides
    the one of the base class: [expression(keys_[0], keys_[1])]; the
    virtual [expression(key1, key2)] it dispatches to is the parameter
    [expression2]. *)
Definition ExpressionFactor2_expression
    (expression2 : Key → Key → result (Expression Value T))
    (this : ExpressionFactor (Value := Value) (NM := NM) (T := T))
    : result (Expression Value T) :=
  key1 ← at_index (keys_ this) 0;
  key2 ← at_index (keys_ this) 1;
  expression2 key1 key2.
End serialization.

(** A factor on two scalar variables, declared in the order [key1],
    [key2], whose error is [a + 2 b] for the value [a] of [key1] and the
    value [b] of [key2].  Its own linearization keeps the declared order:
    the blocks [1] and [2], then the right-hand side [-(a + 2 b)]. *)
Definition WeightedSumFactor (key1 key2 : Key)
    : FactorType Vector DiagonalModel :=
  let error (x : gmap Key Vector) : result double :=
    a ← Values_at x key1;
    b ← Values_at x key2;
    Return (default 0 (a !! 0%nat) + 2 * default 0 (b !! 0%nat))%Qc in
  {| factor_keys := [key1; key2];
     factor_unwhitenedError x := e ← error x; Return [e];
     factor_linearize x :=
       e ← error x;
       Return (Some (Jacobian
         (mkJacobianFactor [key1; key2]
            (mkVBM [1; 1; 1]%nat
               (mkMatrix 1 [[1%Qc]; [2%Qc]; [(- e)%Qc]]))
            None))) |}.

(** * Theorems *)
(** ** Facts about loops, vectors and matrices *)

Lemma for_loop_S {S : Type} (n : nat) (body : nat → S → S) (s : S) :
  for_loop (Datatypes.S n) body s = body n (for_loop n body s).
Proof.
  unfold for_loop. rewrite seq_S, foldl_app. reflexivity.
Qed.

(** Loop invariants: [P j s] holds before iteration [j]. *)
Lemma for_loop_inv {S : Type} (P : nat → S → Prop) (n : nat)
    (body : nat → S → S) (s : S) :
  P 0%nat s →
  (∀ j s', (j < n)%nat → P j s' → P (Datatypes.S j) (body j s')) →
  P n (for_loop n body s).
Proof.
  intros H0 Hstep. induction n as [|n IH].
  - exact H0.
  - rewrite for_loop_S. apply Hstep; [lia|]. apply IH.
    intros j s' Hj. apply Hstep. lia.
Qed.

Lemma length_zero (n : nat) : length (zero n) = n.
Proof. apply length_replicate. Qed.

Lemma length_basis (n j : nat) (c : double) : length (basis n j c) = n.
Proof. unfold basis. rewrite length_fmap. apply length_seq. Qed.

Lemma basis_lookup (n j i : nat) (c : double) :
  (i < n)%nat →
  basis n j c !! i = Some (if decide (i = j) then c else 0%Qc).
Proof.
  intros Hi. unfold basis. rewrite list_lookup_fmap.
  rewrite lookup_seq_lt by assumption. reflexivity.
Qed.

Lemma insert_zero_basis (n j : nat) (c : double) :
  <[j := c]> (zero n) = basis n j c.
Proof.
  apply list_eq. intros i.
  destruct (decide (i < n)%nat) as [Hi|Hi].
  - rewrite basis_lookup by assumption.
    destruct (decide (i = j)) as [->|Hne].
    + apply list_lookup_insert_eq. rewrite length_zero. assumption.
    + rewrite list_lookup_insert_ne by congruence.
      unfold zero. apply lookup_replicate_2. assumption.
  - rewrite (lookup_ge_None_2 (basis n j c)) by (rewrite length_basis; lia).
    apply lookup_ge_None_2. rewrite length_insert, length_zero. lia.
Qed.
Lemma tangent_restored (n j : nat) (a b : double) :
  <[j := 0%Qc]> (<[j := b]> (<[j := a]> (zero n))) = zero n.
Proof.
  rewrite !list_insert_insert_eq.
  apply list_insert_id'. intros Hj.
  unfold zero in *. rewrite length_replicate in Hj.
  apply lookup_replicate_2. assumption.
Qed.

(** ** Invariants of the two engine loops *)

Section engine_facts.
Context {X : Type} `{ChartX : Chart X}.

Lemma numericalGradient_loop (h : X → double) (x : X) (delta : double)
    (n : nat) :
  delta ≠ 0%Qc →
  (n ≤ dimension X)%nat →
  let body := λ (j : nat) '(d, g),
    let d := <[j := delta]> d in
    let hxplus := h (retract x d) in
    let d := <[j := (- delta)%Qc]> d in
    let hxmin := h (retract x d) in
    let d := <[j := 0%Qc]> d in
    (d, <[j := ((hxplus - hxmin) * (1 / (2 * delta)))%Qc]> g) in
  let s := for_loop n body (zero (dimension X), zero (dimension X)) in
  s.1 = zero (dimension X) ∧
  length s.2 = dimension X ∧
  ∀ j, (j < n)%nat → s.2 !! j = Some (central_difference h x delta j).
Proof.
  intros Hdelta Hn body. cbv zeta.
  apply (for_loop_inv (λ k s,
    (k ≤ n)%nat →
    s.1 = zero (dimension X) ∧ length s.2 = dimension X ∧
    ∀ j, (j < k)%nat → s.2 !! j = Some (central_difference h x delta j)));
    [| |lia].
  - intros _. simpl. split; [reflexivity|]. split; [apply length_zero|].
    intros j Hj. lia.
  - intros k [d g] Hk IH Hle. destruct IH as (Hd & Hlen & Hg); [lia|].
    simpl in Hd, Hlen, Hg. subst d. unfold body. cbn [fst snd].
    split; [apply tangent_restored|].
    split; [rewrite length_insert; exact Hlen|].
    intros j Hj. destruct (decide (j = k)) as [->|Hne].
    + rewrite list_lookup_insert_eq by lia. f_equal.
      rewrite list_insert_insert_eq, !insert_zero_basis.
      unfold central_difference. field. split; [exact Hdelta|discriminate].
    + rewrite list_lookup_insert_ne by congruence. apply Hg. lia.
Qed.
End engine_facts.

Section derivative_facts.
Context {X : Type} `{ChartX : Chart X} {Y : Type} `{ChartY : Chart Y}.

Lemma vscale_factor (v : Vector) (delta : double) :
  delta ≠ 0%Qc →
  vscale v (1 / (2 * delta))%Qc = (λ c, c / (2 * delta))%Qc <$> v.
Proof.
  intros Hdelta. unfold vscale. apply list_fmap_ext. intros _ c _.
  field. split; [exact Hdelta|discriminate].
Qed.

Lemma numericalDerivative11_loop (h : X → Y) (x : X) (delta : double)
    (m n : nat) :
  delta ≠ 0%Qc →
  (n ≤ dimension X)%nat →
  let hx := h x in
  let body := λ (j : nat) '(dx, H),
    let dx := <[j := delta]> dx in
    let dy1 := local hx (h (retract x dx)) in
    let dx := <[j := (- delta)%Qc]> dx in
    let dy2 := local hx (h (retract x dx)) in
    let dx := <[j := 0%Qc]> dx in
    (dx, set_col H j (vscale (vsub dy1 dy2) (1 / (2 * delta))%Qc)) in
  let s := for_loop n body (zero (dimension X), zeros m (dimension X)) in
  s.1 = zero (dimension X) ∧
  rows s.2 = m ∧
  cols s.2 = dimension X ∧
  (∀ j, (j < n)%nat →
     col s.2 j = Some (central_difference_column h x delta j)) ∧
  (∀ j, (n ≤ j < dimension X)%nat → col s.2 j = Some (zero m)).
Proof.
  intros Hdelta Hn hx body. cbv zeta.
  apply (for_loop_inv (λ k s,
    (k ≤ n)%nat →
    s.1 = zero (dimension X) ∧ rows s.2 = m ∧ cols s.2 = dimension X ∧
    (∀ j, (j < k)%nat →
       col s.2 j = Some (central_difference_column h x delta j)) ∧
    (∀ j, (k ≤ j < dimension X)%nat → col s.2 j = Some (zero m))));
    [| |lia].
  - intros _. unfold cols. cbn [fst snd zeros rows columns].
    rewrite length_replicate. repeat split; try reflexivity.
    + intros j Hj. lia.
    + intros j Hj. unfold col. cbn. apply lookup_replicate_2. lia.
  - intros k [dx H] Hk IH Hle.
    destruct IH as (Hdx & Hrows & Hcols & Hdone & Htodo); [lia|].
    cbn [fst snd] in Hdx, Hrows, Hcols, Hdone, Htodo. subst dx.
    unfold body. cbn [fst snd].
    split; [apply tangent_restored|].
    split; [exact Hrows|].
    split; [unfold cols, set_col; cbn; rewrite length_insert; exact Hcols|].
    unfold cols in Hcols. split.
    + intros j Hj. unfold col, set_col. cbn [columns].
      destruct (decide (j = k)) as [->|Hne].
      * rewrite list_lookup_insert_eq by lia. f_equal.
        rewrite list_insert_insert_eq, !insert_zero_basis.
        rewrite vscale_factor by exact Hdelta. reflexivity.
      * rewrite list_lookup_insert_ne by congruence. apply Hdone. lia.
    + intros j Hj. unfold col, set_col. cbn [columns].
      rewrite list_lookup_insert_ne by lia. apply Htodo. lia.
Qed.

Lemma numericalDerivative11_columns (h : X → Y) (x : X) (delta : double) :
  delta ≠ 0%Qc →
  let H := numericalDerivative11 h x delta in
  rows H = length (local (h x) (h x)) ∧
  cols H = dimension X ∧
  ∀ j, (j < dimension X)%nat →
    col H j = Some (central_difference_column h x delta j).
Proof.
  intros Hdelta H.
  destruct (numericalDerivative11_loop h x delta
              (length (local (h x) (h x))) (dimension X) Hdelta
              ltac:(reflexivity)) as (_ & Hrows & Hcols & Hdone & _).
  repeat split; assumption.
Qed.
End derivative_facts.

(** *** Linear functions of Euclidean vectors *)

Lemma length_vadd (a b : Vector) :
  length a = length b → length (vadd a b) = length a.
Proof. intros Hlen. unfold vadd. rewrite length_zip_with. lia. Qed.

Lemma length_vscale (v : Vector) (c : double) : length (vscale v c) = length v.
Proof. apply length_fmap. Qed.

Lemma vadd_zero_r (v : Vector) : vadd v (zero (length v)) = v.
Proof.
  induction v as [|a v IH]; [reflexivity|]. cbn. f_equal; [ring|exact IH].
Qed.

Lemma vadd_zero_l (v : Vector) : vadd (zero (length v)) v = v.
Proof.
  induction v as [|a v IH]; [reflexivity|]. cbn. f_equal; [ring|exact IH].
Qed.

Lemma vscale_zero (v : Vector) : vscale v 0%Qc = zero (length v).
Proof.
  induction v as [|a v IH]; [reflexivity|]. cbn. f_equal; [ring|exact IH].
Qed.

Lemma lincomb_length (m : nat) (cs : list Vector) (x : Vector) :
  Forall (λ c, length c = m) cs → length (lincomb m cs x) = m.
Proof.
  intros Hcs. revert x. induction Hcs as [|c cs Hc Hcs IH]; intros x.
  - apply length_zero.
  - destruct x as [|xi x]; [apply length_zero|]. cbn.
    rewrite length_vadd; rewrite length_vscale; [exact Hc|].
    rewrite IH. exact Hc.
Qed.

Lemma lincomb_zero (m : nat) (cs : list Vector) (n : nat) :
  Forall (λ c, length c = m) cs → lincomb m cs (zero n) = zero m.
Proof.
  intros Hcs. revert n. induction Hcs as [|c cs Hc Hcs IH]; intros n.
  - reflexivity.
  - destruct n as [|n]; [reflexivity|]. cbn. fold (zero n).
    rewrite IH, vscale_zero, Hc. rewrite <- (length_zero m) at 1.
    apply vadd_zero_l.
Qed.

Lemma basis_0 (n : nat) (c : double) : basis (S n) 0 c = c :: zero n.
Proof. rewrite <- insert_zero_basis. reflexivity. Qed.

Lemma basis_S (n j : nat) (c : double) :
  basis (S n) (S j) c = 0%Qc :: basis n j c.
Proof. rewrite <- !insert_zero_basis. reflexivity. Qed.

(** [A * (c e_j)] is [c] times column [j] of [A]. *)
Lemma lincomb_basis (m : nat) (cs : list Vector) (j : nat) (c : double)
    (cj : Vector) :
  Forall (λ c, length c = m) cs →
  cs !! j = Some cj →
  lincomb m cs (basis (length cs) j c) = vscale cj c.
Proof.
  intros Hcs. revert j. induction Hcs as [|c0 cs Hc Hcs IH]; intros j Hj.
  - discriminate.
  - destruct j as [|j]; cbn [length].
    + injection Hj as ->. rewrite basis_0. cbn.
      rewrite lincomb_zero by exact Hcs.
      rewrite <- Hc, <- (length_vscale cj c). apply vadd_zero_r.
    + rewrite basis_S. cbn. rewrite (IH j Hj), vscale_zero, Hc.
      assert (Hlen : length (vscale cj c) = m).
      { rewrite length_vscale.
        exact (proj1 (Forall_lookup _ _) Hcs j cj Hj). }
      rewrite <- Hlen. apply vadd_zero_l.
Qed.

(** Four vectors of one length: [(a + b) + (c + d) = (a + c) + (b + d)]. *)
Lemma vadd_interchange (a b c d : Vector) :
  length b = length a → length c = length a → length d = length a →
  vadd (vadd a b) (vadd c d) = vadd (vadd a c) (vadd b d).
Proof.
  revert b c d.
  induction a as [|a0 a IH]; intros [|b0 b] [|c0 c] [|d0 d] Hb Hc Hd;
    try discriminate; [reflexivity|].
  cbn in *. f_equal; [ring|]. apply IH; lia.
Qed.

Lemma vscale_plus (v : Vector) (a b : double) :
  vscale v (a + b)%Qc = vadd (vscale v a) (vscale v b).
Proof.
  induction v as [|c v IH]; [reflexivity|]. cbn. f_equal; [ring|exact IH].
Qed.

(** [A * (x + d) = A * x + A * d]. *)
Lemma lincomb_vadd (m : nat) (cs : list Vector) (x d : Vector) :
  Forall (λ c, length c = m) cs →
  length x = length d →
  lincomb m cs (vadd x d) = vadd (lincomb m cs x) (lincomb m cs d).
Proof.
  intros Hcs. revert x d.
  induction Hcs as [|c cs Hc Hcs IH]; intros x d Hlen.
  - cbn. rewrite <- (length_zero m) at 3. symmetry. apply vadd_zero_r.
  - destruct x as [|xi x], d as [|di d]; try discriminate.
    + cbn. rewrite <- (length_zero m) at 3. symmetry. apply vadd_zero_r.
    + cbn. rewrite IH by (cbn in Hlen; lia). rewrite vscale_plus.
      apply vadd_interchange; rewrite ?length_vscale, ?lincomb_length;
        auto.
Qed.

(** The central difference of an affine map recovers the direction. *)
Lemma central_difference_affine (p c : Vector) (delta : double) :
  delta ≠ 0%Qc →
  length c = length p →
  (λ a, a / (2 * delta))%Qc <$>
    vsub (vsub (vadd p (vscale c delta)) p)
         (vsub (vadd p (vscale c (- delta)%Qc)) p) = c.
Proof.
  intros Hdelta. revert c.
  induction p as [|p0 p IH]; intros [|c0 c] Hlen; try discriminate;
    [reflexivity|].
  cbn. f_equal.
  - field. split; [exact Hdelta|discriminate].
  - apply IH. cbn in Hlen. lia.
Qed.

Lemma numericalDerivative11_linear (A : Matrix) (x : Vector) (delta : double) :
  delta ≠ 0%Qc →
  wf_matrix A →
  length x = cols A →
  numericalDerivative11 (ChartX := EuclideanChart (cols A))
    (ChartY := EuclideanChart (rows A)) (mat_vec A) x delta = A.
Proof.
  intros Hdelta Hwf Hx.
  pose proof (numericalDerivative11_columns (ChartX := EuclideanChart (cols A))
    (ChartY := EuclideanChart (rows A)) (mat_vec A) x delta Hdelta)
    as (Hrows & Hcols & Hcol).
  cbn [dimension EuclideanChart local] in Hrows, Hcols, Hcol.
  set (H := numericalDerivative11 _ _ _) in *.
  assert (HAx : length (mat_vec A x) = rows A)
    by (apply lincomb_length; exact Hwf).
  destruct H as [r cs], A as [m csA].
  unfold cols, col in Hcols, Hcol, Hx. cbn [rows columns] in *.
  f_equal.
  - rewrite Hrows. unfold vsub. rewrite length_zip_with. lia.
  - apply list_eq. intros j.
    destruct (decide (j < length csA)%nat) as [Hj|Hj].
    + rewrite (Hcol j Hj).
      destruct (lookup_lt_is_Some_2 csA j Hj) as [cj Hcj]. rewrite Hcj.
      f_equal. unfold central_difference_column.
      cbn [dimension EuclideanChart local retract]. unfold mat_vec, cols.
      cbn [rows columns].
      rewrite !lincomb_vadd
        by first [exact Hwf | rewrite length_basis; exact Hx].
      rewrite !(lincomb_basis m csA j _ cj) by assumption.
      apply central_difference_affine; [exact Hdelta|].
      rewrite lincomb_length by exact Hwf.
      exact (proj1 (Forall_lookup _ _) Hwf j cj Hcj).
    + rewrite !lookup_ge_None_2; [reflexivity|lia|lia].
Qed.

(** ** The finite-difference engine: results *)

(** C7. For a scalar function [h] of one manifold argument [x] with tangent
    dimension [N] and a nonzero step [delta], [numericalGradient h x delta]
    is a vector of length [N] whose [j]-th component is
    [(h(retract(x, +delta e_j)) - h(retract(x, -delta e_j))) / (2 delta)];
    each of the two perturbations is along coordinate [j] only. *)
Theorem numericalGradient_central_difference {X : Type} `{Chart X}
    (h : X → double) (x : X) (delta : double) :
  delta ≠ 0%Qc →
  length (numericalGradient h x delta) = dimension X ∧
  ∀ j, (j < dimension X)%nat →
    numericalGradient h x delta !! j = Some (central_difference h x delta j).
Proof.
  intros Hdelta.
  destruct (numericalGradient_loop h x delta (dimension X) Hdelta
              ltac:(reflexivity)) as (_ & Hlen & Hg).
  split; [exact Hlen|exact Hg].
Qed.

(** The gradient of [h(a, b) = a * a + 2 * b] at [(1, 2)] with step [1]. *)
Lemma numericalGradient_central_difference_witness :
  let h := λ v : Vector,
    (default 0 (v !! 0%nat) * default 0 (v !! 0%nat)
     + 2 * default 0 (v !! 1%nat))%Qc in
  let x := [1; 2]%Qc in
  length (numericalGradient (ChartX := EuclideanChart 2) h x 1%Qc) = 2%nat ∧
  ∀ j, (j < 2)%nat →
    numericalGradient (ChartX := EuclideanChart 2) h x 1%Qc !! j
    = Some (central_difference (ChartX := EuclideanChart 2) h x 1%Qc j).
Proof.
  intros h x.
  apply (numericalGradient_central_difference (H := EuclideanChart 2) h x 1%Qc).
  discriminate.
Defined.

(** C6. For a manifold-valued function [h : X → Y] with input tangent
    dimension [N] and output tangent dimension [M], a base point [x] and a
    nonzero step [delta], [numericalDerivative11 h x delta] is the [M]-by-[N]
    matrix whose column [j] is
    [(local(y0, h(retract(x, +delta e_j))) - local(y0, h(retract(x, -delta e_j)))) / (2 delta)]
    with [y0 = h x]; and for [h(v) = A * v] with the trivial Euclidean chart
    the result is [A] itself, whatever the base point [v]. *)
Theorem numericalDerivative11_central_difference {X Y : Type}
    `{Chart X} `{Chart Y} (h : X → Y) (x : X) (A : Matrix) (v : Vector)
    (delta : double) :
  delta ≠ 0%Qc →
  output_dimension h x (dimension Y) →
  wf_matrix A →
  length v = cols A →
  (rows (numericalDerivative11 h x delta) = dimension Y ∧
   cols (numericalDerivative11 h x delta) = dimension X ∧
   ∀ j, (j < dimension X)%nat →
     col (numericalDerivative11 h x delta) j
     = Some (central_difference_column h x delta j)) ∧
  numericalDerivative11 (ChartX := EuclideanChart (cols A))
    (ChartY := EuclideanChart (rows A)) (mat_vec A) v delta = A.
Proof.
  intros Hdelta HM Hwf Hv. split.
  - destruct (numericalDerivative11_columns h x delta Hdelta)
      as (Hrows & Hcols & Hcol).
    rewrite (HM x) in Hrows. repeat split; assumption.
  - apply numericalDerivative11_linear; assumption.
Qed.

(** The Jacobian of [v ↦ A v] for a 2-by-2 matrix [A], at [(1, 2)] with
    step [2]. *)
Lemma numericalDerivative11_central_difference_witness :
  let A := mkMatrix 2 [[1; 2]; [0; 1]]%Qc in
  let v := [1; 2]%Qc in
  (rows (numericalDerivative11 (ChartX := EuclideanChart 2)
           (ChartY := EuclideanChart 2) (mat_vec A) v 2%Qc) = 2%nat ∧
   cols (numericalDerivative11 (ChartX := EuclideanChart 2)
           (ChartY := EuclideanChart 2) (mat_vec A) v 2%Qc) = 2%nat ∧
   ∀ j, (j < 2)%nat →
     col (numericalDerivative11 (ChartX := EuclideanChart 2)
            (ChartY := EuclideanChart 2) (mat_vec A) v 2%Qc) j
     = Some (central_difference_column (ChartX := EuclideanChart 2)
               (ChartY := EuclideanChart 2) (mat_vec A) v 2%Qc j)) ∧
  numericalDerivative11 (ChartX := EuclideanChart 2)
    (ChartY := EuclideanChart 2) (mat_vec A) v 2%Qc = A.
Proof.
  intros A v.
  apply (numericalDerivative11_central_difference (H := EuclideanChart 2)
           (H0 := EuclideanChart 2) (mat_vec A) v A v 2%Qc).
  - discriminate.
  - intros x'. cbn [local EuclideanChart dimension]. unfold vsub.
    rewrite length_zip_with. unfold mat_vec, A. cbn [rows columns].
    rewrite !(lincomb_length 2) by (repeat constructor). reflexivity.
  - repeat constructor.
  - reflexivity.
Defined.

(** ** The analytic-derivative factor: results *)

Lemma JacobianMap_add_blockDims (Ab : VerticalBlockMatrix) (Js : list Matrix) :
  blockDims (JacobianMap_add Ab Js) = blockDims Ab.
Proof.
  unfold JacobianMap_add. generalize (imap pair Js). intros l. revert Ab.
  induction l as [|[i J] l IH]; intros Ab; [reflexivity|].
  cbn [foldl]. rewrite IH. reflexivity.
Qed.

Section expression_factor_facts.
Context {Value : Type} `{GV : GenericValue Value}.
Context {NM : Type} `{NMI : NoiseModel NM}.
Context {T : Type} `{ChartT : Chart T}.

Implicit Types this : ExpressionFactor (Value := Value) (NM := NM) (T := T).

Lemma linearize_inactive this x :
  active this x = false → linearize this x = Return None.
Proof. intros Hact. unfold linearize. rewrite Hact. reflexivity. Qed.

(** On an active, initialized factor [linearize] whitens the assembled
    system with the factor's own noise model. *)
Lemma linearize_active this x nm e :
  initialized this nm e →
  active this x = true →
  linearize this x
  = whitened_system this x nm
      (if isConstrained nm then Some (Constrained_unit nm) else None).
Proof.
  intros [Hnm He] Hact.
  unfold linearize, whitened_system, unwhitened_system.
  rewrite Hact, Hnm, He. cbn.
  destruct (valueAndJacobianMap e x (keys_ this)) as [[v Js]|ex];
    [|reflexivity].
  cbn. unfold jf_size, cols, rhs_column. cbn.
  rewrite length_replicate.
  destruct (WhitenSystem nm _ _) as [M b] eqn:HW. cbn. reflexivity.
Qed.

Lemma initialize_result this e :
  initialize this e =
  match noiseModel_ this with
  | None => Throw (invalid_argument "ExpressionFactor: no NoiseModel.")
  | Some nm =>
      if decide (nm_dim nm = Dim) then
        Return {| keys_ := (keysAndDims e).1;
                  noiseModel_ := Some nm;
                  active := active this;
                  measured_ := measured_ this;
                  expression_ := Some e;
                  dims_ := (keysAndDims e).2 |}
      else
        Throw (invalid_argument
          "ExpressionFactor was created with a NoiseModel of incorrect dimension.")
  end.
Proof.
  unfold initialize. destruct (noiseModel_ this) as [nm|]; [|reflexivity].
  destruct (keysAndDims e) as [keys dims]. cbn.
  destruct (decide (nm_dim nm = Dim)) as [Heq|Hne].
  - rewrite bool_decide_eq_true_2 by exact Heq. reflexivity.
  - rewrite bool_decide_eq_false_2 by exact Hne. reflexivity.
Qed.
End expression_factor_facts.

Section construction.
Context {Value : Type} `{GV : GenericValue Value}.
Context {NM : Type} `{NMI : NoiseModel NM}.
Context {T : Type} `{ChartT : Chart T}.

Lemma initialize_throws_iff
    (this : ExpressionFactor (Value := Value) (NM := NM) (T := T)) e :
  (∃ what, initialize this e = Throw (invalid_argument what))
  ↔ misconfigured (noiseModel_ this).
Proof.
  rewrite initialize_result. unfold misconfigured.
  destruct (noiseModel_ this) as [nm|].
  - destruct (decide (nm_dim nm = Dim)) as [Heq|Hne]; split.
    + intros [what Hthrow]. discriminate.
    + intros [Hnone|(nm' & Hsome & Hne)]; [discriminate|].
      injection Hsome as <-. contradiction.
    + intros _. right. exists nm. split; [reflexivity|exact Hne].
    + intros _. eexists. reflexivity.
  - split; [intros _; left; reflexivity|intros _; eexists; reflexivity].
Qed.

Lemma initialize_succeeds
    (this : ExpressionFactor (Value := Value) (NM := NM) (T := T)) e nm :
  noiseModel_ this = Some nm → nm_dim nm = Dim →
  ∃ this', initialize this e = Return this' ∧ initialized this' nm e ∧
    measured_ this' = measured_ this ∧
    (keys_ this', dims_ this') = keysAndDims e.
Proof.
  intros Hnm Hdim. rewrite initialize_result, Hnm.
  rewrite decide_True by exact Hdim. eexists. split; [reflexivity|].
  cbn. repeat split. destruct (keysAndDims e); reflexivity.
Qed.
End construction.

(** C2 (as the code has it). The public constructor
    [ExpressionFactor(noiseModel, measurement, expression)] throws
    [std::invalid_argument] at construction exactly when no noise model is
    supplied or the noise model's dimension differs from the factor's
    output dimension, and otherwise succeeds with an initialized factor.
    The constructor of [ExpressionFactor2] checks nothing and succeeds for
    every noise model, leaving the expression unset; the same two checks
    run in the call of [initialize] that has to follow. *)
Theorem construction_checks {Value NM T : Type} `{NoiseModel NM} `{Chart T}
    (noiseModel : option NM) (z : T) (e : Expression Value T)
    (key1 key2 : Key) :
  ((∃ what, ExpressionFactor_new noiseModel z e = Throw (invalid_argument what))
   ↔ misconfigured (T := T) noiseModel) ∧
  (∀ nm, noiseModel = Some nm → nm_dim nm = Dim (T := T) →
     ∃ this, ExpressionFactor_new noiseModel z e = Return this ∧
       initialized this nm e ∧ measured_ this = z ∧
       (keys_ this, dims_ this) = keysAndDims e) ∧
  (∃ this, ExpressionFactor2_new (Value := Value) key1 key2 noiseModel z
           = Return this ∧
     keys_ this = [key1; key2] ∧ noiseModel_ this = noiseModel ∧
     expression_ this = None ∧
     ((∃ what, initialize this e = Throw (invalid_argument what))
      ↔ misconfigured (T := T) noiseModel) ∧
     (∀ nm, noiseModel = Some nm → nm_dim nm = Dim (T := T) →
        ∃ this', initialize this e = Return this' ∧ initialized this' nm e)).
Proof.
  split; [|split].
  - apply (initialize_throws_iff
             (ExpressionFactor_uninitialized noiseModel z) e).
  - intros nm Hnm Hdim.
    destruct (initialize_succeeds
                (ExpressionFactor_uninitialized noiseModel z) e nm Hnm Hdim)
      as (this & Hinit & Hok & Hz & Hkeys).
    exists this. repeat split; try assumption; apply Hok.
  - set (this := {| keys_ := [key1; key2]; noiseModel_ := noiseModel;
                    active := λ _ : gmap Key Value, true; measured_ := z;
                    expression_ := None; dims_ := [] |}).
    exists this. split; [reflexivity|].
    split; [reflexivity|]. split; [reflexivity|]. split; [reflexivity|].
    split.
    + apply (initialize_throws_iff this e).
    + intros nm Hnm Hdim.
      destruct (initialize_succeeds this e nm Hnm Hdim)
        as (this' & Hinit & Hok & _).
      exists this'. split; [exact Hinit|exact Hok].
Qed.

(** C2 (as stated) fails: through the [ExpressionFactor2] constructor a
    factor without a noise model is constructed and nothing is thrown. *)
Lemma ExpressionFactor2_new_without_noise_model :
  ¬ ∃ ex, ExpressionFactor2_new (Value := Vector) (NM := DiagonalModel)
            (T := Vector) 1%N 2%N None [0%Qc] = Throw ex.
Proof. intros [ex Hthrow]. discriminate. Qed.

(** C3 (as the code has it). On an active factor [linearize] whitens the
    whole assembled system, Jacobian blocks and right-hand side column
    alike, with the factor's own noise model, also when that model is
    constrained; the unit model obtained from a constrained noise model
    does no whitening: it is the noise model the returned system
    carries. *)
Theorem linearize_whitens_with_own_model {Value NM T : Type} `{NoiseModel NM}
    `{Chart T} (this : ExpressionFactor (Value := Value) (NM := NM) (T := T))
    (x : gmap Key Value) (nm : NM) (e : Expression Value T)
    (Ab : VerticalBlockMatrix) :
  initialized this nm e →
  active this x = true →
  unwhitened_system this x = Return Ab →
  ∃ jf, linearize this x = Return (Some jf) ∧
    jf_keys jf = keys_ this ∧
    blockDims (jf_Ab jf) = blockDims Ab ∧
    matrix (jf_Ab jf)
    = (WhitenSystem nm (matrix Ab) (rhs_column Ab (factor_size this))).1 ∧
    jf_model jf
    = (if isConstrained nm then Some (Constrained_unit nm) else None).
Proof.
  intros Hinit Hact HAb.
  rewrite (linearize_active this x nm e Hinit Hact).
  unfold whitened_system. rewrite HAb. cbn.
  eexists. split; [reflexivity|]. cbn. repeat split.
Qed.

(** A factor on a scalar variable with a constrained noise model of sigma
    one half: the stored Jacobian is 2, not the 1 the unit model gives. *)
Lemma linearize_whitens_with_own_model_witness :
  let nm := Constrained [(1 / 2)%Qc] in
  let this := {| keys_ := [7%N]; noiseModel_ := Some nm;
                 active := λ _ : gmap Key Vector, true;
                 measured_ := [1%Qc];
                 expression_ := Some (Leaf 1 7%N); dims_ := [1%nat] |} in
  ∃ jf, linearize (ChartT := EuclideanChart 1) this {[ 7%N := [2%Qc] ]}
        = Return (Some jf) ∧
    matrix (jf_Ab jf) = mkMatrix 1 [[2%Qc]; [(- (2))%Qc]] ∧
    jf_model jf = Some (Constrained [1%Qc]).
Proof.
  intros nm this.
  destruct (linearize_whitens_with_own_model (H0 := EuclideanChart 1) this
              {[ 7%N := [2%Qc] ]} nm (Leaf 1 7%N)
              (mkVBM [1; 1]%nat (mkMatrix 1 [[1%Qc]; [(- (1))%Qc]])))
    as (jf & Hlin & _ & _ & HM & Hmodel).
  - split; reflexivity.
  - reflexivity.
  - by_compute.
  - exists jf. split; [exact Hlin|]. split.
    + rewrite HM. by_compute.
    + rewrite Hmodel. by_compute.
Defined.

(** C3 (as stated) fails: with a constrained noise model the system is not
    the one whitened by the unit model. *)
Lemma linearize_not_whitened_by_unit_model :
  ¬ whitens_with_unit_model (ChartT := EuclideanChart 1)
      {| keys_ := [7%N]; noiseModel_ := Some (Constrained [(1 / 2)%Qc]);
         active := λ _ : gmap Key Vector, true;
         measured_ := [1%Qc];
         expression_ := Some (Leaf 1 7%N); dims_ := [1%nat] |}
      {[ 7%N := [2%Qc] ]}.
Proof.
  intros Hunit.
  specialize (Hunit (Constrained [(1 / 2)%Qc]) eq_refl eq_refl eq_refl).
  revert Hunit. by_compute.
Qed.

Section evaluateError_facts.
Context {Value : Type} `{GV : GenericValue Value}.
Context {NM : Type} `{NMI : NoiseModel NM}.
Context {T : Type} `{ChartT : Chart T}.
Context {A1 A2 : Type} (wrap1 : A1 → Value) (wrap2 : A2 → Value).

(** The assignment [evaluateError] builds. *)
Lemma evaluateError_unfold
    (this : ExpressionFactor (Value := Value) (NM := NM) (T := T))
    (key1 key2 : Key) (a1 : A1) (a2 : A2) (H1 H2 : option Matrix) :
  keys_ this = [key1; key2] → key1 ≠ key2 →
  evaluateError wrap1 wrap2 this a1 a2 H1 H2
  = '(error, H) ← unwhitenedError this
        (<[key2 := wrap2 a2]> (<[key1 := wrap1 a1]> ∅))
        (Some [zeros 0 0; zeros 0 0]);
    H ← deref H;
    H1 ← match H1 with
         | Some _ => h0 ← at_index H 0; Return (Some h0)
         | None => Return None
         end;
    H2 ← match H2 with
         | Some _ => h1 ← at_index H 1; Return (Some h1)
         | None => Return None
         end;
    Return (error, H1, H2).
Proof.
  intros Hkeys Hne. unfold evaluateError. rewrite Hkeys. cbn.
  unfold Values_insert. rewrite lookup_empty. cbn.
  rewrite lookup_insert_ne by exact Hne. rewrite lookup_empty. cbn.
  reflexivity.
Qed.
End evaluateError_facts.

(** C10. For typed arguments [a1] and [a2], [evaluateError] builds a fresh
    assignment with exactly two entries, the factor's first key bound to
    [a1] and its second key to [a2]; it returns the error vector
    [unwhitenedError] produces on that assignment; and it always hands
    [unwhitenedError] a vector for the Jacobian blocks, so the expression
    is asked for the value together with both blocks, also when neither
    [H1] nor [H2] is supplied. *)
Theorem evaluateError_fresh_assignment {Value NM T A1 A2 : Type}
    `{NoiseModel NM} `{Chart T} (wrap1 : A1 → Value) (wrap2 : A2 → Value)
    (this : ExpressionFactor (Value := Value) (NM := NM) (T := T))
    (e : Expression Value T) (key1 key2 : Key) (a1 : A1) (a2 : A2)
    (H1 H2 : option Matrix) :
  expression_ this = Some e →
  keys_ this = [key1; key2] →
  key1 ≠ key2 →
  let values : gmap Key Value :=
    <[key2 := wrap2 a2]> (<[key1 := wrap1 a1]> ∅) in
  (size values = 2%nat ∧ values !! key1 = Some (wrap1 a1) ∧
   values !! key2 = Some (wrap2 a2)) ∧
  evaluateError wrap1 wrap2 this a1 a2 None None
  = (λ r, (r.1, None, None))
      <$> unwhitenedError this values (Some [zeros 0 0; zeros 0 0]) ∧
  match valueAndDerivatives e values [key1; key2] (dims_ this) with
  | Throw ex => evaluateError wrap1 wrap2 this a1 a2 H1 H2 = Throw ex
  | Return (v, Hs) =>
      length Hs = 2%nat →
      evaluateError wrap1 wrap2 this a1 a2 H1 H2
      = Return (local (measured_ this) v,
                H1 ≫= (λ _, Hs !! 0%nat), H2 ≫= (λ _, Hs !! 1%nat))
  end.
Proof.
  intros He Hkeys Hne values. split; [|split].
  - subst values. split.
    + rewrite !map_size_insert_None; [reflexivity|apply lookup_empty|].
      rewrite lookup_insert_ne by exact Hne. apply lookup_empty.
    + rewrite lookup_insert_ne by congruence.
      rewrite !lookup_insert_eq. split; reflexivity.
  - rewrite (evaluateError_unfold wrap1 wrap2 this key1 key2) by assumption.
    fold values.
    destruct (unwhitenedError this values _) as [[err [Hs|]]|ex] eqn:Herr;
      cbn; try reflexivity.
    unfold unwhitenedError in Herr. rewrite He in Herr. cbn in Herr.
    destruct (valueAndDerivatives e values (keys_ this) (dims_ this))
      as [[v Hs]|ex]; discriminate.
  - rewrite (evaluateError_unfold wrap1 wrap2 this key1 key2) by assumption.
    fold values. unfold unwhitenedError. rewrite He, Hkeys. cbn.
    destruct (valueAndDerivatives e values [key1; key2] (dims_ this))
      as [[v Hs]|ex]; [|reflexivity].
    intros Hlen. destruct Hs as [|h0 [|h1 [|? ?]]]; try discriminate.
    cbn. destruct H1, H2; reflexivity.
Qed.

(** A binary factor on two scalars whose expression is bound to keys 1 and
    2; neither output matrix is requested. *)
Lemma evaluateError_fresh_assignment_witness :
  let e : Expression Vector Vector := {|
    value x := Throw (runtime_error "value");
    valueAndDerivatives x _ _ :=
      a ← Values_at x 1%N; b ← Values_at x 2%N;
      Return (vsub a b, [identity 1; identity 1]);
    valueAndJacobianMap x _ := Throw (runtime_error "valueAndJacobianMap");
    keysAndDims := ([1%N; 2%N], [1%nat; 1%nat]) |} in
  let this := {| keys_ := [1%N; 2%N]; noiseModel_ := Some (Unit 1);
                 active := λ _ : gmap Key Vector, true;
                 measured_ := [0%Qc];
                 expression_ := Some e; dims_ := [1%nat; 1%nat] |} in
  evaluateError (ChartT := EuclideanChart 1) id id this [2%Qc] [1%Qc]
    None None
  = (λ r, (r.1, None, None))
      <$> unwhitenedError (ChartT := EuclideanChart 1) this
            (<[2%N := [1%Qc]]> (<[1%N := [2%Qc]]> ∅))
            (Some [zeros 0 0; zeros 0 0]).
Proof.
  intros e this.
  destruct (evaluateError_fresh_assignment (H0 := EuclideanChart 1) id id
              this e 1%N 2%N [2%Qc] [1%Qc] None None)
    as (_ & Hcall & _); [reflexivity|reflexivity|discriminate|].
  exact Hcall.
Defined.

(** *** Scenario 3: a factor measuring [h(x) = x] *)

Lemma length_identity_columns (n : nat) : length (columns (identity n)) = n.
Proof. cbn. rewrite length_fmap. apply length_seq. Qed.

Lemma identity_wf (n : nat) :
  Forall (λ c : Vector, length c = n) (columns (identity n)).
Proof.
  cbn. apply Forall_fmap, Forall_forall. intros j _. apply length_basis.
Qed.

Lemma zip_with_vadd_zeros (m : nat) (cs : list Vector) :
  Forall (λ c : Vector, length c = m) cs →
  zip_with vadd (replicate (length cs) (zero m)) cs = cs.
Proof.
  induction 1 as [|c cs Hc Hcs IH]; [reflexivity|].
  cbn [length replicate zip_with]. rewrite IH. f_equal.
  rewrite <- Hc. apply vadd_zero_l.
Qed.

Lemma vneg_vsub (a b : Vector) : vneg (vsub a b) = vsub b a.
Proof.
  revert b. induction a as [|a0 a IH]; intros [|b0 b]; try reflexivity.
  cbn. f_equal; [ring|apply IH].
Qed.

(** The system the expression [Leaf n key] assembles: the identity block
    followed by the right-hand side. *)
Lemma Leaf_unwhitened_system (n : nat) (key : Key) (z xv : Vector)
    (values : gmap Key Vector) (nm : option DiagonalModel)
    (act : gmap Key Vector → bool) :
  values !! key = Some xv →
  unwhitened_system (ChartT := EuclideanChart n)
    {| keys_ := [key]; noiseModel_ := nm; active := act; measured_ := z;
       expression_ := Some (Leaf n key); dims_ := [n] |} values
  = Return (mkVBM [n; 1%nat]
              (mkMatrix n (columns (identity n) ++ [vsub z xv]))).
Proof.
  intros Hx. unfold unwhitened_system.
  cbn [expression_ deref keys_ dims_ measured_ mbind result_bind Leaf
       valueAndJacobianMap].
  unfold Values_at. rewrite Hx.
  cbn [mbind result_bind mret result_ret]. f_equal.
  unfold JacobianMap_add. cbn [imap foldl app].
  unfold set_block_col0, set_block, block, offset, set_col, madd, zeros, Dim,
    factor_size.
  cbn [keys_ blockDims matrix rows columns lookup list_lookup default take
       sum_list sum_list_with dimension EuclideanChart local length
       Nat.add drop app].
  change (id n) with n. rewrite Nat.add_0_r.
  rewrite !take_replicate, !drop_replicate, take_replicate.
  rewrite Nat.sub_0_r, Nat.min_0_l. cbn [replicate app].
  replace (n `min` (n + 1))%nat with (length (columns (identity n)))
    by (rewrite length_identity_columns; lia).
  rewrite zip_with_vadd_zeros by apply identity_wf.
  rewrite (take_ge (columns (identity n)) n)
    by (rewrite length_identity_columns; lia).
  replace (n + 1 - n)%nat with 1%nat by lia.
  cbn [replicate]. f_equal. f_equal.
  rewrite insert_app_r_alt by (rewrite length_identity_columns; lia).
  rewrite length_identity_columns, Nat.sub_diag. cbn [insert list_insert].
  rewrite vneg_vsub. reflexivity.
Qed.

Lemma Leaf_linearize (n : nat) (key : Key) (z xv : Vector)
    (values : gmap Key Vector) :
  values !! key = Some xv →
  linearize (ChartT := EuclideanChart n)
    {| keys_ := [key]; noiseModel_ := Some (Unit n); active := λ _, true;
       measured_ := z; expression_ := Some (Leaf n key); dims_ := [n] |}
    values
  = Return (Some (mkJacobianFactor [key]
      (mkVBM [n; 1%nat] (mkMatrix n (columns (identity n) ++ [vsub z xv])))
      None)).
Proof.
  intros Hx.
  rewrite (linearize_active _ values (Unit n) (Leaf n key))
    by (try split; reflexivity).
  unfold whitened_system. rewrite (Leaf_unwhitened_system n key z xv) by exact Hx.
  cbn. rewrite list_fmap_id. reflexivity.
Qed.

(** C8. For every assignment, [unwhitenedError] is
    [local(measurement, predicted value)], the predicted value being the
    value of the bound expression at the assignment, with or without the
    Jacobians requested.  In particular, the factor measuring [h(x) = x]
    with the Euclidean chart, a unit noise model and measurement [z] has
    [unwhitenedError = x - z], and [linearize] returns a single Jacobian
    block equal to the identity with right-hand side [z - x]. *)
Theorem unwhitenedError_local_of_prediction {Value NM T : Type}
    `{NoiseModel NM} `{Chart T}
    (this : ExpressionFactor (Value := Value) (NM := NM) (T := T))
    (e : Expression Value T) (x : gmap Key Value) (H1 : list Matrix)
    (n : nat) (key : Key) (z xv : Vector) (values : gmap Key Vector) :
  expression_ this = Some e →
  values !! key = Some xv →
  (unwhitenedError this x None
   = (v ← value e x; Return (local (measured_ this) v, None)) ∧
   unwhitenedError this x (Some H1)
   = ('(v, Hs) ← valueAndDerivatives e x (keys_ this) (dims_ this);
      Return (local (measured_ this) v, Some Hs))) ∧
  ∃ f, ExpressionFactor_new (T := Vector) (ChartT := EuclideanChart n)
         (Some (Unit n)) z (Leaf n key) = Return f ∧
    unwhitenedError (ChartT := EuclideanChart n) f values None
    = Return (vsub xv z, None) ∧
    ∃ jf, linearize (ChartT := EuclideanChart n) f values = Return (Some jf) ∧
      jf_size jf = 1%nat ∧
      getA jf 0 = identity n ∧
      getb jf = vsub z xv.
Proof.
  intros He Hx. split.
  - unfold unwhitenedError. rewrite He. split; reflexivity.
  - eexists. split.
    + unfold ExpressionFactor_new. rewrite initialize_result.
      cbn [noiseModel_ ExpressionFactor_uninitialized nm_dim
           DiagonalModel_NoiseModel]. unfold Dim.
      cbn [dimension EuclideanChart]. rewrite decide_True by reflexivity.
      cbn [keysAndDims Leaf fst snd active measured_
           ExpressionFactor_uninitialized]. reflexivity.
    + split.
      * unfold unwhitenedError.
        cbn [expression_ deref mbind result_bind Leaf value measured_].
        unfold Values_at. rewrite Hx. reflexivity.
      * eexists. split; [apply Leaf_linearize; exact Hx|].
        split; [reflexivity|].
        unfold getA, getb, block, col, offset, jf_size.
        cbn [jf_Ab jf_keys blockDims matrix rows columns lookup list_lookup
             default take sum_list sum_list_with length drop Nat.add].
        rewrite Nat.add_0_r. split.
        -- unfold identity at 2. f_equal.
           rewrite <- (length_identity_columns n) at 1.
           apply take_app_length.
        -- rewrite <- (length_identity_columns n) at 1.
           rewrite list_lookup_middle by reflexivity. reflexivity.
Qed.

(** The factor of Scenario 3 on a two-dimensional variable, with
    measurement [(1, 2)] at [x = (2, 2)]. *)
Lemma unwhitenedError_local_of_prediction_witness :
  let this := {| keys_ := [7%N]; noiseModel_ := Some (Unit 2);
                 active := λ _ : gmap Key Vector, true;
                 measured_ := [1; 2]%Qc;
                 expression_ := Some (Leaf 2 7%N); dims_ := [2%nat] |} in
  let values : gmap Key Vector := {[ 7%N := [2; 2]%Qc ]} in
  ∃ f, ExpressionFactor_new (T := Vector) (ChartT := EuclideanChart 2)
         (Some (Unit 2)) [1; 2]%Qc (Leaf 2 7%N) = Return f ∧
    unwhitenedError (ChartT := EuclideanChart 2) f values None
    = Return (vsub [2; 2]%Qc [1; 2]%Qc, None) ∧
    ∃ jf, linearize (ChartT := EuclideanChart 2) f values = Return (Some jf) ∧
      jf_size jf = 1%nat ∧
      getA jf 0 = identity 2 ∧
      getb jf = vsub [1; 2]%Qc [2; 2]%Qc.
Proof.
  intros this values.
  apply (unwhitenedError_local_of_prediction (H0 := EuclideanChart 2) this
           (Leaf 2 7%N) values [] 2 7%N [1; 2]%Qc [2; 2]%Qc values);
    reflexivity.
Defined.

(** ** The linearization harness: results *)

(** A loop whose body returns at every step returns, and an invariant
    indexed by the elements already visited holds at the end. *)
Lemma foldM_inv {A S : Type} (P : list A → S → Prop)
    (body : A → S → result S) (l : list A) (s : S) :
  P [] s →
  (∀ pre a s', pre ++ [a] `prefix_of` l → P pre s' →
     ∃ s'', body a s' = Return s'' ∧ P (pre ++ [a]) s'') →
  ∃ s', foldM body l s = Return s' ∧ P l s'.
Proof.
  intros H0 Hstep.
  assert (Hgen : ∀ suf pre s0, pre ++ suf = l → P pre s0 →
            ∃ s', foldM body suf s0 = Return s' ∧ P l s').
  { induction suf as [|a suf IH]; intros pre s0 Hl HP.
    - rewrite app_nil_r in Hl. subst pre. exists s0. split; [reflexivity|exact HP].
    - destruct (Hstep pre a s0) as (s1 & Hbody & HP1).
      + exists suf. rewrite <- Hl, <- app_assoc. reflexivity.
      + exact HP.
      + cbn [foldM]. rewrite Hbody. cbn.
        apply (IH (pre ++ [a])); [|exact HP1].
        rewrite <- app_assoc. exact Hl. }
  apply (Hgen l [] s); [reflexivity|exact H0].
Qed.

Section harness_facts.
Context {Value : Type} `{GV : GenericValue Value} {NM : Type}.

Lemma dom_Values_retract (values : gmap Key Value) (dX : gmap Key Vector) :
  dom (Values_retract values dX) = dom values.
Proof.
  apply set_eq. intros k. rewrite !elem_of_dom. unfold Values_retract.
  rewrite map_lookup_imap. destruct (values !! k); cbn.
  - split; intros _; eexists; reflexivity.
  - split; intros [? ?]; discriminate.
Qed.

Lemma dom_zeroVectors (values : gmap Key Value) :
  dom (zeroVectors values) = dom values.
Proof. unfold zeroVectors. apply dom_fmap_L. Qed.

Lemma VectorValues_assign_ok (dX : gmap Key Vector) (key : Key)
    (dx : Vector) :
  key ∈ dom dX →
  VectorValues_assign dX key dx = Return (<[key := dx]> dX) ∧
  dom (<[key := dx]> dX) = dom dX.
Proof.
  intros Hkey. unfold VectorValues_assign.
  destruct (proj1 (elem_of_dom _ _) Hkey) as [d Hd]. rewrite Hd.
  split; [reflexivity|]. apply dom_insert_lookup_L. eexists. exact Hd.
Qed.

Lemma harness_column_ok (factor : FactorType Value NM)
    (values : gmap Key Value) (fd_step : double) (key : Key)
    (cols col : nat) (J : Matrix) (dX : gmap Key Vector) :
  evaluable factor values →
  dom dX = dom values → key ∈ dom values →
  ∃ J' dX', harness_column factor values fd_step key cols col (J, dX)
            = Return (J', dX') ∧ dom dX' = dom values.
Proof.
  intros Heval HdX Hkey. unfold harness_column.
  destruct (VectorValues_assign_ok dX key (<[col := fd_step]> (zero cols)))
    as [-> Hdom1]; [rewrite HdX; exact Hkey|]. cbn.
  destruct (Heval (Values_retract values
              (<[key := <[col := fd_step]> (zero cols)]> dX)))
    as [left ->]; [apply dom_Values_retract|]. cbn.
  destruct (VectorValues_assign_ok
              (<[key := <[col := fd_step]> (zero cols)]> dX) key
              (<[col := (- fd_step)%Qc]> (<[col := fd_step]> (zero cols))))
    as [-> Hdom2]; [rewrite Hdom1, HdX; exact Hkey|]. cbn.
  match goal with
  | |- context [factor_unwhitenedError factor ?x] =>
      destruct (Heval x) as [right ->]; [apply dom_Values_retract|]
  end.
  cbn. eexists _, _. split; [reflexivity|].
  rewrite Hdom2, Hdom1. exact HdX.
Qed.

Lemma harness_key_ok (factor : FactorType Value NM)
    (values : gmap Key Value) (fd_step : double) (rows : nat) (key : Key)
    (jacobians : list (Key * Matrix)) (dX : gmap Key Vector) :
  evaluable factor values →
  dom dX = dom values → key ∈ dom values →
  ∃ J dX', harness_key factor values fd_step rows key (jacobians, dX)
           = Return (map_assign key J jacobians, dX') ∧
    dom dX' = dom values.
Proof.
  intros Heval HdX Hkey. unfold harness_key, VectorValues_dim.
  destruct (proj1 (elem_of_dom dX key)) as [d Hd];
    [rewrite HdX; exact Hkey|].
  rewrite Hd. cbn. unfold for_loopM.
  destruct (foldM_inv (λ _ s, dom s.2 = dom values)
              (harness_column factor values fd_step key (length d))
              (seq 0 (length d)) (zeros rows (length d), dX))
    as ([J dX'] & -> & Hdom).
  - exact HdX.
  - intros pre col [J0 dX0] _ Hdom0.
    destruct (harness_column_ok factor values fd_step key (length d) col
                J0 dX0 Heval Hdom0 Hkey) as (J' & dX' & Hret & Hdom').
    exists (J', dX'). split; [exact Hret|exact Hdom'].
  - cbn. eexists _, _. split; [reflexivity|exact Hdom].
Qed.
End harness_facts.

(** *** The keys of a [std::map] filled key by key *)

Lemma map_assign_keys_elem {V : Type} (k : Key) (v : V)
    (m : list (Key * V)) (k' : Key) :
  k' ∈ (map_assign k v m).*1 ↔ k' = k ∨ k' ∈ m.*1.
Proof.
  induction m as [|[k0 v0] m IH]; cbn.
  - rewrite list_elem_of_singleton, elem_of_nil. tauto.
  - destruct (N.ltb_spec k k0) as [Hlt|Hge]; [cbn; rewrite !elem_of_cons; tauto|].
    destruct (N.eqb_spec k k0) as [->|Hne]; cbn.
    + rewrite !elem_of_cons. tauto.
    + rewrite !elem_of_cons, IH. tauto.
Qed.

Lemma map_assign_sorted {V : Type} (k : Key) (v : V) (m : list (Key * V)) :
  StronglySorted N.lt m.*1 → StronglySorted N.lt (map_assign k v m).*1.
Proof.
  induction m as [|[k0 v0] m IH]; intros Hs; cbn.
  - repeat constructor.
  - cbn in Hs. apply StronglySorted_inv in Hs as [Hs Hall].
    destruct (N.ltb_spec k k0) as [Hlt|Hge]; cbn.
    + constructor; [constructor; assumption|].
      constructor; [exact Hlt|].
      eapply Forall_impl; [exact Hall|]. intros; lia.
    + destruct (N.eqb_spec k k0) as [->|Hne]; cbn.
      * constructor; assumption.
      * constructor; [apply IH; exact Hs|].
        apply Forall_forall. intros k' Hk'.
        apply map_assign_keys_elem in Hk' as [->|Hk']; [lia|].
        exact (proj1 (Forall_forall _ _) Hall k' Hk').
Qed.

(** Assigning a key above every key of the map appends the entry. *)
Lemma map_assign_above {V : Type} (k : Key) (v : V) (m : list (Key * V)) :
  Forall (λ k', (k' < k)%N) m.*1 → map_assign k v m = m ++ [(k, v)].
Proof.
  induction m as [|[k0 v0] m IH]; intros Hall; [reflexivity|].
  cbn in Hall. apply Forall_cons in Hall as [Hk0 Hall]. cbn.
  destruct (N.ltb_spec k k0) as [Hlt|Hge]; [lia|].
  destruct (N.eqb_spec k k0) as [->|Hne]; [lia|].
  rewrite IH by exact Hall. reflexivity.
Qed.

Lemma prefix_of_seq (pre : list nat) (a n : nat) :
  pre ++ [a] `prefix_of` seq 0 n → a = length pre ∧ (a < n)%nat.
Proof.
  intros [suf Hseq].
  assert (Ha : seq 0 n !! length pre = Some a).
  { rewrite Hseq, <- app_assoc. apply list_lookup_middle. reflexivity. }
  apply lookup_seq in Ha as [Ha Hlt]. cbn in Ha. split; [congruence|lia].
Qed.

Section harness_columns.
Context {Value : Type} `{GV : GenericValue Value} {NM : Type}.

(** One iteration of the inner loop, started from a delta map that agrees
    with [dX0] away from [key]. *)
Lemma harness_column_spec (factor : FactorType Value NM)
    (values : gmap Key Value) (fd_step : double) (key : Key)
    (cols col : nat) (J : Matrix) (dX dX0 : gmap Key Vector) :
  fd_step ≠ 0%Qc →
  evaluable factor values →
  dom dX0 = dom values → key ∈ dom values →
  dom dX = dom values →
  (∀ dx, <[key := dx]> dX = <[key := dx]> dX0) →
  ∃ c dX',
    central_difference_around factor values fd_step dX0 key cols col
      = Return c ∧
    harness_column factor values fd_step key cols col (J, dX)
      = Return (set_col J col c, dX') ∧
    dom dX' = dom values ∧
    dX' = <[key := basis cols col (- fd_step)%Qc]> dX0.
Proof.
  intros Hfd Heval HdX0 Hkey HdX Hagree.
  assert (E1 : <[key := <[col := fd_step]> (zero cols)]> dX
               = <[key := basis cols col fd_step]> dX0)
    by (rewrite insert_zero_basis; apply Hagree).
  assert (E2 : <[key := <[col := (- fd_step)%Qc]>
                          (<[col := fd_step]> (zero cols))]>
                 (<[key := <[col := fd_step]> (zero cols)]> dX)
               = <[key := basis cols col (- fd_step)%Qc]> dX0).
  { rewrite insert_insert_eq, list_insert_insert_eq, insert_zero_basis.
    apply Hagree. }
  unfold harness_column, central_difference_around.
  destruct (VectorValues_assign_ok dX key (<[col := fd_step]> (zero cols)))
    as [-> Hdom1]; [rewrite HdX; exact Hkey|].
  cbn [mbind result_bind].
  destruct (VectorValues_assign_ok
              (<[key := <[col := fd_step]> (zero cols)]> dX) key
              (<[col := (- fd_step)%Qc]> (<[col := fd_step]> (zero cols))))
    as [-> Hdom2]; [rewrite Hdom1, HdX; exact Hkey|].
  rewrite Hdom1, HdX in Hdom2. rewrite E2 in *. rewrite E1.
  destruct (Heval (Values_retract values
              (<[key := basis cols col fd_step]> dX0)))
    as [left ->]; [apply dom_Values_retract|].
  cbn [mbind result_bind].
  destruct (Heval (Values_retract values
              (<[key := basis cols col (- fd_step)%Qc]> dX0)))
    as [right ->]; [apply dom_Values_retract|].
  cbn [mbind result_bind]. eexists _, _. split; [reflexivity|].
  split; [rewrite vscale_factor by exact Hfd; reflexivity|].
  split; [exact Hdom2|reflexivity].
Qed.

(** The inner loop fills every column of [J] with the central difference
    around [dX0], and leaves the last perturbation in the delta map. *)
Lemma harness_columns_loop (factor : FactorType Value NM)
    (values : gmap Key Value) (fd_step : double) (key : Key)
    (m cols : nat) (dX0 : gmap Key Vector) :
  fd_step ≠ 0%Qc →
  evaluable factor values →
  dom dX0 = dom values → key ∈ dom values →
  ∃ J dX',
    for_loopM cols (harness_column factor values fd_step key cols)
      (zeros m cols, dX0) = Return (J, dX') ∧
    rows J = m ∧ length (columns J) = cols ∧
    (∀ col, (col < cols)%nat →
       ∃ c, central_difference_around factor values fd_step dX0 key cols col
            = Return c ∧ columns J !! col = Some c) ∧
    dX' = match cols with
          | O => dX0
          | S n => <[key := basis cols n (- fd_step)%Qc]> dX0
          end.
Proof.
  intros Hfd Heval HdX0 Hkey. unfold for_loopM.
  destruct (foldM_inv (λ pre (s : Matrix * gmap Key Vector),
              dom s.2 = dom values ∧
              (∀ dx, <[key := dx]> s.2 = <[key := dx]> dX0) ∧
              rows s.1 = m ∧ length (columns s.1) = cols ∧
              (∀ col, (col < length pre)%nat →
                 ∃ c, central_difference_around factor values fd_step dX0
                        key cols col = Return c ∧
                      columns s.1 !! col = Some c) ∧
              s.2 = match length pre with
                    | O => dX0
                    | S n => <[key := basis cols n (- fd_step)%Qc]> dX0
                    end)
              (harness_column factor values fd_step key cols) (seq 0 cols)
              (zeros m cols, dX0))
    as ([J dX'] & Hret & _ & _ & Hrows & Hcols & Hcol & Hlast).
  - cbn. split; [exact HdX0|]. split; [reflexivity|]. split; [reflexivity|].
    split; [apply length_replicate|]. split; [|reflexivity].
    intros col Hcol. lia.
  - intros pre col [J dX] Hpre (Hdom & Hagree & Hrows & Hcols & Hcol & _).
    cbn [fst snd] in Hdom, Hagree, Hrows, Hcols, Hcol.
    apply prefix_of_seq in Hpre as [-> Hlt].
    destruct (harness_column_spec factor values fd_step key cols (length pre)
                J dX dX0 Hfd Heval HdX0 Hkey Hdom Hagree)
      as (c & dX' & Hc & Hstep & Hdom' & HdX').
    eexists. split; [exact Hstep|]. cbn [fst snd set_col rows columns].
    split; [exact Hdom'|].
    split; [intros dx; rewrite HdX'; apply insert_insert_eq|].
    split; [exact Hrows|]. split; [rewrite length_insert; exact Hcols|].
    rewrite length_app. cbn [length]. split.
    + intros col Hcol'. destruct (decide (col = length pre)) as [->|Hne].
      * exists c. split; [exact Hc|].
        apply list_lookup_insert_eq. lia.
      * rewrite list_lookup_insert_ne by congruence. apply Hcol. lia.
    + rewrite Nat.add_1_r. exact HdX'.
  - rewrite length_seq in Hcol, Hlast. exists J, dX'.
    repeat split; assumption.
Qed.

Lemma single_delta_insert (values : gmap Key Value) (key : Key) (v : Value)
    (col : nat) (c : double) :
  values !! key = Some v →
  <[key := basis (dim v) col c]> (zeroVectors values)
  = single_delta values key col c.
Proof.
  intros Hv. apply map_eq. intros k. unfold single_delta, zeroVectors.
  rewrite map_lookup_imap. destruct (decide (k = key)) as [->|Hne].
  - rewrite lookup_insert_eq, Hv. reflexivity.
  - rewrite lookup_insert_ne by congruence. rewrite lookup_fmap.
    destruct (values !! k); reflexivity.
Qed.

(** On a factor with a single key the harness returns the system of the
    specification: the right-hand side is [-e] and every column of the
    block is the central difference along that single coordinate. *)
Lemma harness_single_key (factor : FactorType Value NM)
    (values : gmap Key Value) (fd_step : double) (key : Key) (v : Value)
    (e : Vector) :
  fd_step ≠ 0%Qc →
  evaluable factor values →
  factor_keys factor = [key] →
  values !! key = Some v →
  factor_unwhitenedError factor values = Return e →
  ∃ jf, computeNumericalDerivativeJacobianFactor factor values fd_step
        = Return jf ∧
    jf_keys jf = [key] ∧
    getb jf = vneg e ∧
    rows (getA jf 0) = length e ∧
    cols (getA jf 0) = dim v ∧
    ∀ j, (j < dim v)%nat →
      ∃ c, harness_central_difference factor values fd_step key j = Return c ∧
           col (getA jf 0) j = Some c.
Proof.
  intros Hfd Heval Hkeys Hv He.
  assert (Hkey : key ∈ dom values) by (apply elem_of_dom; eexists; exact Hv).
  unfold computeNumericalDerivativeJacobianFactor.
  rewrite He, Hkeys. cbn [mbind result_bind foldM].
  assert (Hz : zeroVectors values !! key = Some (zero (dim v)))
    by (unfold zeroVectors; rewrite lookup_fmap, Hv; reflexivity).
  unfold harness_key at 1, VectorValues_dim. rewrite Hz.
  cbn [mbind result_bind]. rewrite length_zero.
  destruct (harness_columns_loop factor values fd_step key (length e) (dim v)
              (zeroVectors values) Hfd Heval (dom_zeroVectors values) Hkey)
    as (J & dX' & -> & Hrows & Hcols & Hcol & _).
  cbn [mbind result_bind map_assign]. eexists. split; [reflexivity|].
  unfold getA, getb, block, col, cols, offset, jf_size, JacobianFactor_of_terms, hcat.
  cbn [jf_keys jf_Ab blockDims matrix rows columns fmap list_fmap fst snd
       compose app length lookup list_lookup default take sum_list
       sum_list_with drop concat].
  unfold cols. rewrite app_nil_r, Nat.add_0_r.
  split; [reflexivity|].
  split; [rewrite list_lookup_middle by reflexivity; reflexivity|].
  unfold vneg. rewrite length_fmap. split; [reflexivity|].
  change (id (length (columns J))) with (length (columns J)).
  rewrite drop_0, take_app_length. split; [exact Hcols|].
  intros j Hj. destruct (Hcol j Hj) as (c & Hc & HJ).
  exists c. split; [|exact HJ].
  unfold harness_central_difference.
  rewrite <- !(single_delta_insert values key v) by exact Hv. exact Hc.
Qed.
End harness_columns.

Section harness_keys.
Context {Value : Type} `{GV : GenericValue Value} {NM : Type}.

(** The invariant of the loop over the keys: the map holds the keys
    visited so far, in ascending order. *)
Lemma harness_keys_loop (factor : FactorType Value NM)
    (values : gmap Key Value) (fd_step : double) (rows : nat) :
  evaluable factor values →
  (∀ k, k ∈ factor_keys factor → k ∈ dom values) →
  ∃ jacobians dX,
    foldM (harness_key factor values fd_step rows) (factor_keys factor)
      ([], zeroVectors values) = Return (jacobians, dX) ∧
    StronglySorted N.lt jacobians.*1 ∧
    (∀ k, k ∈ jacobians.*1 ↔ k ∈ factor_keys factor) ∧
    (StronglySorted N.lt (factor_keys factor) →
     jacobians.*1 = factor_keys factor).
Proof.
  intros Heval Hkeys.
  destruct (foldM_inv (λ pre (s : list (Key * Matrix) * gmap Key Vector),
              dom s.2 = dom values ∧
              StronglySorted N.lt s.1.*1 ∧
              (∀ k, k ∈ s.1.*1 ↔ k ∈ pre) ∧
              (StronglySorted N.lt pre → s.1.*1 = pre))
              (harness_key factor values fd_step rows) (factor_keys factor)
              ([], zeroVectors values))
    as ([jacobians dX] & Hret & _ & Hsorted & Helem & Hasc).
  - cbn. split; [apply dom_zeroVectors|]. split; [constructor|].
    split; [reflexivity|]. reflexivity.
  - intros pre key [jacobians dX] Hpre (Hdom & Hsorted & Helem & Hasc).
    cbn [fst snd] in Hdom, Hsorted, Helem, Hasc.
    assert (Hkey : key ∈ dom values).
    { apply Hkeys. destruct Hpre as [suf ->].
      rewrite !elem_of_app, list_elem_of_singleton. tauto. }
    destruct (harness_key_ok factor values fd_step rows key jacobians dX
                Heval Hdom Hkey) as (J & dX' & Hstep & Hdom').
    eexists. split; [exact Hstep|]. cbn [fst snd].
    split; [exact Hdom'|].
    split; [apply map_assign_sorted; exact Hsorted|].
    split.
    + intros k. rewrite map_assign_keys_elem, elem_of_app,
        list_elem_of_singleton, Helem. tauto.
    + intros Hs. apply StronglySorted_app in Hs as (Hlt & Hs & _).
      rewrite map_assign_above.
      * rewrite fmap_app, (Hasc Hs). reflexivity.
      * apply Forall_forall. intros k Hk. apply Hlt.
        -- apply Helem. exact Hk.
        -- apply list_elem_of_singleton. reflexivity.
  - exists jacobians, dX. repeat split; assumption || apply Helem.
Qed.
End harness_keys.

(** The keys of the system the harness returns are the distinct keys of
    the factor in ascending order, the iteration order of the [std::map]
    that collects the blocks, followed by one right-hand side column. *)
Lemma harness_keys_ascending {Value NM : Type}
    `{GenericValue Value} (factor : FactorType Value NM)
    (values : gmap Key Value) (fd_step : double) :
  evaluable factor values →
  (∀ k, k ∈ factor_keys factor → k ∈ dom values) →
  ∃ jf, computeNumericalDerivativeJacobianFactor factor values fd_step
        = Return jf ∧
    StronglySorted N.lt (jf_keys jf) ∧
    (∀ k, k ∈ jf_keys jf ↔ k ∈ factor_keys factor) ∧
    length (blockDims (jf_Ab jf)) = S (length (jf_keys jf)) ∧
    (jf_keys jf = factor_keys factor
     ↔ StronglySorted N.lt (factor_keys factor)).
Proof.
  intros Heval Hkeys. unfold computeNumericalDerivativeJacobianFactor.
  destruct (Heval values eq_refl) as [e ->]. cbn.
  destruct (harness_keys_loop factor values fd_step (length e) Heval Hkeys)
    as (jacobians & dX & -> & Hsorted & Helem & Hasc).
  cbn. eexists. split; [reflexivity|]. cbn.
  split; [exact Hsorted|]. split; [exact Helem|].
  split; [rewrite length_app, !length_fmap; cbn; lia|].
  split; [intros <-; exact Hsorted|exact Hasc].
Qed.

(** C5, evaluated on a factor with two scalar variables that declares key 2
    before key 1 and whose error is [x2 + 2 x1], at [x1 = -1], [x2 = 2],
    where the error is zero, with step 1.  The factor's own linearization
    holds the blocks in the declared order, [1] for key 2 and then [2] for
    key 1.  The harness computes the same block for each key, [1] for key 2
    and [2] for key 1, but returns them in ascending key order: its keys
    are 1, 2 and its blocks [2], [1].  The cross-check driver compares the
    two Jacobians position by position and records a failure for this
    factor, whose derivatives are right. *)
Lemma harness_blocks_out_of_declared_order :
  let factor := WeightedSumFactor 2 1 in
  let values : gmap Key Vector :=
    {[ 1%N := [(- (1))%Qc]; 2%N := [2%Qc] ]} in
  ∃ jf own,
    computeNumericalDerivativeJacobianFactor factor values 1%Qc = Return jf ∧
    factor_linearize factor values = Return (Some (Jacobian own)) ∧
    factor_keys factor = [2%N; 1%N] ∧
    jf_keys own = [2%N; 1%N] ∧
    getA own 0 = mkMatrix 1 [[1%Qc]] ∧
    getA own 1 = mkMatrix 1 [[2%Qc]] ∧
    getb own = [0%Qc] ∧
    harness_central_difference factor values 1%Qc 2%N 0 = Return [1%Qc] ∧
    harness_central_difference factor values 1%Qc 1%N 0 = Return [2%Qc] ∧
    jf_keys jf = [1%N; 2%N] ∧
    getA jf 0 = mkMatrix 1 [[2%Qc]] ∧
    getA jf 1 = mkMatrix 1 [[1%Qc]] ∧
    getb jf = [0%Qc] ∧
    testFactorJacobians [] "WeightedSum" factor values 1%Qc (1 / 2)%Qc
    = Return [mkFailure "WeightedSum"
                "assert_equal(evalJ.first, estJ.first, tolerance)"].
Proof.
  intros factor values.
  eexists _, _. split; [vm_compute; reflexivity|].
  split; [vm_compute; reflexivity|].
  repeat split; by_compute.
Qed.

(** C1, evaluated on a factor with two scalar variables whose error is
    their product, at [(2, 3)] with step 1.  The right-hand side is [-e]
    and the column of the first key is the central difference along that
    key alone.  The column of the second key is 1, whereas the central
    difference along the second key alone is 2: the delta map still holds
    the last perturbation [-fd_step] of the first key, and 1 is the central
    difference around that delta map. *)
Lemma harness_reuses_stale_delta :
  let factor := ProductFactor 1 2 in
  let values : gmap Key Vector := {[ 1%N := [2%Qc]; 2%N := [Q2Qc 3] ]} in
  ∃ jf, computeNumericalDerivativeJacobianFactor factor values 1%Qc
        = Return jf ∧
    jf_keys jf = [1%N; 2%N] ∧
    getb jf = [(- Q2Qc 6)%Qc] ∧
    col (getA jf 0) 0 = Some [Q2Qc 3] ∧
    harness_central_difference factor values 1%Qc 1%N 0 = Return [Q2Qc 3] ∧
    col (getA jf 1) 0 = Some [1%Qc] ∧
    harness_central_difference factor values 1%Qc 2%N 0 = Return [2%Qc] ∧
    central_difference_around factor values 1%Qc
      (<[1%N := [(- (1))%Qc]]> (zeroVectors values)) 2%N 1 0
    = Return [1%Qc].
Proof.
  intros factor values.
  eexists. split; [vm_compute; reflexivity|].
  split; [reflexivity|]. repeat split; by_compute.
Qed.

(** ** The cross-check driver: results *)

Lemma forallb_zip_lookup {A B : Type} (f : A * B → bool) (u : list A)
    (v : list B) :
  forallb f (zip u v) = true
  ↔ ∀ i a b, u !! i = Some a → v !! i = Some b → f (a, b) = true.
Proof.
  revert v. induction u as [|a0 u IH]; intros [|b0 v]; cbn.
  - split; [intros _ i a b Ha; discriminate|reflexivity].
  - split; [intros _ i a b Ha; discriminate|reflexivity].
  - split; [intros _ i a b _ Hb; discriminate|reflexivity].
  - rewrite andb_true_iff, IH. split.
    + intros [H0 Hrest] [|i] a b Ha Hb; cbn in Ha, Hb.
      * injection Ha as <-. injection Hb as <-. exact H0.
      * exact (Hrest i a b Ha Hb).
    + intros Hall. split.
      * exact (Hall 0%nat a0 b0 eq_refl eq_refl).
      * intros i a b Ha Hb. exact (Hall (S i) a b Ha Hb).
Qed.

Lemma assert_equal_Vector_spec (u v : Vector) (tol : double) :
  assert_equal_Vector u v tol = true ↔ vectors_agree tol u v.
Proof.
  unfold assert_equal_Vector, vectors_agree.
  rewrite andb_true_iff, bool_decide_eq_true, forallb_zip_lookup.
  split; intros [Hlen Hall]; (split; [exact Hlen|]);
    intros i a b Ha Hb; specialize (Hall i a b Ha Hb); cbn in *.
  - apply bool_decide_eq_true in Hall. exact Hall.
  - apply bool_decide_eq_true. exact Hall.
Qed.

Lemma assert_equal_Matrix_spec (A B : Matrix) (tol : double) :
  assert_equal_Matrix A B tol = true ↔ matrices_agree tol A B.
Proof.
  unfold assert_equal_Matrix, matrices_agree, col.
  rewrite !andb_true_iff, !bool_decide_eq_true, forallb_zip_lookup.
  split.
  - intros [[Hrows Hcols] Hall]. split; [exact Hrows|].
    split; [exact Hcols|]. intros j ca cb Ha Hb.
    apply assert_equal_Vector_spec. exact (Hall j ca cb Ha Hb).
  - intros (Hrows & Hcols & Hall). repeat split; try assumption.
    intros j ca cb Ha Hb. apply assert_equal_Vector_spec. cbn.
    exact (Hall j ca cb Ha Hb).
Qed.

Lemma assert_equal_Vector_zero (v : Vector) (n : nat) (tol : double) :
  assert_equal_Vector v (zero n) tol = true
  ↔ length v = n ∧ numerically_zero tol v.
Proof.
  rewrite assert_equal_Vector_spec. unfold vectors_agree, numerically_zero.
  rewrite length_zero. split; intros [Hlen Hall]; (split; [exact Hlen|]).
  - intros i a Ha.
    assert (Hi : (i < n)%nat) by (rewrite <- Hlen; eapply lookup_lt_Some, Ha).
    specialize (Hall i a 0%Qc Ha (lookup_replicate_2 _ _ _ Hi)).
    replace (a - 0)%Qc with a in Hall by ring. exact Hall.
  - intros i a b Ha Hb. apply lookup_replicate_1 in Hb as [-> _].
    replace (a - 0)%Qc with a by ring. exact (Hall i a Ha).
Qed.

Lemma EXPECT_three (result_ : list Failure) (name_ t1 t2 t3 : string)
    (c1 c2 c3 : bool) :
  EXPECT (EXPECT (EXPECT result_ name_ t1 c1) name_ t2 c2) name_ t3 c3
  = result_ ↔ c1 = true ∧ c2 = true ∧ c3 = true.
Proof.
  unfold EXPECT. split.
  - intros Heq. apply (f_equal length) in Heq.
    destruct c1, c2, c3; try (repeat split; reflexivity);
      rewrite ?length_app in Heq; cbn in Heq; lia.
  - intros (-> & -> & ->). reflexivity.
Qed.

(** C4. The driver computes the harness's linear system and the factor's
    own linearization at the same values, and records no failure exactly
    when the two unweighted Jacobian matrices have the same shape and agree
    elementwise within the tolerance, and both right-hand side vectors,
    of one length, are zero within the tolerance. *)
Theorem testFactorJacobians_checks {Value NM : Type} `{GenericValue Value}
    (result_ : list Failure) (name_ : string) (f : FactorType Value NM)
    (values : gmap Key Value) (fd_step tolerance : double)
    (expected jf : JacobianFactor NM) :
  computeNumericalDerivativeJacobianFactor f values fd_step
    = Return expected →
  factor_linearize f values = Return (Some (Jacobian jf)) →
  ∃ r, testFactorJacobians result_ name_ f values fd_step tolerance
       = Return r ∧
    (r = result_ ↔
     matrices_agree tolerance (jacobianUnweighted jf).1
       (jacobianUnweighted expected).1 ∧
     numerically_zero tolerance (jacobianUnweighted jf).2 ∧
     length (jacobianUnweighted expected).2
       = length (jacobianUnweighted jf).2 ∧
     numerically_zero tolerance (jacobianUnweighted expected).2).
Proof.
  intros Hexpected Hlin. unfold testFactorJacobians.
  rewrite Hexpected, Hlin. cbn [mbind result_bind dynamic_pointer_cast deref].
  eexists. split; [reflexivity|].
  rewrite EXPECT_three, assert_equal_Matrix_spec, !assert_equal_Vector_zero.
  tauto.
Qed.

(** The factor of Scenario 3 on a scalar variable, cross-checked at the
    measured value. *)
Lemma testFactorJacobians_checks_witness :
  let this := {| keys_ := [7%N]; noiseModel_ := Some (Unit 1);
                 active := λ _ : gmap Key Vector, true;
                 measured_ := [2%Qc];
                 expression_ := Some (Leaf 1 7%N); dims_ := [1%nat] |} in
  let f := as_FactorType (ChartT := EuclideanChart 1) this in
  let values : gmap Key Vector := {[ 7%N := [2%Qc] ]} in
  let system : JacobianFactor DiagonalModel :=
    mkJacobianFactor [7%N]
      (mkVBM [1; 1]%nat (mkMatrix 1 [[1%Qc]; [0%Qc]])) None in
  ∃ r, testFactorJacobians [] "Leaf" f values 1%Qc 0%Qc = Return r ∧
    (r = [] ↔
     matrices_agree 0%Qc (jacobianUnweighted system).1
       (jacobianUnweighted system).1 ∧
     numerically_zero 0%Qc (jacobianUnweighted system).2 ∧
     length (jacobianUnweighted system).2
       = length (jacobianUnweighted system).2 ∧
     numerically_zero 0%Qc (jacobianUnweighted system).2).
Proof.
  intros this f values system.
  apply (testFactorJacobians_checks [] "Leaf" f values 1%Qc 0%Qc
           system system); by_compute.
Defined.

(** ** The finite-difference engine: further results *)

Lemma matrix_eq (A B : Matrix) :
  rows A = rows B → cols A = cols B →
  (∀ j, (j < cols A)%nat → col A j = col B j) →
  A = B.
Proof.
  destruct A as [ra ca], B as [rb cb]. unfold cols, col. cbn.
  intros -> Hcols Hcol. f_equal. apply list_eq. intros j.
  destruct (decide (j < length ca)%nat) as [Hj|Hj]; [apply Hcol; exact Hj|].
  rewrite !lookup_ge_None_2; [reflexivity|lia|lia].
Qed.

Lemma vsub_diag (v : Vector) : vsub v v = zero (length v).
Proof.
  induction v as [|a v IH]; [reflexivity|]. cbn. f_equal; [ring|exact IH].
Qed.

Lemma length_vsub (a b : Vector) :
  length a = length b → length (vsub a b) = length a.
Proof. intros Hlen. unfold vsub. rewrite length_zip_with. lia. Qed.

Lemma fmap_div_zero (n : nat) (c : double) :
  (λ a, a / c)%Qc <$> zero n = zero n.
Proof.
  unfold zero. rewrite fmap_replicate. f_equal.
  unfold Qcdiv. ring.
Qed.

Section gradient_facts.
Context {X : Type} `{ChartX : Chart X}.

Lemma numericalGradient_components (h : X → double) (x : X)
    (delta : double) :
  delta ≠ 0%Qc →
  length (numericalGradient h x delta) = dimension X ∧
  ∀ j, (j < dimension X)%nat →
    numericalGradient h x delta !! j = Some (central_difference h x delta j).
Proof.
  intros Hdelta.
  destruct (numericalGradient_loop h x delta (dimension X) Hdelta
              ltac:(reflexivity)) as (_ & Hlen & Hg).
  split; [exact Hlen|exact Hg].
Qed.

(** Two gradients with the same components are equal. *)
Lemma numericalGradient_eq (f g : X → double) (x x' : X)
    (delta delta' : double) :
  delta ≠ 0%Qc → delta' ≠ 0%Qc →
  (∀ j, (j < dimension X)%nat →
     central_difference f x delta j = central_difference g x' delta' j) →
  numericalGradient f x delta = numericalGradient g x' delta'.
Proof.
  intros Hd Hd' Hcd.
  destruct (numericalGradient_components f x delta Hd) as [Hlf Hf].
  destruct (numericalGradient_components g x' delta' Hd') as [Hlg Hg].
  apply list_eq. intros j.
  destruct (decide (j < dimension X)%nat) as [Hj|Hj].
  - rewrite (Hf j Hj), (Hg j Hj), (Hcd j Hj). reflexivity.
  - rewrite !lookup_ge_None_2; [reflexivity|lia|lia].
Qed.
End gradient_facts.

(** X1. [numericalGradient] evaluates [h] only at the [2 N] perturbed
    points [retract(x, ±delta e_j)]: two functions that agree there have
    the same numerical gradient, whatever they do elsewhere (at [x] itself
    included). *)
Theorem numericalGradient_local {X : Type} `{Chart X} (f g : X → double)
    (x : X) (delta : double) :
  delta ≠ 0%Qc →
  (∀ j, (j < dimension X)%nat →
     f (retract x (basis (dimension X) j delta))
     = g (retract x (basis (dimension X) j delta)) ∧
     f (retract x (basis (dimension X) j (- delta)))
     = g (retract x (basis (dimension X) j (- delta)))) →
  numericalGradient f x delta = numericalGradient g x delta.
Proof.
  intros Hdelta Hagree. apply numericalGradient_eq; try exact Hdelta.
  intros j Hj. unfold central_difference.
  destruct (Hagree j Hj) as [-> ->]. reflexivity.
Qed.

(** Two functions on the plane that differ at the base point only. *)
Lemma numericalGradient_local_witness :
  let f := λ v : Vector, default 0%Qc (v !! 0%nat) in
  let g := λ v : Vector,
    if decide (v = [1; 1]%Qc) then 2%Qc else default 0%Qc (v !! 0%nat) in
  numericalGradient (ChartX := EuclideanChart 2) f [1; 1]%Qc 1%Qc
  = numericalGradient (ChartX := EuclideanChart 2) g [1; 1]%Qc 1%Qc.
Proof.
  intros f g.
  apply (numericalGradient_local (H := EuclideanChart 2) f g [1; 1]%Qc 1%Qc).
  - discriminate.
  - intros j Hj. cbn in Hj.
    destruct j as [|[|j]]; [| |lia]; split; by_compute.
Defined.

(** X2. The central difference is even in the step: [numericalGradient]
    with step [-delta] returns the same vector as with step [delta]. *)
Theorem numericalGradient_even {X : Type} `{Chart X} (h : X → double)
    (x : X) (delta : double) :
  delta ≠ 0%Qc →
  numericalGradient h x (- delta)%Qc = numericalGradient h x delta.
Proof.
  intros Hdelta.
  assert (Hneg : (- delta)%Qc ≠ 0%Qc).
  { intros Hz. apply Hdelta. rewrite <- (Qcopp_involutive delta), Hz.
    reflexivity. }
  apply numericalGradient_eq; try assumption.
  intros j Hj. unfold central_difference. rewrite Qcopp_involutive.
  field. nonzero.
Qed.

Lemma numericalGradient_even_witness :
  let h := λ v : Vector,
    (default 0 (v !! 0%nat) * default 0 (v !! 0%nat)
     * default 0 (v !! 1%nat))%Qc in
  numericalGradient (ChartX := EuclideanChart 2) h [1; 2]%Qc (- (1))%Qc
  = numericalGradient (ChartX := EuclideanChart 2) h [1; 2]%Qc 1%Qc.
Proof.
  intros h.
  apply (numericalGradient_even (H := EuclideanChart 2) h [1; 2]%Qc 1%Qc).
  discriminate.
Defined.

(** X3. In exact arithmetic, [numericalGradient] is linear in the
    function: the gradient of [a f + b g] is [a] times the gradient of [f]
    plus [b] times the gradient of [g], at the same point and step.  (The
    code computes in doubles, where each side carries its own rounding
    error.) *)
Theorem numericalGradient_linear {X : Type} `{Chart X} (f g : X → double)
    (a b : double) (x : X) (delta : double) :
  delta ≠ 0%Qc →
  numericalGradient (λ y, a * f y + b * g y)%Qc x delta
  = vadd (vscale (numericalGradient f x delta) a)
         (vscale (numericalGradient g x delta) b).
Proof.
  intros Hdelta.
  destruct (numericalGradient_components f x delta Hdelta) as [Hlf Hf].
  destruct (numericalGradient_components g x delta Hdelta) as [Hlg Hg].
  destruct (numericalGradient_components (λ y, a * f y + b * g y)%Qc x delta
              Hdelta) as [Hl Hfg].
  apply list_eq. intros j.
  destruct (decide (j < dimension X)%nat) as [Hj|Hj].
  - rewrite (Hfg j Hj). unfold vadd, vscale.
    rewrite lookup_zip_with, !list_lookup_fmap, (Hf j Hj), (Hg j Hj). cbn.
    f_equal. unfold central_difference. field. nonzero.
  - rewrite !lookup_ge_None_2; [reflexivity| |lia].
    unfold vadd, vscale. rewrite length_zip_with, !length_fmap. lia.
Qed.

Lemma numericalGradient_linear_witness :
  let f := λ v : Vector, (default 0 (v !! 0%nat) * default 0 (v !! 1%nat))%Qc in
  let g := λ v : Vector, default 0%Qc (v !! 1%nat) in
  numericalGradient (ChartX := EuclideanChart 2)
    (λ y, 2 * f y + 1 * g y)%Qc [1; 2]%Qc 1%Qc
  = vadd (vscale (numericalGradient (ChartX := EuclideanChart 2) f
                    [1; 2]%Qc 1%Qc) 2%Qc)
         (vscale (numericalGradient (ChartX := EuclideanChart 2) g
                    [1; 2]%Qc 1%Qc) 1%Qc).
Proof.
  intros f g.
  apply (numericalGradient_linear (H := EuclideanChart 2) f g 2%Qc 1%Qc
           [1; 2]%Qc 1%Qc).
  discriminate.
Defined.

(** *** The inner product (Scenario 2) *)

Lemma dot_zero_l (n : nat) (c : Vector) : dot (zero n) c = 0%Qc.
Proof.
  revert c. induction n as [|n IH]; intros [|c0 c]; try reflexivity.
  unfold dot in *. cbn. fold (zero n). rewrite IH. ring.
Qed.

Lemma dot_vadd_l (a b c : Vector) :
  length a = length b →
  dot (vadd a b) c = (dot a c + dot b c)%Qc.
Proof.
  revert b c. induction a as [|a0 a IH]; intros [|b0 b] [|c0 c] Hlen;
    try discriminate; unfold dot in *; cbn; try ring.
  rewrite IH by (cbn in Hlen; lia). ring.
Qed.

Lemma dot_basis_l (n j : nat) (a : double) (c : Vector) (cj : double) :
  (j < n)%nat → c !! j = Some cj → dot (basis n j a) c = (a * cj)%Qc.
Proof.
  revert j c. induction n as [|n IH]; intros j c Hj Hc; [lia|].
  destruct c as [|c0 c]; [discriminate|]. destruct j as [|j].
  - injection Hc as ->. rewrite basis_0. unfold dot. cbn.
    fold (dot (zero n) c). rewrite dot_zero_l. ring.
  - rewrite basis_S. unfold dot. cbn. fold (dot (basis n j a) c).
    rewrite (IH j c) by (lia || exact Hc). ring.
Qed.

Lemma dot_comm (a b : Vector) : dot a b = dot b a.
Proof.
  revert b. induction a as [|a0 a IH]; intros [|b0 b]; try reflexivity.
  unfold dot in *. cbn. rewrite IH. ring.
Qed.

Lemma numericalGradient_dot_l (n : nat) (x1 x2 : Vector) (delta : double) :
  delta ≠ 0%Qc → length x1 = n → length x2 = n →
  numericalGradient (ChartX := EuclideanChart n) (λ a, dot a x2) x1 delta
  = x2.
Proof.
  intros Hdelta H1 H2.
  destruct (numericalGradient_components (ChartX := EuclideanChart n)
              (λ a, dot a x2) x1 delta Hdelta) as [Hlen Hg].
  cbn [dimension EuclideanChart] in Hlen, Hg.
  apply list_eq. intros j. destruct (decide (j < n)%nat) as [Hj|Hj].
  - rewrite (Hg j Hj).
    destruct (lookup_lt_is_Some_2 x2 j) as [cj Hcj]; [lia|]. rewrite Hcj.
    f_equal. unfold central_difference.
    cbn [dimension EuclideanChart retract].
    rewrite !dot_vadd_l by (rewrite length_basis; exact H1).
    rewrite !(dot_basis_l n j _ x2 cj) by assumption.
    field. nonzero.
  - rewrite !lookup_ge_None_2; [reflexivity|lia|lia].
Qed.

(** X4. Scenario 2, gradients, in exact arithmetic: for
    [f(x1, x2) = x1ᵗ x2] on Euclidean vectors of one dimension, the central
    difference has no truncation error at any nonzero step, so the
    numerical gradient with respect to [x1] at fixed [x2] is [x2] and the
    one with respect to [x2] at fixed [x1] is [x1].  (The code computes in
    doubles, which adds rounding error to these values.) *)
Theorem numericalGradient_dot (n : nat) (x1 x2 : Vector) (delta : double) :
  delta ≠ 0%Qc → length x1 = n → length x2 = n →
  numericalGradient (ChartX := EuclideanChart n) (λ a, dot a x2) x1 delta
  = x2 ∧
  numericalGradient (ChartX := EuclideanChart n) (λ b, dot x1 b) x2 delta
  = x1.
Proof.
  intros Hdelta H1 H2. split.
  - apply numericalGradient_dot_l; assumption.
  - transitivity (numericalGradient (ChartX := EuclideanChart n)
                    (λ a, dot a x1) x2 delta);
      [|apply numericalGradient_dot_l; assumption].
    apply numericalGradient_eq; try exact Hdelta.
    intros j Hj. unfold central_difference. rewrite !(dot_comm x1).
    reflexivity.
Qed.

Lemma numericalGradient_dot_witness :
  numericalGradient (ChartX := EuclideanChart 2)
    (λ a, dot a [1; 2]%Qc) [2; 2]%Qc 2%Qc = [1; 2]%Qc ∧
  numericalGradient (ChartX := EuclideanChart 2)
    (λ b, dot [2; 2]%Qc b) [1; 2]%Qc 2%Qc = [2; 2]%Qc.
Proof.
  apply (numericalGradient_dot 2 [2; 2]%Qc [1; 2]%Qc 2%Qc);
    [discriminate|reflexivity|reflexivity].
Defined.

(** *** [numericalDerivative11] and the curried variants *)

Section derivative_more.
Context {X : Type} `{ChartX : Chart X} {Y : Type} `{ChartY : Chart Y}.

(** Two Jacobians with the same number of rows and the same columns are
    equal. *)
Lemma numericalDerivative11_eq (h h' : X → Y) (x x' : X)
    (delta delta' : double) :
  delta ≠ 0%Qc → delta' ≠ 0%Qc →
  length (local (h x) (h x)) = length (local (h' x') (h' x')) →
  (∀ j, (j < dimension X)%nat →
     central_difference_column h x delta j
     = central_difference_column h' x' delta' j) →
  numericalDerivative11 h x delta = numericalDerivative11 h' x' delta'.
Proof.
  intros Hd Hd' Hrows Hcol.
  destruct (numericalDerivative11_columns h x delta Hd) as (Hr & Hc & Hj).
  destruct (numericalDerivative11_columns h' x' delta' Hd')
    as (Hr' & Hc' & Hj').
  apply matrix_eq.
  - rewrite Hr, Hr'. exact Hrows.
  - rewrite Hc, Hc'. reflexivity.
  - intros j Hlt. rewrite Hc in Hlt.
    rewrite (Hj j Hlt), (Hj' j Hlt), (Hcol j Hlt). reflexivity.
Qed.
End derivative_more.

Lemma Qcopp_nonzero (delta : double) : delta ≠ 0%Qc → (- delta)%Qc ≠ 0%Qc.
Proof.
  intros Hdelta Hz. apply Hdelta.
  rewrite <- (Qcopp_involutive delta), Hz. reflexivity.
Qed.

Lemma vsub_swap_div (a b : Vector) (delta : double) :
  delta ≠ 0%Qc →
  (λ c, c / (2 * - delta))%Qc <$> vsub a b
  = (λ c, c / (2 * delta))%Qc <$> vsub b a.
Proof.
  intros Hdelta. pose proof (Qcopp_nonzero delta Hdelta) as Hneg. revert b.
  induction a as [|a0 a IH]; intros [|b0 b]; try reflexivity.
  cbn. f_equal; [field; nonzero|apply IH].
Qed.

(** X5. [numericalDerivative11] evaluates [h] only at [x] and at the
    [2 N] perturbed points [retract(x, ±delta e_j)]: two functions that
    agree there have the same numerical Jacobian. *)
Theorem numericalDerivative11_local {X Y : Type} `{Chart X} `{Chart Y}
    (h h' : X → Y) (x : X) (delta : double) :
  delta ≠ 0%Qc →
  h x = h' x →
  (∀ j, (j < dimension X)%nat →
     h (retract x (basis (dimension X) j delta))
     = h' (retract x (basis (dimension X) j delta)) ∧
     h (retract x (basis (dimension X) j (- delta)))
     = h' (retract x (basis (dimension X) j (- delta)))) →
  numericalDerivative11 h x delta = numericalDerivative11 h' x delta.
Proof.
  intros Hdelta Hx Hagree. apply numericalDerivative11_eq; try exact Hdelta.
  - rewrite Hx. reflexivity.
  - intros j Hj. unfold central_difference_column.
    destruct (Hagree j Hj) as [-> ->]. rewrite Hx. reflexivity.
Qed.

(** The absolute value and the identity on the line, away from zero. *)
Lemma numericalDerivative11_local_witness :
  let h := λ v : Vector, v in
  let h' := λ v : Vector, Qcabs <$> v in
  numericalDerivative11 (ChartX := EuclideanChart 1)
    (ChartY := EuclideanChart 1) h [2%Qc] 1%Qc
  = numericalDerivative11 (ChartX := EuclideanChart 1)
      (ChartY := EuclideanChart 1) h' [2%Qc] 1%Qc.
Proof.
  intros h h'.
  apply (numericalDerivative11_local (H := EuclideanChart 1)
           (H0 := EuclideanChart 1) h h' [2%Qc] 1%Qc).
  - discriminate.
  - by_compute.
  - intros j Hj. cbn in Hj. destruct j as [|j]; [|lia]. split; by_compute.
Defined.

(** X6. The central difference is even in the step:
    [numericalDerivative11] with step [-delta] returns the same matrix as
    with step [delta]. *)
Theorem numericalDerivative11_even {X Y : Type} `{Chart X} `{Chart Y}
    (h : X → Y) (x : X) (delta : double) :
  delta ≠ 0%Qc →
  numericalDerivative11 h x (- delta)%Qc = numericalDerivative11 h x delta.
Proof.
  intros Hdelta.
  apply numericalDerivative11_eq;
    [apply Qcopp_nonzero; exact Hdelta|exact Hdelta|reflexivity|].
  intros j Hj. unfold central_difference_column.
  rewrite Qcopp_involutive. apply vsub_swap_div. exact Hdelta.
Qed.

Lemma numericalDerivative11_even_witness :
  let h := λ v : Vector, (λ a, a * a * a)%Qc <$> v in
  numericalDerivative11 (ChartX := EuclideanChart 1)
    (ChartY := EuclideanChart 1) h [2%Qc] (- (1))%Qc
  = numericalDerivative11 (ChartX := EuclideanChart 1)
      (ChartY := EuclideanChart 1) h [2%Qc] 1%Qc.
Proof.
  intros h.
  apply (numericalDerivative11_even (H := EuclideanChart 1)
           (H0 := EuclideanChart 1) h [2%Qc] 1%Qc).
  discriminate.
Defined.

(** X7. The numerical Jacobian of a constant function is the zero matrix,
    with as many rows as the tangent vector [local(y, y)] has coordinates
    and one column per input coordinate. *)
Theorem numericalDerivative11_constant {X Y : Type} `{Chart X} `{Chart Y}
    (y : Y) (x : X) (delta : double) :
  delta ≠ 0%Qc →
  numericalDerivative11 (λ _, y) x delta
  = zeros (length (local y y)) (dimension X).
Proof.
  intros Hdelta.
  destruct (numericalDerivative11_columns (λ _ : X, y) x delta Hdelta)
    as (Hr & Hc & Hj).
  apply matrix_eq.
  - rewrite Hr. reflexivity.
  - rewrite Hc. unfold cols, zeros. cbn. rewrite length_replicate.
    reflexivity.
  - intros j Hlt. rewrite Hc in Hlt. rewrite (Hj j Hlt).
    unfold central_difference_column, col, zeros. cbn [columns].
    rewrite lookup_replicate_2 by exact Hlt. f_equal.
    rewrite vsub_diag. apply fmap_div_zero.
Qed.

Lemma numericalDerivative11_constant_witness :
  numericalDerivative11 (ChartX := EuclideanChart 2)
    (ChartY := EuclideanChart 3) (λ _ : Vector, [1; 2; 2]%Qc) [1; 1]%Qc 1%Qc
  = zeros 3 2.
Proof.
  apply (numericalDerivative11_constant (H := EuclideanChart 2)
           (H0 := EuclideanChart 3) [1; 2; 2]%Qc [1; 1]%Qc 1%Qc).
  discriminate.
Defined.

(** *** Affine functions of Euclidean vectors *)

Lemma vadd_comm (a b : Vector) : vadd a b = vadd b a.
Proof.
  revert b. induction a as [|a0 a IH]; intros [|b0 b]; try reflexivity.
  cbn. f_equal; [ring|apply IH].
Qed.

Lemma vadd_assoc (a b c : Vector) : vadd (vadd a b) c = vadd a (vadd b c).
Proof.
  revert b c. induction a as [|a0 a IH]; intros [|b0 b] [|c0 c];
    try reflexivity.
  cbn. f_equal; [ring|apply IH].
Qed.

Lemma central_difference_affine_shift (p c b : Vector) (delta : double) :
  delta ≠ 0%Qc →
  length c = length p → length b = length p →
  (λ a, a / (2 * delta))%Qc <$>
    vsub (vsub (vadd (vadd p (vscale c delta)) b) (vadd p b))
         (vsub (vadd (vadd p (vscale c (- delta)%Qc)) b) (vadd p b)) = c.
Proof.
  intros Hdelta. revert c b.
  induction p as [|p0 p IH]; intros [|c0 c] [|b0 b] Hc Hb;
    try discriminate; [reflexivity|].
  cbn. f_equal; [field; nonzero|].
  apply IH; cbn in Hc, Hb; lia.
Qed.

(** The numerical Jacobian of [v ↦ A v + b] is [A]. *)
Lemma numericalDerivative11_affine (A : Matrix) (b x : Vector)
    (delta : double) :
  delta ≠ 0%Qc →
  wf_matrix A →
  length x = cols A →
  length b = rows A →
  numericalDerivative11 (ChartX := EuclideanChart (cols A))
    (ChartY := EuclideanChart (rows A)) (λ v, vadd (mat_vec A v) b) x delta
  = A.
Proof.
  intros Hdelta Hwf Hx Hb.
  pose proof (numericalDerivative11_columns (ChartX := EuclideanChart (cols A))
    (ChartY := EuclideanChart (rows A)) (λ v, vadd (mat_vec A v) b) x delta
    Hdelta) as (Hrows & Hcols & Hcol).
  cbn [dimension EuclideanChart local] in Hrows, Hcols, Hcol.
  assert (HAx : length (mat_vec A x) = rows A)
    by (apply lincomb_length; exact Hwf).
  apply matrix_eq.
  - rewrite Hrows, length_vsub by reflexivity.
    rewrite length_vadd by lia. exact HAx.
  - exact Hcols.
  - intros j Hj. rewrite Hcols in Hj. rewrite (Hcol j Hj). unfold col.
    destruct (lookup_lt_is_Some_2 (columns A) j Hj) as [cj Hcj].
    rewrite Hcj. f_equal. unfold central_difference_column.
    cbn [dimension EuclideanChart local retract]. unfold mat_vec, cols.
    rewrite !lincomb_vadd
      by first [exact Hwf | rewrite length_basis; exact Hx].
    rewrite !(lincomb_basis (rows A) (columns A) j _ cj) by assumption.
    apply central_difference_affine_shift; [exact Hdelta| |].
    + rewrite lincomb_length by exact Hwf.
      exact (proj1 (Forall_lookup _ _) Hwf j cj Hcj).
    + rewrite lincomb_length by exact Hwf. exact Hb.
Qed.

Lemma numericalDerivative11_pointwise {X Y : Type} `{Chart X} `{Chart Y}
    (h h' : X → Y) (x : X) (delta : double) :
  delta ≠ 0%Qc →
  (∀ v, h v = h' v) →
  numericalDerivative11 h x delta = numericalDerivative11 h' x delta.
Proof.
  intros Hdelta Hext. apply numericalDerivative11_eq; try exact Hdelta.
  - rewrite Hext. reflexivity.
  - intros j Hj. unfold central_difference_column. rewrite !Hext.
    reflexivity.
Qed.

(** X8. Partial derivatives of a function of two arguments, in exact
    arithmetic: for [h(x1, x2) = A x1 + B x2] on Euclidean vectors,
    [numericalDerivative21] returns [A] and [numericalDerivative22]
    returns [B], at every pair of arguments and every nonzero step: each
    differentiates in the argument of its name and holds the other fixed.
    (The code computes in doubles, which adds rounding error to the
    entries.) *)
Theorem numericalDerivative2_linear (A B : Matrix) (x1 x2 : Vector)
    (delta : double) :
  delta ≠ 0%Qc →
  wf_matrix A → wf_matrix B → rows B = rows A →
  length x1 = cols A → length x2 = cols B →
  let h := λ a b : Vector, vadd (mat_vec A a) (mat_vec B b) in
  numericalDerivative21 (ChartY := EuclideanChart (rows A))
    (Chart1 := EuclideanChart (cols A)) h x1 x2 delta = A ∧
  numericalDerivative22 (ChartY := EuclideanChart (rows A))
    (Chart2 := EuclideanChart (cols B)) h x1 x2 delta = B.
Proof.
  intros Hdelta HA HB Hrows H1 H2 h. split.
  - unfold numericalDerivative21, h.
    apply (numericalDerivative11_affine A (mat_vec B x2) x1 delta);
      try assumption.
    rewrite <- Hrows. apply lincomb_length. exact HB.
  - unfold numericalDerivative22, h. rewrite <- Hrows.
    rewrite (numericalDerivative11_pointwise _
               (λ v, vadd (mat_vec B v) (mat_vec A x1)))
      by (exact Hdelta || (intros v; apply vadd_comm)).
    apply (numericalDerivative11_affine B (mat_vec A x1) x2 delta);
      try assumption.
    rewrite Hrows. apply lincomb_length. exact HA.
Qed.

Lemma numericalDerivative2_linear_witness :
  let A := mkMatrix 2 [[1; 2]; [0; 1]]%Qc in
  let B := mkMatrix 2 [[2; 1]%Qc] in
  let h := λ a b : Vector, vadd (mat_vec A a) (mat_vec B b) in
  numericalDerivative21 (ChartY := EuclideanChart 2)
    (Chart1 := EuclideanChart 2) h [1; 2]%Qc [2%Qc] 2%Qc = A ∧
  numericalDerivative22 (ChartY := EuclideanChart 2)
    (Chart2 := EuclideanChart 1) h [1; 2]%Qc [2%Qc] 2%Qc = B.
Proof.
  intros A B h.
  apply (numericalDerivative2_linear A B [1; 2]%Qc [2%Qc] 2%Qc);
    first [discriminate | reflexivity | repeat constructor].
Defined.

(** X9. Partial derivatives of a function of three arguments, in exact
    arithmetic: for [h(x1, x2, x3) = A x1 + B x2 + C x3] on Euclidean
    vectors, [numericalDerivative31], [numericalDerivative32] and
    [numericalDerivative33] return [A], [B] and [C]: each differentiates
    in the argument of its name and holds the other two fixed.  (The code
    computes in doubles, which adds rounding error to the entries.) *)
Theorem numericalDerivative3_linear (A B C : Matrix) (x1 x2 x3 : Vector)
    (delta : double) :
  delta ≠ 0%Qc →
  wf_matrix A → wf_matrix B → wf_matrix C →
  rows B = rows A → rows C = rows A →
  length x1 = cols A → length x2 = cols B → length x3 = cols C →
  let h := λ a b c : Vector,
    vadd (vadd (mat_vec A a) (mat_vec B b)) (mat_vec C c) in
  numericalDerivative31 (ChartY := EuclideanChart (rows A))
    (Chart1 := EuclideanChart (cols A)) h x1 x2 x3 delta = A ∧
  numericalDerivative32 (ChartY := EuclideanChart (rows A))
    (Chart2 := EuclideanChart (cols B)) h x1 x2 x3 delta = B ∧
  numericalDerivative33 (ChartY := EuclideanChart (rows A))
    (Chart3 := EuclideanChart (cols C)) h x1 x2 x3 delta = C.
Proof.
  intros Hdelta HA HB HC HrB HrC H1 H2 H3 h.
  assert (LA : length (mat_vec A x1) = rows A)
    by (apply lincomb_length; exact HA).
  assert (LB : length (mat_vec B x2) = rows A)
    by (rewrite <- HrB; apply lincomb_length; exact HB).
  assert (LC : length (mat_vec C x3) = rows A)
    by (rewrite <- HrC; apply lincomb_length; exact HC).
  split; [|split].
  - unfold numericalDerivative31, h.
    rewrite (numericalDerivative11_pointwise _
               (λ v, vadd (mat_vec A v)
                       (vadd (mat_vec B x2) (mat_vec C x3))))
      by (exact Hdelta || (intros v; apply vadd_assoc)).
    apply numericalDerivative11_affine; try assumption.
    rewrite length_vadd; lia.
  - unfold numericalDerivative32, h. rewrite <- HrB.
    rewrite (numericalDerivative11_pointwise _
               (λ v, vadd (mat_vec B v)
                       (vadd (mat_vec A x1) (mat_vec C x3)))).
    + apply numericalDerivative11_affine; try assumption.
      rewrite length_vadd; lia.
    + exact Hdelta.
    + intros v. rewrite (vadd_comm (mat_vec A x1)). apply vadd_assoc.
  - unfold numericalDerivative33, h. rewrite <- HrC.
    rewrite (numericalDerivative11_pointwise _
               (λ v, vadd (mat_vec C v)
                       (vadd (mat_vec A x1) (mat_vec B x2))))
      by (exact Hdelta || (intros v; apply vadd_comm)).
    apply numericalDerivative11_affine; try assumption.
    rewrite length_vadd; lia.
Qed.

Lemma numericalDerivative3_linear_witness :
  let A := mkMatrix 2 [[1; 2]; [0; 1]]%Qc in
  let B := mkMatrix 2 [[2; 1]%Qc] in
  let C := mkMatrix 2 [[1; 1]; [2; 2]]%Qc in
  let h := λ a b c : Vector,
    vadd (vadd (mat_vec A a) (mat_vec B b)) (mat_vec C c) in
  numericalDerivative31 (ChartY := EuclideanChart 2)
    (Chart1 := EuclideanChart 2) h [1; 2]%Qc [2%Qc] [0; 1]%Qc 2%Qc = A ∧
  numericalDerivative32 (ChartY := EuclideanChart 2)
    (Chart2 := EuclideanChart 1) h [1; 2]%Qc [2%Qc] [0; 1]%Qc 2%Qc = B ∧
  numericalDerivative33 (ChartY := EuclideanChart 2)
    (Chart3 := EuclideanChart 2) h [1; 2]%Qc [2%Qc] [0; 1]%Qc 2%Qc = C.
Proof.
  intros A B C h.
  apply (numericalDerivative3_linear A B C [1; 2]%Qc [2%Qc] [0; 1]%Qc 2%Qc);
    first [discriminate | reflexivity | repeat constructor].
Defined.

(** *** Hessians *)

Lemma vsub_cancel (a b c : Vector) :
  length a = length c → length b = length c →
  vsub (vsub a c) (vsub b c) = vsub a b.
Proof.
  revert b c. induction a as [|a0 a IH]; intros [|b0 b] [|c0 c] Ha Hb;
    try discriminate; [reflexivity|].
  cbn. f_equal; [ring|]. apply IH; cbn in Ha, Hb; lia.
Qed.

(** The Jacobian of a vector-valued function whose values have [m]
    coordinates: column [j] is the difference of the two perturbed values
    divided by [2 delta]. *)
Lemma numericalDerivative11_vector {X : Type} `{ChartX : Chart X}
    (g : X → Vector) (x : X) (delta : double) (m m' : nat) :
  delta ≠ 0%Qc →
  length (g x) = m →
  (∀ j, (j < dimension X)%nat →
     length (g (retract x (basis (dimension X) j delta))) = m ∧
     length (g (retract x (basis (dimension X) j (- delta)))) = m) →
  let H := numericalDerivative11 (ChartY := EuclideanChart m') g x delta in
  rows H = m ∧ cols H = dimension X ∧
  ∀ j, (j < dimension X)%nat →
    col H j = Some ((λ c, c / (2 * delta))%Qc <$>
                      vsub (g (retract x (basis (dimension X) j delta)))
                           (g (retract x (basis (dimension X) j (- delta))))).
Proof.
  intros Hdelta Hx Hlen H.
  destruct (numericalDerivative11_columns (ChartY := EuclideanChart m') g x
              delta Hdelta) as (Hrows & Hcols & Hcol).
  cbn [local EuclideanChart] in Hrows.
  split; [|split].
  - subst H. rewrite Hrows, length_vsub by reflexivity. exact Hx.
  - exact Hcols.
  - intros j Hj. subst H. rewrite (Hcol j Hj). f_equal.
    unfold central_difference_column. cbn [local EuclideanChart].
    destruct (Hlen j Hj) as [Hp Hm].
    rewrite vsub_cancel by congruence. reflexivity.
Qed.

Lemma coeff_central_difference (gp gm : Vector) (a b : double)
    (delta : double) (i : nat) :
  gp !! i = Some a → gm !! i = Some b →
  ((λ c, c / (2 * delta))%Qc <$> vsub gp gm) !! i
  = Some ((a - b) / (2 * delta))%Qc.
Proof.
  intros Ha Hb. unfold vsub.
  rewrite list_lookup_fmap, lookup_zip_with, Ha, Hb. reflexivity.
Qed.

Section hessian_facts.
Context {X1 X2 : Type} `{Chart1 : Chart X1} `{Chart2 : Chart X2}.

Lemma numericalHessian212_coeff (f : X1 → X2 → double) (x1 : X1) (x2 : X2)
    (delta : double) :
  delta ≠ 0%Qc →
  let H := numericalHessian212 f x1 x2 delta in
  rows H = dimension X1 ∧ cols H = dimension X2 ∧
  ∀ i j, (i < dimension X1)%nat → (j < dimension X2)%nat →
    coeff H i j = Some (mixed_difference f x1 x2 delta i j).
Proof.
  intros Hdelta H. unfold numericalHessian212 in H.
  assert (Hlen : ∀ v, length (G_x1 f x1 delta v) = dimension X1).
  { intros v. apply numericalGradient_components. exact Hdelta. }
  destruct (numericalDerivative11_vector (G_x1 f x1 delta) x2 delta
              (dimension X1) (dimension X1) Hdelta (Hlen _))
    as (Hrows & Hcols & Hcol); [intros j _; split; apply Hlen|].
  split; [exact Hrows|]. split; [exact Hcols|].
  intros i j Hi Hj. unfold coeff. subst H. rewrite (Hcol j Hj). cbn.
  unfold G_x1.
  destruct (numericalGradient_components
              (λ a, f a (retract x2 (basis (dimension X2) j delta))) x1 delta
              Hdelta) as [_ Hp].
  destruct (numericalGradient_components
              (λ a, f a (retract x2 (basis (dimension X2) j (- delta)))) x1
              delta Hdelta) as [_ Hm].
  rewrite (coeff_central_difference _ _ _ _ delta i (Hp i Hi) (Hm i Hi)).
  f_equal. unfold central_difference, mixed_difference. field. nonzero.
Qed.
End hessian_facts.

Lemma numericalHessian_coeff {X : Type} `{ChartX : Chart X} (f : X → double)
    (x : X) (delta : double) :
  delta ≠ 0%Qc →
  let H := numericalHessian f x delta in
  rows H = dimension X ∧ cols H = dimension X ∧
  ∀ i j, (i < dimension X)%nat → (j < dimension X)%nat →
    coeff H i j = Some (second_difference f x delta i j).
Proof.
  intros Hdelta H. unfold numericalHessian in H.
  assert (Hlen : ∀ v, length (numericalGradient f v delta) = dimension X).
  { intros v. apply numericalGradient_components. exact Hdelta. }
  destruct (numericalDerivative11_vector
              (λ a, numericalGradient f a delta) x delta
              (dimension X) (dimension X) Hdelta (Hlen _))
    as (Hrows & Hcols & Hcol); [intros j _; split; apply Hlen|].
  split; [exact Hrows|]. split; [exact Hcols|].
  intros i j Hi Hj. unfold coeff. subst H. rewrite (Hcol j Hj). cbn.
  destruct (numericalGradient_components f
              (retract x (basis (dimension X) j delta)) delta Hdelta)
    as [_ Hp].
  destruct (numericalGradient_components f
              (retract x (basis (dimension X) j (- delta))) delta Hdelta)
    as [_ Hm].
  rewrite (coeff_central_difference _ _ _ _ delta i (Hp i Hi) (Hm i Hi)).
  f_equal. unfold central_difference, second_difference. field. nonzero.
Qed.

(** X10. [numericalHessian f x delta] is an [N]-by-[N] matrix.  The code
    nests two central differences, the derivative of the numerical
    gradient, and subtracts the gradient at [x] from both perturbed
    gradients before it takes their difference; in exact arithmetic its
    coefficient [(i, j)] is the second central difference of [f], in which
    the point is perturbed by [±delta] along coordinate [j], then by
    [±delta] along coordinate [i], and the four values are combined as
    [(f++ - f-+ - f+- + f--) / (2 delta)²].  (In the code's doubles the
    nested and the combined form differ by rounding error.) *)
Theorem numericalHessian_second_difference {X : Type} `{Chart X}
    (f : X → double) (x : X) (delta : double) :
  delta ≠ 0%Qc →
  rows (numericalHessian f x delta) = dimension X ∧
  cols (numericalHessian f x delta) = dimension X ∧
  ∀ i j, (i < dimension X)%nat → (j < dimension X)%nat →
    coeff (numericalHessian f x delta) i j
    = Some (second_difference f x delta i j).
Proof. intros Hdelta. apply numericalHessian_coeff. exact Hdelta. Qed.

Lemma numericalHessian_second_difference_witness :
  let f := λ v : Vector,
    (default 0 (v !! 0%nat) * default 0 (v !! 0%nat)
     * default 0 (v !! 1%nat))%Qc in
  rows (numericalHessian (Chart1 := EuclideanChart 2) f [1; 2]%Qc 1%Qc)
    = 2%nat ∧
  cols (numericalHessian (Chart1 := EuclideanChart 2) f [1; 2]%Qc 1%Qc)
    = 2%nat ∧
  ∀ i j, (i < 2)%nat → (j < 2)%nat →
    coeff (numericalHessian (Chart1 := EuclideanChart 2) f [1; 2]%Qc 1%Qc)
      i j
    = Some (second_difference (ChartX := EuclideanChart 2) f [1; 2]%Qc 1%Qc
              i j).
Proof.
  intros f.
  apply (numericalHessian_second_difference (H := EuclideanChart 2) f
           [1; 2]%Qc 1%Qc).
  discriminate.
Defined.

Lemma vadd_swap (x u v : Vector) : vadd (vadd x u) v = vadd (vadd x v) u.
Proof.
  rewrite !vadd_assoc. rewrite (vadd_comm u v). reflexivity.
Qed.

(** X11. In exact arithmetic the numerical Hessian on Euclidean vectors
    is symmetric: its coefficients [(i, j)] and [(j, i)] are equal, for
    every function, point and nonzero step.  (In the code's doubles the two
    coefficients are computed by different sequences of operations and
    differ by rounding error.) *)
Theorem numericalHessian_symmetric (n : nat) (f : Vector → double)
    (x : Vector) (delta : double) (i j : nat) :
  delta ≠ 0%Qc → (i < n)%nat → (j < n)%nat →
  coeff (numericalHessian (Chart1 := EuclideanChart n) f x delta) i j
  = coeff (numericalHessian (Chart1 := EuclideanChart n) f x delta) j i.
Proof.
  intros Hdelta Hi Hj.
  destruct (numericalHessian_coeff (ChartX := EuclideanChart n) f x delta
              Hdelta) as (_ & _ & Hc).
  cbn [dimension EuclideanChart] in Hc.
  rewrite (Hc i j Hi Hj), (Hc j i Hj Hi). f_equal.
  unfold second_difference. cbn [dimension EuclideanChart retract].
  rewrite (vadd_swap x (basis n j delta) (basis n i delta)).
  rewrite (vadd_swap x (basis n j delta) (basis n i (- delta)%Qc)).
  rewrite (vadd_swap x (basis n j (- delta)%Qc) (basis n i delta)).
  rewrite (vadd_swap x (basis n j (- delta)%Qc) (basis n i (- delta)%Qc)).
  unfold Qcdiv. ring.
Qed.

Lemma numericalHessian_symmetric_witness :
  let f := λ v : Vector,
    (default 0 (v !! 0%nat) * default 0 (v !! 0%nat)
     * default 0 (v !! 1%nat))%Qc in
  coeff (numericalHessian (Chart1 := EuclideanChart 2) f [1; 2]%Qc 1%Qc) 0 1
  = coeff (numericalHessian (Chart1 := EuclideanChart 2) f [1; 2]%Qc 1%Qc)
      1 0.
Proof.
  intros f.
  apply (numericalHessian_symmetric 2 f [1; 2]%Qc 1%Qc 0 1);
    [discriminate|lia|lia].
Defined.

(** X12. [numericalHessian212 f x1 x2 delta] is an [N1]-by-[N2] matrix.
    The code differentiates, in the second argument, the numerical
    gradient in the first; in exact arithmetic its coefficient [(i, j)] is
    the mixed second central difference of [f] along coordinate [i] of the
    first argument and coordinate [j] of the second.  (In the code's
    doubles the nested and the combined form differ by rounding error.) *)
Theorem numericalHessian212_mixed_difference {X1 X2 : Type} `{Chart X1}
    `{Chart X2} (f : X1 → X2 → double) (x1 : X1) (x2 : X2)
    (delta : double) :
  delta ≠ 0%Qc →
  rows (numericalHessian212 f x1 x2 delta) = dimension X1 ∧
  cols (numericalHessian212 f x1 x2 delta) = dimension X2 ∧
  ∀ i j, (i < dimension X1)%nat → (j < dimension X2)%nat →
    coeff (numericalHessian212 f x1 x2 delta) i j
    = Some (mixed_difference f x1 x2 delta i j).
Proof. intros Hdelta. apply numericalHessian212_coeff. exact Hdelta. Qed.

Lemma numericalHessian212_mixed_difference_witness :
  let f := λ a b : Vector,
    (default 0 (a !! 0%nat) * default 0 (a !! 1%nat)
     * default 0 (b !! 0%nat))%Qc in
  rows (numericalHessian212 (Chart1 := EuclideanChart 2)
          (Chart2 := EuclideanChart 1) f [1; 2]%Qc [2%Qc] 1%Qc) = 2%nat ∧
  cols (numericalHessian212 (Chart1 := EuclideanChart 2)
          (Chart2 := EuclideanChart 1) f [1; 2]%Qc [2%Qc] 1%Qc) = 1%nat ∧
  ∀ i j, (i < 2)%nat → (j < 1)%nat →
    coeff (numericalHessian212 (Chart1 := EuclideanChart 2)
             (Chart2 := EuclideanChart 1) f [1; 2]%Qc [2%Qc] 1%Qc) i j
    = Some (mixed_difference (Chart1 := EuclideanChart 2)
              (Chart2 := EuclideanChart 1) f [1; 2]%Qc [2%Qc] 1%Qc i j).
Proof.
  intros f.
  apply (numericalHessian212_mixed_difference (H := EuclideanChart 2)
           (H0 := EuclideanChart 1) f [1; 2]%Qc [2%Qc] 1%Qc).
  discriminate.
Defined.

(** *** Scenario 2: the Hessians of the inner product *)

Lemma vscale_basis (n j : nat) (a c : double) :
  vscale (basis n j a) c = basis n j (a * c)%Qc.
Proof.
  unfold vscale, basis. rewrite <- list_fmap_compose.
  apply list_fmap_ext. intros _ i _. cbn.
  destruct (decide (i = j)); [reflexivity|ring].
Qed.

Lemma basis_as_vscale (n j : nat) (c : double) :
  basis n j c = vscale (basis n j 1%Qc) c.
Proof. rewrite vscale_basis, Qcmult_1_l. reflexivity. Qed.

Lemma central_difference_translation (x c u : Vector) (delta : double) :
  delta ≠ 0%Qc →
  length c = length x → length u = length x →
  (λ a, a / (2 * delta))%Qc <$>
    vsub (vadd (vadd x (vscale c delta)) u)
         (vadd (vadd x (vscale c (- delta)%Qc)) u) = c.
Proof.
  intros Hdelta. revert c u.
  induction x as [|x0 x IH]; intros [|c0 c] [|u0 u] Hc Hu;
    try discriminate; [reflexivity|].
  cbn. f_equal; [field; nonzero|].
  apply IH; cbn in Hc, Hu; lia.
Qed.

(** The Jacobian of a function that translates the vectors of length [n]
    by [u] is the identity. *)
Lemma derivative_of_translation (n m' : nat) (g : Vector → Vector)
    (u x : Vector) (delta : double) :
  delta ≠ 0%Qc →
  length x = n → length u = n →
  (∀ v, length v = n → g v = vadd v u) →
  numericalDerivative11 (ChartX := EuclideanChart n)
    (ChartY := EuclideanChart m') g x delta = identity n.
Proof.
  intros Hdelta Hx Hu Hg.
  assert (Hpert : ∀ j c, length (vadd x (basis n j c)) = n).
  { intros j c. rewrite length_vadd; [exact Hx|].
    rewrite length_basis. exact Hx. }
  destruct (numericalDerivative11_vector (ChartX := EuclideanChart n) g x
              delta n m' Hdelta) as (Hrows & Hcols & Hcol).
  - rewrite Hg by exact Hx. rewrite length_vadd; lia.
  - intros j _. cbn [dimension EuclideanChart retract].
    rewrite !Hg by apply Hpert.
    split; (rewrite length_vadd; rewrite Hpert; [reflexivity|lia]).
  - cbn [dimension EuclideanChart retract] in Hcols, Hcol.
    apply matrix_eq; [exact Hrows| |].
    + rewrite Hcols. unfold cols. rewrite length_identity_columns.
      reflexivity.
    + intros j Hj. rewrite Hcols in Hj. rewrite (Hcol j Hj).
      unfold col, identity. cbn [columns].
      rewrite list_lookup_fmap, lookup_seq_lt by exact Hj. cbn. f_equal.
      rewrite !Hg by apply Hpert.
      rewrite (basis_as_vscale n j delta), (basis_as_vscale n j (- delta)).
      apply central_difference_translation; [exact Hdelta| |lia].
      rewrite length_basis. lia.
Qed.

(** The Jacobian of a function that is constant on the vectors of length
    [n] is zero. *)
Lemma derivative_of_constant_on (n m' : nat) (g : Vector → Vector)
    (u x : Vector) (delta : double) :
  delta ≠ 0%Qc →
  length x = n →
  (∀ v, length v = n → g v = u) →
  numericalDerivative11 (ChartX := EuclideanChart n)
    (ChartY := EuclideanChart m') g x delta = zeros (length u) n.
Proof.
  intros Hdelta Hx Hg.
  assert (Hpert : ∀ j c, length (vadd x (basis n j c)) = n).
  { intros j c. rewrite length_vadd; [exact Hx|].
    rewrite length_basis. exact Hx. }
  destruct (numericalDerivative11_vector (ChartX := EuclideanChart n) g x
              delta (length u) m' Hdelta) as (Hrows & Hcols & Hcol).
  - rewrite Hg by exact Hx. reflexivity.
  - intros j _. cbn [dimension EuclideanChart retract].
    rewrite !Hg by apply Hpert. split; reflexivity.
  - cbn [dimension EuclideanChart retract] in Hcols, Hcol.
    apply matrix_eq; [exact Hrows| |].
    + rewrite Hcols. unfold cols, zeros. cbn. rewrite length_replicate.
      reflexivity.
    + intros j Hj. rewrite Hcols in Hj. rewrite (Hcol j Hj).
      unfold col, zeros. cbn [columns].
      rewrite lookup_replicate_2 by exact Hj. f_equal.
      rewrite !Hg by apply Hpert. rewrite vsub_diag. apply fmap_div_zero.
Qed.

Lemma numericalGradient_dot_r (n : nat) (x1 x2 : Vector) (delta : double) :
  delta ≠ 0%Qc → length x1 = n → length x2 = n →
  numericalGradient (ChartX := EuclideanChart n) (λ b, dot x1 b) x2 delta
  = x1.
Proof.
  intros Hdelta H1 H2.
  transitivity (numericalGradient (ChartX := EuclideanChart n)
                  (λ a, dot a x1) x2 delta);
    [|apply numericalGradient_dot_l; assumption].
  apply numericalGradient_eq; try exact Hdelta.
  intros j Hj. unfold central_difference. rewrite !(dot_comm x1).
  reflexivity.
Qed.

(** X13. Scenario 2, Hessians, in exact arithmetic: for
    [f(x1, x2) = x1ᵗ x2] on Euclidean vectors of dimension [n], the mixed
    Hessian [numericalHessian212] is the identity matrix, and
    [numericalHessian211] and [numericalHessian222] are the zero matrix,
    at every nonzero step.  (The code computes in doubles, which adds
    rounding error to the entries.) *)
Theorem numericalHessian_dot (n : nat) (x1 x2 : Vector) (delta : double) :
  delta ≠ 0%Qc → length x1 = n → length x2 = n →
  numericalHessian212 (Chart1 := EuclideanChart n)
    (Chart2 := EuclideanChart n) dot x1 x2 delta = identity n ∧
  numericalHessian211 (Chart1 := EuclideanChart n) dot x1 x2 delta
  = zeros n n ∧
  numericalHessian222 (Chart2 := EuclideanChart n) dot x1 x2 delta
  = zeros n n.
Proof.
  intros Hdelta H1 H2. split; [|split].
  - unfold numericalHessian212. cbn [dimension EuclideanChart].
    apply (derivative_of_translation n n _ (zero n)); try assumption.
    + apply length_zero.
    + intros v Hv. unfold G_x1.
      rewrite (numericalGradient_dot_l n x1 v delta) by assumption.
      rewrite <- Hv. symmetry. apply vadd_zero_r.
  - unfold numericalHessian211. cbn [dimension EuclideanChart].
    replace (zeros n n) with (zeros (length x2) n)
      by (rewrite H2; reflexivity).
    apply derivative_of_constant_on; try assumption.
    intros v Hv. apply numericalGradient_dot_l; assumption.
  - unfold numericalHessian222. cbn [dimension EuclideanChart].
    replace (zeros n n) with (zeros (length x1) n)
      by (rewrite H1; reflexivity).
    apply derivative_of_constant_on; try assumption.
    intros v Hv. apply numericalGradient_dot_r; assumption.
Qed.

Lemma numericalHessian_dot_witness :
  numericalHessian212 (Chart1 := EuclideanChart 2)
    (Chart2 := EuclideanChart 2) dot [1; 2]%Qc [2; 2]%Qc 2%Qc = identity 2 ∧
  numericalHessian211 (Chart1 := EuclideanChart 2) dot [1; 2]%Qc [2; 2]%Qc
    2%Qc = zeros 2 2 ∧
  numericalHessian222 (Chart2 := EuclideanChart 2) dot [1; 2]%Qc [2; 2]%Qc
    2%Qc = zeros 2 2.
Proof.
  apply (numericalHessian_dot 2 [1; 2]%Qc [2; 2]%Qc 2%Qc);
    [discriminate|reflexivity|reflexivity].
Defined.

(** *** The Hessians of a function of three arguments *)

Lemma numericalGradient_pointwise {X : Type} `{Chart X} (f g : X → double)
    (x : X) (delta : double) :
  delta ≠ 0%Qc →
  (∀ v, f v = g v) →
  numericalGradient f x delta = numericalGradient g x delta.
Proof.
  intros Hdelta Hext. apply numericalGradient_eq; try exact Hdelta.
  intros j Hj. unfold central_difference. rewrite !Hext. reflexivity.
Qed.

(** A constant added to the function does not change the gradient. *)
Lemma numericalGradient_plus_constant {X : Type} `{Chart X} (f : X → double)
    (k : double) (x : X) (delta : double) :
  delta ≠ 0%Qc →
  numericalGradient (λ v, f v + k)%Qc x delta = numericalGradient f x delta.
Proof.
  intros Hdelta. apply numericalGradient_eq; try exact Hdelta.
  intros j Hj. unfold central_difference. field. nonzero.
Qed.

Lemma dot_vadd_r (a b c : Vector) :
  length b = length c →
  dot a (vadd b c) = (dot a b + dot a c)%Qc.
Proof.
  intros Hlen. rewrite (dot_comm a), dot_vadd_l by exact Hlen.
  rewrite !(dot_comm a). reflexivity.
Qed.

Section ternary_scenario.
Variable n : nat.
Variables x1 x2 x3 : Vector.
Variable delta : double.
Hypothesis Hdelta : delta ≠ 0%Qc.
Hypothesis H1 : length x1 = n.
Hypothesis H2 : length x2 = n.
Hypothesis H3 : length x3 = n.

(** [f(a, b, c) = aᵗ b + bᵗ c]. *)
Let f (a b c : Vector) : double := (dot a b + dot b c)%Qc.

Lemma ternary_gradient_1 (a b c : Vector) :
  length a = n → length b = n →
  numericalGradient (ChartX := EuclideanChart n) (λ v, f v b c) a delta = b.
Proof.
  intros Ha Hb. unfold f.
  rewrite numericalGradient_plus_constant by exact Hdelta.
  apply numericalGradient_dot_l; assumption.
Qed.

Lemma ternary_gradient_2 (a b c : Vector) :
  length a = n → length b = n → length c = n →
  numericalGradient (ChartX := EuclideanChart n) (λ v, f a v c) b delta
  = vadd a c.
Proof.
  intros Ha Hb Hc. unfold f.
  rewrite (numericalGradient_pointwise _ (λ v, dot v (vadd a c)))
    by (exact Hdelta ||
        (intros v; rewrite dot_vadd_r by lia; rewrite (dot_comm a);
         reflexivity)).
  apply numericalGradient_dot_l; [exact Hdelta|exact Hb|].
  rewrite length_vadd; lia.
Qed.

Lemma ternary_gradient_3 (a b c : Vector) :
  length b = n → length c = n →
  numericalGradient (ChartX := EuclideanChart n) (λ v, f a b v) c delta = b.
Proof.
  intros Hb Hc. unfold f.
  rewrite (numericalGradient_pointwise _ (λ v, dot b v + dot a b)%Qc)
    by (exact Hdelta || (intros v; ring)).
  rewrite numericalGradient_plus_constant by exact Hdelta.
  apply numericalGradient_dot_r; assumption.
Qed.

Lemma ternary_hessians :
  numericalHessian311 (Chart1 := EuclideanChart n) f x1 x2 x3 delta
  = zeros n n ∧
  numericalHessian322 (Chart2 := EuclideanChart n) f x1 x2 x3 delta
  = zeros n n ∧
  numericalHessian333 (Chart3 := EuclideanChart n) f x1 x2 x3 delta
  = zeros n n ∧
  numericalHessian312 (Chart1 := EuclideanChart n)
    (Chart2 := EuclideanChart n) f x1 x2 x3 delta = identity n ∧
  numericalHessian313 (Chart1 := EuclideanChart n)
    (Chart3 := EuclideanChart n) f x1 x2 x3 delta = zeros n n ∧
  numericalHessian323 (Chart2 := EuclideanChart n)
    (Chart3 := EuclideanChart n) f x1 x2 x3 delta = identity n.
Proof.
  repeat split.
  - unfold numericalHessian311. cbn [dimension EuclideanChart].
    replace (zeros n n) with (zeros (length x2) n)
      by (rewrite H2; reflexivity).
    apply derivative_of_constant_on; try assumption.
    intros v Hv. apply ternary_gradient_1; assumption.
  - unfold numericalHessian322. cbn [dimension EuclideanChart].
    replace (zeros n n) with (zeros (length (vadd x1 x3)) n)
      by (rewrite length_vadd; [rewrite H1; reflexivity|lia]).
    apply derivative_of_constant_on; try assumption.
    intros v Hv. apply ternary_gradient_2; assumption.
  - unfold numericalHessian333. cbn [dimension EuclideanChart].
    replace (zeros n n) with (zeros (length x2) n)
      by (rewrite H2; reflexivity).
    apply derivative_of_constant_on; try assumption.
    intros v Hv. apply ternary_gradient_3; assumption.
  - unfold numericalHessian312, numericalHessian212.
    cbn [dimension EuclideanChart].
    apply (derivative_of_translation n n _ (zero n)); try assumption.
    + apply length_zero.
    + intros v Hv. unfold G_x1.
      rewrite (ternary_gradient_1 x1 v x3) by assumption.
      rewrite <- Hv. symmetry. apply vadd_zero_r.
  - unfold numericalHessian313, numericalHessian212.
    cbn [dimension EuclideanChart].
    replace (zeros n n) with (zeros (length x2) n)
      by (rewrite H2; reflexivity).
    apply derivative_of_constant_on; try assumption.
    intros v Hv. unfold G_x1. apply ternary_gradient_1; assumption.
  - unfold numericalHessian323, numericalHessian212.
    cbn [dimension EuclideanChart].
    apply (derivative_of_translation n n _ x1); try assumption.
    intros v Hv. unfold G_x1.
    rewrite (ternary_gradient_2 x1 x2 v) by assumption.
    apply vadd_comm.
Qed.
End ternary_scenario.

(** X14. The six Hessians of a function of three arguments bind the
    arguments by position.  In exact arithmetic, for
    [f(x1, x2, x3) = x1ᵗ x2 + x2ᵗ x3] on Euclidean vectors of dimension
    [n], [numericalHessian312] and [numericalHessian323] are the identity
    matrix, and [numericalHessian313], [numericalHessian311],
    [numericalHessian322] and [numericalHessian333] are the zero matrix.
    (The code computes in doubles, which adds rounding error to the
    entries.) *)
Theorem numericalHessian3_dot (n : nat) (x1 x2 x3 : Vector)
    (delta : double) :
  delta ≠ 0%Qc → length x1 = n → length x2 = n → length x3 = n →
  let f := λ a b c : Vector, (dot a b + dot b c)%Qc in
  numericalHessian311 (Chart1 := EuclideanChart n) f x1 x2 x3 delta
  = zeros n n ∧
  numericalHessian322 (Chart2 := EuclideanChart n) f x1 x2 x3 delta
  = zeros n n ∧
  numericalHessian333 (Chart3 := EuclideanChart n) f x1 x2 x3 delta
  = zeros n n ∧
  numericalHessian312 (Chart1 := EuclideanChart n)
    (Chart2 := EuclideanChart n) f x1 x2 x3 delta = identity n ∧
  numericalHessian313 (Chart1 := EuclideanChart n)
    (Chart3 := EuclideanChart n) f x1 x2 x3 delta = zeros n n ∧
  numericalHessian323 (Chart2 := EuclideanChart n)
    (Chart3 := EuclideanChart n) f x1 x2 x3 delta = identity n.
Proof.
  intros Hdelta H1 H2 H3 f.
  apply (ternary_hessians n x1 x2 x3 delta Hdelta H1 H2 H3).
Qed.

Lemma numericalHessian3_dot_witness :
  let f := λ a b c : Vector, (dot a b + dot b c)%Qc in
  numericalHessian311 (Chart1 := EuclideanChart 2) f [1; 2]%Qc [2; 2]%Qc
    [0; 1]%Qc 2%Qc = zeros 2 2 ∧
  numericalHessian322 (Chart2 := EuclideanChart 2) f [1; 2]%Qc [2; 2]%Qc
    [0; 1]%Qc 2%Qc = zeros 2 2 ∧
  numericalHessian333 (Chart3 := EuclideanChart 2) f [1; 2]%Qc [2; 2]%Qc
    [0; 1]%Qc 2%Qc = zeros 2 2 ∧
  numericalHessian312 (Chart1 := EuclideanChart 2)
    (Chart2 := EuclideanChart 2) f [1; 2]%Qc [2; 2]%Qc [0; 1]%Qc 2%Qc
  = identity 2 ∧
  numericalHessian313 (Chart1 := EuclideanChart 2)
    (Chart3 := EuclideanChart 2) f [1; 2]%Qc [2; 2]%Qc [0; 1]%Qc 2%Qc
  = zeros 2 2 ∧
  numericalHessian323 (Chart2 := EuclideanChart 2)
    (Chart3 := EuclideanChart 2) f [1; 2]%Qc [2; 2]%Qc [0; 1]%Qc 2%Qc
  = identity 2.
Proof.
  intros f.
  apply (numericalHessian3_dot 2 [1; 2]%Qc [2; 2]%Qc [0; 1]%Qc 2%Qc);
    [discriminate|reflexivity|reflexivity|reflexivity].
Defined.

(** ** Blocks of an assembled system *)

Lemma length_hcat (Bs : list Matrix) :
  length (hcat Bs) = sum_list (cols <$> Bs).
Proof.
  unfold hcat. induction Bs as [|B Bs IH]; [reflexivity|].
  cbn. rewrite length_app, IH. reflexivity.
Qed.

Lemma offset_fmap_cols (Bs : list Matrix) (tail : list nat) (i : nat) :
  (i ≤ length Bs)%nat →
  offset ((cols <$> Bs) ++ tail) i = length (hcat (take i Bs)).
Proof.
  intros Hi. unfold offset.
  rewrite take_app_le by (rewrite length_fmap; exact Hi).
  rewrite length_hcat, fmap_take. reflexivity.
Qed.

Lemma hcat_take_drop (Bs : list Matrix) (i : nat) (B : Matrix) :
  Bs !! i = Some B →
  hcat Bs = hcat (take i Bs) ++ columns B ++ hcat (drop (S i) Bs).
Proof.
  intros HB. rewrite <- (take_drop_middle Bs i B HB) at 1.
  unfold hcat. rewrite fmap_app, concat_app. reflexivity.
Qed.

(** Block [i] of the matrix [[B1 .. Bn rest]] is [Bi]. *)
Lemma block_hcat (Bs : list Matrix) (tail : list nat) (rest : list Vector)
    (r i : nat) (B : Matrix) :
  Bs !! i = Some B →
  block (mkVBM ((cols <$> Bs) ++ tail) (mkMatrix r (hcat Bs ++ rest))) i
  = mkMatrix r (columns B).
Proof.
  intros HB. unfold block. cbn [blockDims matrix rows columns].
  assert (Hi : (i < length Bs)%nat) by (eapply lookup_lt_Some; exact HB).
  rewrite offset_fmap_cols by lia.
  rewrite lookup_app_l by (rewrite length_fmap; exact Hi).
  rewrite list_lookup_fmap, HB. cbn [fmap option_fmap option_map default].
  rewrite (hcat_take_drop Bs i B HB), <- !app_assoc.
  rewrite drop_app_length. f_equal. apply take_app_length.
Qed.

(** The right-hand side column of [[B1 .. Bn b]]. *)
Lemma rhs_hcat (Bs : list Matrix) (b : Vector) (r : nat) :
  col (mkMatrix r (hcat Bs ++ [b]))
    (offset ((cols <$> Bs) ++ [1%nat]) (length Bs)) = Some b.
Proof.
  unfold col. cbn [columns]. rewrite offset_fmap_cols by lia.
  rewrite firstn_all. apply list_lookup_middle. reflexivity.
Qed.

Section terms_facts.
Context {NM : Type}.

Lemma getb_of_terms (terms : list (Key * Matrix)) (b : Vector) :
  getb (NM := NM) (JacobianFactor_of_terms terms b) = b.
Proof.
  unfold getb, JacobianFactor_of_terms, jf_size.
  cbn [jf_keys jf_Ab blockDims matrix].
  rewrite list_fmap_compose, length_fmap.
  rewrite <- (length_fmap snd terms), rhs_hcat. reflexivity.
Qed.

Lemma getA_of_terms (terms : list (Key * Matrix)) (b : Vector) (i : nat)
    (key : Key) (J : Matrix) :
  terms !! i = Some (key, J) →
  getA (NM := NM) (JacobianFactor_of_terms terms b) i
  = mkMatrix (length b) (columns J).
Proof.
  intros Hi. unfold getA, JacobianFactor_of_terms. cbn [jf_Ab].
  rewrite list_fmap_compose. apply block_hcat.
  rewrite list_lookup_fmap, Hi. reflexivity.
Qed.
End terms_facts.

(** ** The harness on a factor with several keys *)

Section harness_general.
Context {Value : Type} `{GV : GenericValue Value} {NM : Type}.

Lemma zeroVectors_delta_for (values : gmap Key Value) :
  delta_for values (zeroVectors values).
Proof.
  split; [apply dom_zeroVectors|]. intros k v Hv.
  exists (zero (dim v)). split; [|apply length_zero].
  unfold zeroVectors. rewrite lookup_fmap, Hv. reflexivity.
Qed.

Lemma visited_entry_delta_for (values : gmap Key Value) (fd_step : double)
    (dX : gmap Key Vector) (key : Key) :
  delta_for values dX → delta_for values (visited_entry values fd_step dX key).
Proof.
  intros [Hdom Hlen]. unfold visited_entry.
  destruct (values !! key) as [v|] eqn:Hv; [|split; assumption].
  destruct (dim v) as [|n] eqn:Hn; [split; assumption|]. split.
  - rewrite <- Hdom. apply dom_insert_lookup_L.
    destruct (Hlen key v Hv) as (d & Hd & _). eexists. exact Hd.
  - intros k w Hw. destruct (decide (k = key)) as [->|Hne].
    + rewrite lookup_insert_eq. eexists. split; [reflexivity|].
      rewrite length_basis. congruence.
    + rewrite lookup_insert_ne by congruence. apply Hlen. exact Hw.
Qed.

Lemma visited_delta_snoc (values : gmap Key Value) (fd_step : double)
    (visited : list Key) (key : Key) :
  visited_delta values fd_step (visited ++ [key])
  = visited_entry values fd_step (visited_delta values fd_step visited) key.
Proof. unfold visited_delta. rewrite foldl_app. reflexivity. Qed.

Lemma visited_delta_delta_for (values : gmap Key Value) (fd_step : double)
    (visited : list Key) :
  delta_for values (visited_delta values fd_step visited).
Proof.
  induction visited as [|key visited IH] using rev_ind.
  - apply zeroVectors_delta_for.
  - rewrite visited_delta_snoc. apply visited_entry_delta_for. exact IH.
Qed.

(** One iteration of the loop over the keys. *)
Lemma harness_key_spec (factor : FactorType Value NM)
    (values : gmap Key Value) (fd_step : double) (m : nat) (key : Key)
    (v : Value) (jacobians : list (Key * Matrix)) (dX0 : gmap Key Vector) :
  fd_step ≠ 0%Qc →
  evaluable factor values →
  delta_for values dX0 →
  values !! key = Some v →
  ∃ J, harness_key factor values fd_step m key (jacobians, dX0)
       = Return (map_assign key J jacobians,
                 visited_entry values fd_step dX0 key) ∧
    rows J = m ∧ cols J = dim v ∧
    ∀ j, (j < dim v)%nat →
      ∃ c, central_difference_around factor values fd_step dX0 key (dim v) j
           = Return c ∧ col J j = Some c.
Proof.
  intros Hfd Heval [Hdom Hlen] Hv.
  assert (Hkey : key ∈ dom values) by (apply elem_of_dom; eexists; exact Hv).
  destruct (Hlen key v Hv) as (d & Hd & Hdl).
  unfold harness_key, VectorValues_dim. rewrite Hd.
  cbn [mbind result_bind]. rewrite Hdl.
  destruct (harness_columns_loop factor values fd_step key m (dim v) dX0
              Hfd Heval Hdom Hkey)
    as (J & dX' & -> & Hrows & Hcols & Hcol & HdX').
  cbn [mbind result_bind]. exists J. split; [|auto].
  f_equal. f_equal. rewrite HdX'. unfold visited_entry. rewrite Hv.
  destruct (dim v); reflexivity.
Qed.

(** The loop over strictly ascending keys: the map holds one Jacobian per
    key, in the order of the keys, each differentiated around the delta
    map the previous keys have left. *)
Lemma harness_loop_spec (factor : FactorType Value NM)
    (values : gmap Key Value) (fd_step : double) (m : nat) :
  fd_step ≠ 0%Qc →
  evaluable factor values →
  StronglySorted N.lt (factor_keys factor) →
  (∀ k, k ∈ factor_keys factor → k ∈ dom values) →
  ∃ jacobians dX,
    foldM (harness_key factor values fd_step m) (factor_keys factor)
      ([], zeroVectors values) = Return (jacobians, dX) ∧
    jacobians.*1 = factor_keys factor ∧
    ∀ i key v, factor_keys factor !! i = Some key → values !! key = Some v →
      ∃ J, jacobians !! i = Some (key, J) ∧
        rows J = m ∧ cols J = dim v ∧
        ∀ j, (j < dim v)%nat →
          ∃ c, central_difference_around factor values fd_step
                 (visited_delta values fd_step (take i (factor_keys factor)))
                 key (dim v) j = Return c ∧
               col J j = Some c.
Proof.
  intros Hfd Heval Hsorted Hkeys.
  destruct (foldM_inv (λ pre (s : list (Key * Matrix) * gmap Key Vector),
              s.2 = visited_delta values fd_step pre ∧
              s.1.*1 = pre ∧
              ∀ i key v, pre !! i = Some key → values !! key = Some v →
                ∃ J, s.1 !! i = Some (key, J) ∧
                  rows J = m ∧ cols J = dim v ∧
                  ∀ j, (j < dim v)%nat →
                    ∃ c, central_difference_around factor values fd_step
                           (visited_delta values fd_step (take i pre))
                           key (dim v) j = Return c ∧
                         col J j = Some c)
              (harness_key factor values fd_step m) (factor_keys factor)
              ([], zeroVectors values))
    as ([jacobians dX] & Hret & _ & Hfst & Hspec).
  - cbn. split; [reflexivity|]. split; [reflexivity|].
    intros i key v Hi. discriminate.
  - intros pre key [jacobians dX] Hpre (HdX & Hfst & Hspec).
    cbn [fst snd] in HdX, Hfst, Hspec. subst dX.
    assert (Hkey : key ∈ dom values).
    { apply Hkeys. destruct Hpre as [suf ->].
      rewrite !elem_of_app, list_elem_of_singleton. tauto. }
    apply elem_of_dom in Hkey as [v Hv].
    destruct (harness_key_spec factor values fd_step m key v jacobians
                (visited_delta values fd_step pre) Hfd Heval
                (visited_delta_delta_for values fd_step pre) Hv)
      as (J & Hstep & Hrows & Hcols & Hcol).
    assert (Happ : map_assign key J jacobians = jacobians ++ [(key, J)]).
    { apply map_assign_above. rewrite Hfst.
      destruct Hpre as [suf Heq]. rewrite Heq in Hsorted.
      apply StronglySorted_app_1_l in Hsorted.
      apply StronglySorted_app in Hsorted as (Hlt & _ & _).
      apply Forall_forall. intros k Hk. apply Hlt; [exact Hk|].
      apply list_elem_of_singleton. reflexivity. }
    eexists. split; [exact Hstep|]. cbn [fst snd]. rewrite Happ.
    split; [symmetry; apply visited_delta_snoc|].
    split; [rewrite fmap_app, Hfst; reflexivity|].
    assert (Hlen : length jacobians = length pre)
      by (rewrite <- Hfst, length_fmap; reflexivity).
    intros i key' v' Hi Hv'.
    destruct (decide (i < length pre)%nat) as [Hlt|Hge].
    + rewrite lookup_app_l in Hi by exact Hlt.
      destruct (Hspec i key' v' Hi Hv') as (J' & HJ' & Hr' & Hc' & Hcol').
      exists J'. rewrite lookup_app_l by lia.
      rewrite take_app_le by lia. auto.
    + rewrite lookup_app_r in Hi by lia.
      destruct (i - length pre)%nat eqn:Hdiff; [|discriminate].
      assert (i = length pre) by lia. subst i.
      cbn in Hi. injection Hi as <-.
      assert (v' = v) by congruence. subst v'.
      exists J. rewrite lookup_app_r by lia.
      rewrite Hlen, Nat.sub_diag. cbn.
      rewrite take_app_length. auto.
  - exists jacobians, dX. auto.
Qed.

Lemma harness_general (factor : FactorType Value NM)
    (values : gmap Key Value) (fd_step : double) (e : Vector) :
  fd_step ≠ 0%Qc →
  evaluable factor values →
  StronglySorted N.lt (factor_keys factor) →
  (∀ k, k ∈ factor_keys factor → k ∈ dom values) →
  factor_unwhitenedError factor values = Return e →
  ∃ jf, computeNumericalDerivativeJacobianFactor factor values fd_step
        = Return jf ∧
    jf_keys jf = factor_keys factor ∧
    getb jf = vneg e ∧
    ∀ i key v, factor_keys factor !! i = Some key → values !! key = Some v →
      rows (getA jf i) = length e ∧ cols (getA jf i) = dim v ∧
      ∀ j, (j < dim v)%nat →
        ∃ c, central_difference_around factor values fd_step
               (visited_delta values fd_step (take i (factor_keys factor)))
               key (dim v) j = Return c ∧
             col (getA jf i) j = Some c.
Proof.
  intros Hfd Heval Hsorted Hkeys He.
  unfold computeNumericalDerivativeJacobianFactor.
  rewrite He. cbn [mbind result_bind].
  destruct (harness_loop_spec factor values fd_step (length e) Hfd Heval
              Hsorted Hkeys) as (jacobians & dX & -> & Hfst & Hspec).
  cbn [mbind result_bind]. eexists. split; [reflexivity|].
  split; [exact Hfst|]. split; [apply getb_of_terms|].
  intros i key v Hi Hv.
  destruct (Hspec i key v Hi Hv) as (J & HJ & Hrows & Hcols & Hcol).
  rewrite (getA_of_terms jacobians (vneg e) i key J HJ).
  unfold vneg. rewrite length_fmap. cbn [rows]. split; [reflexivity|].
  split; [exact Hcols|]. exact Hcol.
Qed.
End harness_general.

Lemma foldM_app {A S : Type} (body : A → S → result S) (l1 l2 : list A)
    (s : S) :
  foldM body (l1 ++ l2) s = (s' ← foldM body l1 s; foldM body l2 s').
Proof.
  revert s. induction l1 as [|a l1 IH]; intros s; [reflexivity|].
  cbn [app foldM]. destruct (body a s) as [s1|ex]; [|reflexivity].
  cbn [mbind result_bind]. apply IH.
Qed.

(** A list with an element outside [D] splits at the first such element. *)
Lemma first_outside (D : gset N) (l : list N) :
  (∃ k, k ∈ l ∧ k ∉ D) →
  ∃ pre k suf, l = pre ++ k :: suf ∧ (k ∉ D) ∧ ∀ k', k' ∈ pre → k' ∈ D.
Proof.
  induction l as [|a l IH]; intros (k & Hk & Hout).
  - apply elem_of_nil in Hk. contradiction.
  - destruct (decide (a ∈ D)) as [Hin|Hnin].
    + apply elem_of_cons in Hk as [->|Hk]; [contradiction|].
      destruct IH as (pre & k' & suf & -> & Hk' & Hpre);
        [exists k; split; assumption|].
      exists (a :: pre), k', suf. split; [reflexivity|]. split; [exact Hk'|].
      intros k'' Hk''. apply elem_of_cons in Hk'' as [->|Hk''];
        [exact Hin|apply Hpre; exact Hk''].
    + exists [], a, l. split; [reflexivity|]. split; [exact Hnin|].
      intros k' Hk'. apply elem_of_nil in Hk'. contradiction.
Qed.

Section harness_errors.
Context {Value : Type} `{GV : GenericValue Value} {NM : Type}.

(** The loop over keys that are all in [values] returns, with a delta map
    over the keys of [values]. *)
Lemma harness_loop_ok (factor : FactorType Value NM)
    (values : gmap Key Value) (fd_step : double) (m : nat)
    (keys : list Key) :
  evaluable factor values →
  (∀ k, k ∈ keys → k ∈ dom values) →
  ∃ jacobians dX,
    foldM (harness_key factor values fd_step m) keys
      ([], zeroVectors values) = Return (jacobians, dX) ∧
    dom dX = dom values.
Proof.
  intros Heval Hkeys.
  destruct (foldM_inv (λ _ (s : list (Key * Matrix) * gmap Key Vector),
              dom s.2 = dom values)
              (harness_key factor values fd_step m) keys
              ([], zeroVectors values)) as ([jacobians dX] & Hret & Hdom).
  - apply dom_zeroVectors.
  - intros pre key [jacobians dX] Hpre Hdom. cbn [snd] in Hdom.
    assert (Hkey : key ∈ dom values).
    { apply Hkeys. destruct Hpre as [suf ->].
      rewrite !elem_of_app, list_elem_of_singleton. tauto. }
    destruct (harness_key_ok factor values fd_step m key jacobians dX
                Heval Hdom Hkey) as (J & dX' & Hstep & Hdom').
    eexists. split; [exact Hstep|exact Hdom'].
  - exists jacobians, dX. split; [exact Hret|exact Hdom].
Qed.

Lemma harness_missing_key_throws (factor : FactorType Value NM)
    (values : gmap Key Value) (fd_step : double) :
  evaluable factor values →
  (∃ k, k ∈ factor_keys factor ∧ k ∉ dom values) →
  computeNumericalDerivativeJacobianFactor factor values fd_step
  = Throw out_of_range.
Proof.
  intros Heval Hmissing.
  destruct (first_outside (dom values) (factor_keys factor) Hmissing)
    as (pre & k & suf & Hsplit & Hout & Hpre).
  unfold computeNumericalDerivativeJacobianFactor.
  destruct (Heval values eq_refl) as [e ->]. cbn [mbind result_bind].
  rewrite Hsplit, foldM_app.
  destruct (harness_loop_ok factor values fd_step (length e) pre Heval Hpre)
    as (jacobians & dX & -> & Hdom).
  rewrite <- Hdom in Hout. apply not_elem_of_dom in Hout.
  cbn. unfold VectorValues_dim. rewrite Hout. reflexivity.
Qed.

(** The right-hand side of the system, for keys in any order. *)
Lemma harness_rhs (factor : FactorType Value NM)
    (values : gmap Key Value) (fd_step : double) (e : Vector) :
  evaluable factor values →
  (∀ k, k ∈ factor_keys factor → k ∈ dom values) →
  factor_unwhitenedError factor values = Return e →
  ∃ jf, computeNumericalDerivativeJacobianFactor factor values fd_step
        = Return jf ∧ getb jf = vneg e.
Proof.
  intros Heval Hkeys He. unfold computeNumericalDerivativeJacobianFactor.
  rewrite He. cbn [mbind result_bind].
  destruct (harness_loop_ok factor values fd_step (length e)
              (factor_keys factor) Heval Hkeys) as (jacobians & dX & -> & _).
  cbn [mbind result_bind]. eexists. split; [reflexivity|].
  apply getb_of_terms.
Qed.
End harness_errors.

(** X15. On a factor whose keys are declared in strictly ascending order
    and are all in [values], the harness returns a system with the
    factor's keys, right-hand side [-e] and, for the key at position [i],
    a block with [|e|] rows and as many columns as the variable has
    tangent coordinates; column [j] of that block is the central
    difference of the error along coordinate [j] of that key, taken around
    the delta map that the keys before position [i] have left, which
    holds [-fd_step] in the last coordinate of each of them. *)
Theorem harness_blocks_around_visited_delta {Value NM : Type}
    `{GenericValue Value} (factor : FactorType Value NM)
    (values : gmap Key Value) (fd_step : double) (e : Vector) :
  fd_step ≠ 0%Qc →
  evaluable factor values →
  StronglySorted N.lt (factor_keys factor) →
  (∀ k, k ∈ factor_keys factor → k ∈ dom values) →
  factor_unwhitenedError factor values = Return e →
  ∃ jf, computeNumericalDerivativeJacobianFactor factor values fd_step
        = Return jf ∧
    jf_keys jf = factor_keys factor ∧
    getb jf = vneg e ∧
    ∀ i key v, factor_keys factor !! i = Some key → values !! key = Some v →
      rows (getA jf i) = length e ∧ cols (getA jf i) = dim v ∧
      ∀ j, (j < dim v)%nat →
        ∃ c, central_difference_around factor values fd_step
               (visited_delta values fd_step (take i (factor_keys factor)))
               key (dim v) j = Return c ∧
             col (getA jf i) j = Some c.
Proof. apply harness_general. Qed.

Lemma ProductFactor_evaluable (key1 key2 : Key) (a b : Vector) :
  evaluable (ProductFactor key1 key2) (<[key1 := a]> {[ key2 := b ]}).
Proof.
  intros x Hdom. unfold ProductFactor, factor_unwhitenedError, Values_at.
  assert (H1 : key1 ∈ dom x).
  { rewrite Hdom. apply elem_of_dom. rewrite lookup_insert_eq. eauto. }
  assert (H2 : key2 ∈ dom x).
  { rewrite Hdom. apply elem_of_dom.
    destruct (decide (key1 = key2)) as [->|Hne];
      [rewrite lookup_insert_eq|
       rewrite lookup_insert_ne, lookup_singleton_eq by exact Hne]; eauto. }
  apply elem_of_dom in H1 as [a' ->]. apply elem_of_dom in H2 as [b' ->].
  eexists. reflexivity.
Qed.

Lemma ascending_1_2 : StronglySorted N.lt [1%N; 2%N].
Proof. repeat constructor. Qed.

Lemma keys_1_2_present (a b : Vector) (k : Key) :
  k ∈ [1%N; 2%N] → k ∈ dom (<[1%N := a]> ({[ 2%N := b ]} : gmap Key Vector)).
Proof.
  intros Hk. apply elem_of_cons in Hk as [->|Hk];
    [|apply list_elem_of_singleton in Hk as ->];
    apply elem_of_dom; eexists; reflexivity.
Qed.

Lemma harness_blocks_around_visited_delta_witness :
  let factor := ProductFactor 1 2 in
  let values : gmap Key Vector := <[1%N := [2%Qc]]> {[ 2%N := [1%Qc] ]} in
  ∃ jf, computeNumericalDerivativeJacobianFactor factor values 1%Qc
        = Return jf ∧
    jf_keys jf = [1%N; 2%N] ∧
    getb jf = vneg [2%Qc] ∧
    ∀ i key v, [1%N; 2%N] !! i = Some key → values !! key = Some v →
      rows (getA jf i) = 1%nat ∧ cols (getA jf i) = dim v ∧
      ∀ j, (j < dim v)%nat →
        ∃ c, central_difference_around factor values 1%Qc
               (visited_delta values 1%Qc (take i [1%N; 2%N]))
               key (dim v) j = Return c ∧
             col (getA jf i) j = Some c.
Proof.
  intros factor values.
  apply (harness_blocks_around_visited_delta factor values 1%Qc [2%Qc]).
  - discriminate.
  - apply ProductFactor_evaluable.
  - apply ascending_1_2.
  - apply keys_1_2_present.
  - by_compute.
Defined.

Lemma foldM_preserves {A S : Type} (P : S → Prop) (body : A → S → result S)
    (l : list A) (s s' : S) :
  (∀ a s0 s1, P s0 → body a s0 = Return s1 → P s1) →
  P s → foldM body l s = Return s' → P s'.
Proof.
  intros Hstep. revert s. induction l as [|a l IH]; intros s HP Hret.
  - cbn in Hret. injection Hret as <-. exact HP.
  - cbn [foldM] in Hret. destruct (body a s) as [s1|ex] eqn:Hbody;
      [|discriminate].
    cbn in Hret. apply (IH s1); [|exact Hret].
    apply (Hstep a s s1); assumption.
Qed.

Lemma VectorValues_assign_dom (dX dX' : gmap Key Vector) (key : Key)
    (dx : Vector) :
  VectorValues_assign dX key dx = Return dX' → dom dX' = dom dX.
Proof.
  unfold VectorValues_assign. destruct (dX !! key) as [d|] eqn:Hd;
    [|discriminate].
  intros [= <-]. apply dom_insert_lookup_L. eexists. exact Hd.
Qed.

Section harness_partial.
Context {Value : Type} `{GV : GenericValue Value} {NM : Type}.

Lemma harness_column_dom (factor : FactorType Value NM)
    (values : gmap Key Value) (fd_step : double) (key : Key)
    (cols col : nat) (s s' : Matrix * gmap Key Vector) :
  harness_column factor values fd_step key cols col s = Return s' →
  dom s'.2 = dom s.2.
Proof.
  destruct s as [J dX]. unfold harness_column.
  destruct (VectorValues_assign dX key _) as [dX1|] eqn:H1; [|discriminate].
  cbn [mbind result_bind].
  destruct (factor_unwhitenedError factor _) as [left|]; [|discriminate].
  cbn [mbind result_bind].
  destruct (VectorValues_assign dX1 key _) as [dX2|] eqn:H2; [|discriminate].
  cbn [mbind result_bind].
  destruct (factor_unwhitenedError factor _) as [right|]; [|discriminate].
  cbn [mbind result_bind]. intros [= <-]. cbn [snd].
  rewrite (VectorValues_assign_dom _ _ _ _ H2).
  apply (VectorValues_assign_dom _ _ _ _ H1).
Qed.

Lemma harness_key_dom (factor : FactorType Value NM)
    (values : gmap Key Value) (fd_step : double) (m : nat) (key : Key)
    (s s' : list (Key * Matrix) * gmap Key Vector) :
  harness_key factor values fd_step m key s = Return s' →
  dom s'.2 = dom s.2.
Proof.
  destruct s as [jacobians dX]. unfold harness_key.
  destruct (VectorValues_dim dX key) as [cols|]; [|discriminate].
  cbn [mbind result_bind].
  destruct (for_loopM cols _ _) as [[J dX']|] eqn:Hloop; [|discriminate].
  cbn [mbind result_bind]. intros [= <-]. cbn [snd].
  unfold for_loopM in Hloop.
  apply (foldM_preserves (λ s : Matrix * gmap Key Vector, dom s.2 = dom dX)
           _ _ _ _) in Hloop; [exact Hloop| |reflexivity].
  intros col s0 s1 Hs0 Hstep. rewrite <- Hs0.
  apply (harness_column_dom _ _ _ _ _ _ _ _ Hstep).
Qed.
End harness_partial.

(** X16. When a key of the factor is absent from [values], the harness
    returns no linear system, whatever the factor's error function does:
    the call ends in an exception. *)
Theorem harness_missing_key_never_returns {Value NM : Type}
    `{GenericValue Value} (factor : FactorType Value NM)
    (values : gmap Key Value) (fd_step : double) :
  (∃ k, k ∈ factor_keys factor ∧ k ∉ dom values) →
  ∃ ex, computeNumericalDerivativeJacobianFactor factor values fd_step
        = Throw ex.
Proof.
  intros Hmissing.
  destruct (first_outside (dom values) (factor_keys factor) Hmissing)
    as (pre & k & suf & Hsplit & Hout & _).
  unfold computeNumericalDerivativeJacobianFactor.
  destruct (factor_unwhitenedError factor values) as [e|ex];
    [|exists ex; reflexivity].
  cbn [mbind result_bind]. rewrite Hsplit, foldM_app.
  destruct (foldM _ pre _) as [[jacobians dX]|ex] eqn:Hpre;
    [|exists ex; reflexivity].
  apply (foldM_preserves
           (λ s : list (Key * Matrix) * gmap Key Vector,
              dom s.2 = dom values)) in Hpre.
  - cbn [snd] in Hpre. rewrite <- Hpre in Hout.
    apply not_elem_of_dom in Hout.
    exists out_of_range. cbn. unfold VectorValues_dim. rewrite Hout.
    reflexivity.
  - intros a s0 s1 Hs0 Hstep. rewrite <- Hs0.
    apply (harness_key_dom _ _ _ _ _ _ _ Hstep).
  - apply dom_zeroVectors.
Qed.

Lemma harness_missing_key_never_returns_witness :
  ∃ ex, computeNumericalDerivativeJacobianFactor (ProductFactor 1 2)
          ({[ 1%N := [2%Qc] ]} : gmap Key Vector) 1%Qc = Throw ex.
Proof.
  apply (harness_missing_key_never_returns (ProductFactor 1 2)
           ({[ 1%N := [2%Qc] ]} : gmap Key Vector) 1%Qc).
  exists 2%N. split.
  - apply elem_of_cons. right. apply list_elem_of_singleton. reflexivity.
  - rewrite dom_singleton_L. intros Hin.
    apply elem_of_singleton in Hin. discriminate.
Defined.

(** X17. When the factor's error can be evaluated on [values] although a
    key the factor declares is absent from [values], the exception of the
    harness is [std::out_of_range]: it comes from the delta map, which
    holds the keys of [values] only. *)
Theorem harness_missing_key_out_of_range {Value NM : Type}
    `{GenericValue Value} (factor : FactorType Value NM)
    (values : gmap Key Value) (fd_step : double) :
  evaluable factor values →
  (∃ k, k ∈ factor_keys factor ∧ k ∉ dom values) →
  computeNumericalDerivativeJacobianFactor factor values fd_step
  = Throw out_of_range.
Proof. apply harness_missing_key_throws. Qed.

Lemma harness_missing_key_out_of_range_witness :
  computeNumericalDerivativeJacobianFactor (ValueFactor [1%N; 2%N] 1)
    ({[ 1%N := [2%Qc] ]} : gmap Key Vector) 1%Qc
  = Throw out_of_range.
Proof.
  apply (harness_missing_key_out_of_range (ValueFactor [1%N; 2%N] 1)
           ({[ 1%N := [2%Qc] ]} : gmap Key Vector) 1%Qc).
  - intros x Hdom. unfold ValueFactor, factor_unwhitenedError, Values_at.
    assert (H1 : 1%N ∈ dom x).
    { rewrite Hdom, dom_singleton_L. apply elem_of_singleton. reflexivity. }
    apply elem_of_dom in H1 as [a ->]. eexists. reflexivity.
  - exists 2%N. split.
    + apply elem_of_cons. right. apply list_elem_of_singleton. reflexivity.
    + rewrite dom_singleton_L. intros Hin.
      apply elem_of_singleton in Hin. discriminate.
Defined.

Lemma vsub_vadd_cancel (a b c : Vector) :
  length a = length c → length b = length c →
  vsub (vadd a c) (vadd b c) = vsub a b.
Proof.
  unfold vsub, vadd. revert b c.
  induction a as [|x a IH]; intros [|y b] [|z c] Ha Hb;
    try discriminate; try reflexivity.
  cbn. f_equal; [ring|]. apply IH; [injection Ha|injection Hb]; auto.
Qed.

Section harness_conformance.
Context {Value : Type} `{GV : GenericValue Value} {NM : Type}.

Lemma central_difference_around_zero (factor : FactorType Value NM)
    (values : gmap Key Value) (fd_step : double) (key : Key) (v : Value)
    (j : nat) :
  values !! key = Some v →
  central_difference_around factor values fd_step (zeroVectors values)
    key (dim v) j
  = harness_central_difference factor values fd_step key j.
Proof.
  intros Hv. unfold central_difference_around, harness_central_difference.
  rewrite !(single_delta_insert values key v) by exact Hv. reflexivity.
Qed.

Lemma central_difference_around_separable (factor : FactorType Value NM)
    (values : gmap Key Value) (fd_step : double) (key : Key) (n j : nat)
    (dX0 dX1 : gmap Key Vector) :
  separable_along factor values key n →
  delta_for values dX0 → delta_for values dX1 →
  central_difference_around factor values fd_step dX0 key n j
  = central_difference_around factor values fd_step dX1 key n j.
Proof.
  intros (g & h & m & Hsep) H0 H1. unfold central_difference_around.
  assert (Hlen : ∀ c, length (basis n j c) = n)
    by (intros c; unfold basis; rewrite length_fmap, length_seq; reflexivity).
  destruct (Hsep (basis n j fd_step) dX0 (Hlen _) H0) as (-> & Hg0 & Hh0).
  destruct (Hsep (basis n j (- fd_step)%Qc) dX0 (Hlen _) H0)
    as (-> & Hg0' & _).
  destruct (Hsep (basis n j fd_step) dX1 (Hlen _) H1) as (-> & _ & Hh1).
  destruct (Hsep (basis n j (- fd_step)%Qc) dX1 (Hlen _) H1) as (-> & _ & _).
  cbn [mbind result_bind].
  rewrite !vsub_vadd_cancel by congruence. reflexivity.
Qed.
End harness_conformance.

(** X18. On a factor whose keys are declared in strictly ascending order,
    the block of the first key is the numerical Jacobian of the error in
    that variable alone: its column [j] is the central difference
    [(e(+fd_step) - e(-fd_step)) / (2 fd_step)] along coordinate [j] of
    the first key, every other tangent coordinate being zero. *)
Theorem harness_first_key_central_difference {Value NM : Type}
    `{GenericValue Value} (factor : FactorType Value NM)
    (values : gmap Key Value) (fd_step : double) (e : Vector)
    (key : Key) (v : Value) :
  fd_step ≠ 0%Qc →
  evaluable factor values →
  StronglySorted N.lt (factor_keys factor) →
  (∀ k, k ∈ factor_keys factor → k ∈ dom values) →
  factor_unwhitenedError factor values = Return e →
  factor_keys factor !! 0%nat = Some key →
  values !! key = Some v →
  ∃ jf, computeNumericalDerivativeJacobianFactor factor values fd_step
        = Return jf ∧
    rows (getA jf 0) = length e ∧
    cols (getA jf 0) = dim v ∧
    ∀ j, (j < dim v)%nat →
      ∃ c, harness_central_difference factor values fd_step key j = Return c ∧
           col (getA jf 0) j = Some c.
Proof.
  intros Hfd Heval Hsorted Hkeys He Hkey Hv.
  destruct (harness_general factor values fd_step e Hfd Heval Hsorted Hkeys He)
    as (jf & Hjf & _ & _ & Hblocks).
  exists jf. split; [exact Hjf|].
  destruct (Hblocks 0%nat key v Hkey Hv) as (Hrows & Hcols & Hcol).
  split; [exact Hrows|]. split; [exact Hcols|].
  intros j Hj. destruct (Hcol j Hj) as (c & Hc & Hcj).
  exists c. split; [|exact Hcj].
  rewrite <- (central_difference_around_zero factor values fd_step key v j Hv).
  exact Hc.
Qed.

Lemma harness_first_key_central_difference_witness :
  let factor := ProductFactor 1 2 in
  let values : gmap Key Vector := <[1%N := [2%Qc]]> {[ 2%N := [1%Qc] ]} in
  ∃ jf, computeNumericalDerivativeJacobianFactor factor values 1%Qc
        = Return jf ∧
    rows (getA jf 0) = 1%nat ∧
    cols (getA jf 0) = 1%nat ∧
    ∀ j, (j < 1)%nat →
      ∃ c, harness_central_difference factor values 1%Qc 1%N j = Return c ∧
           col (getA jf 0) j = Some c.
Proof.
  intros factor values.
  refine (harness_first_key_central_difference factor values 1%Qc [2%Qc]
            1%N [2%Qc] _ _ _ _ _ _ _).
  - discriminate.
  - apply ProductFactor_evaluable.
  - apply ascending_1_2.
  - apply keys_1_2_present.
  - by_compute.
  - reflexivity.
  - reflexivity.
Defined.

(** X19. When the error is a sum of one term per variable (along each key
    it is a term of that key's tangent plus a term of the other entries of
    the delta map), the perturbations that earlier keys leave in the delta
    map cancel in the difference in exact arithmetic: on a factor with
    strictly ascending keys, every block of the harness is then the
    numerical Jacobian in that variable alone.  (In the code's doubles the
    cancellation is up to rounding error.) *)
Theorem harness_separable_central_difference {Value NM : Type}
    `{GenericValue Value} (factor : FactorType Value NM)
    (values : gmap Key Value) (fd_step : double) (e : Vector) :
  fd_step ≠ 0%Qc →
  evaluable factor values →
  StronglySorted N.lt (factor_keys factor) →
  (∀ k, k ∈ factor_keys factor → k ∈ dom values) →
  factor_unwhitenedError factor values = Return e →
  (∀ key v, key ∈ factor_keys factor → values !! key = Some v →
     separable_along factor values key (dim v)) →
  ∃ jf, computeNumericalDerivativeJacobianFactor factor values fd_step
        = Return jf ∧
    ∀ i key v, factor_keys factor !! i = Some key → values !! key = Some v →
      cols (getA jf i) = dim v ∧
      ∀ j, (j < dim v)%nat →
        ∃ c, harness_central_difference factor values fd_step key j
             = Return c ∧
             col (getA jf i) j = Some c.
Proof.
  intros Hfd Heval Hsorted Hkeys He Hsep.
  destruct (harness_general factor values fd_step e Hfd Heval Hsorted Hkeys He)
    as (jf & Hjf & _ & _ & Hblocks).
  exists jf. split; [exact Hjf|].
  intros i key v Hkey Hv.
  destruct (Hblocks i key v Hkey Hv) as (_ & Hcols & Hcol).
  split; [exact Hcols|].
  intros j Hj. destruct (Hcol j Hj) as (c & Hc & Hcj).
  exists c. split; [|exact Hcj].
  rewrite <- (central_difference_around_zero factor values fd_step key v j Hv).
  rewrite <- Hc. apply central_difference_around_separable.
  - apply Hsep; [|exact Hv]. apply (list_elem_of_lookup_2 _ i). exact Hkey.
  - apply zeroVectors_delta_for.
  - apply visited_delta_delta_for.
Qed.

Lemma vsub_as_vadd (a b : Vector) : vsub b a = vadd (vneg a) b.
Proof.
  unfold vsub, vadd, vneg. revert a.
  induction b as [|y b IH]; intros [|x a]; try reflexivity.
  cbn. f_equal; [ring|apply IH].
Qed.

Lemma DifferenceFactor_evaluable (key1 key2 : Key) (a b : Vector) :
  evaluable (DifferenceFactor key1 key2) (<[key1 := a]> {[ key2 := b ]}).
Proof.
  intros x Hdom. unfold DifferenceFactor, factor_unwhitenedError, Values_at.
  assert (H1 : key1 ∈ dom x).
  { rewrite Hdom. apply elem_of_dom. rewrite lookup_insert_eq. eauto. }
  assert (H2 : key2 ∈ dom x).
  { rewrite Hdom. apply elem_of_dom.
    destruct (decide (key1 = key2)) as [->|Hne];
      [rewrite lookup_insert_eq|
       rewrite lookup_insert_ne, lookup_singleton_eq by exact Hne]; eauto. }
  apply elem_of_dom in H1 as [a' ->]. apply elem_of_dom in H2 as [b' ->].
  eexists. reflexivity.
Qed.

(** The difference of two scalar variables is separable along each of
    them. *)
Lemma DifferenceFactor_separable (a b : double) (key : Key) (v : Vector) :
  let values : gmap Key Vector := <[1%N := [a]]> {[ 2%N := [b] ]} in
  key ∈ [1%N; 2%N] → values !! key = Some v →
  separable_along (DifferenceFactor 1 2) values key (dim v).
Proof.
  intros values Hkey Hv.
  assert (Hv1 : values !! 1%N = Some [a]) by reflexivity.
  assert (Hv2 : values !! 2%N = Some [b]) by reflexivity.
  apply elem_of_cons in Hkey as [->|Hkey];
    [|apply list_elem_of_singleton in Hkey as ->].
  - rewrite Hv1 in Hv. injection Hv as <-.
    exists (λ d, vneg (vadd [a] d)),
      (λ dX0, vadd [b] (default [] (dX0 !! 2%N))), 1%nat.
    intros d dX0 Hd [_ Hlen].
    destruct (Hlen 2%N [b] Hv2) as (d2 & Hd2 & Hl2).
    destruct d as [|x [|? ?]]; try discriminate.
    destruct d2 as [|x2 [|? ?]]; try discriminate.
    rewrite Hd2. split; [|split; reflexivity].
    unfold DifferenceFactor, factor_unwhitenedError, Values_at, Values_retract.
    rewrite !map_lookup_imap, Hv1, Hv2, lookup_insert_eq,
      lookup_insert_ne, Hd2 by discriminate.
    cbn. unfold vsub, vadd, vneg. cbn. repeat f_equal; try ring.
  - rewrite Hv2 in Hv. injection Hv as <-.
    exists (λ d, vadd [b] d),
      (λ dX0, vneg (vadd [a] (default [] (dX0 !! 1%N)))), 1%nat.
    intros d dX0 Hd [_ Hlen].
    destruct (Hlen 1%N [a] Hv1) as (d1 & Hd1 & Hl1).
    destruct d as [|x [|? ?]]; try discriminate.
    destruct d1 as [|x1 [|? ?]]; try discriminate.
    rewrite Hd1. split; [|split; reflexivity].
    unfold DifferenceFactor, factor_unwhitenedError, Values_at, Values_retract.
    rewrite !map_lookup_imap, Hv1, Hv2, lookup_insert_eq,
      lookup_insert_ne, Hd1 by discriminate.
    cbn. unfold vsub, vadd, vneg. cbn. repeat f_equal; try ring.
Qed.

Lemma harness_separable_central_difference_witness :
  let factor := DifferenceFactor 1 2 in
  let values : gmap Key Vector := <[1%N := [2%Qc]]> {[ 2%N := [1%Qc] ]} in
  ∃ jf, computeNumericalDerivativeJacobianFactor factor values 1%Qc
        = Return jf ∧
    ∀ i key v, [1%N; 2%N] !! i = Some key → values !! key = Some v →
      cols (getA jf i) = dim v ∧
      ∀ j, (j < dim v)%nat →
        ∃ c, harness_central_difference factor values 1%Qc key j
             = Return c ∧
             col (getA jf i) j = Some c.
Proof.
  intros factor values.
  refine (harness_separable_central_difference factor values 1%Qc
            [(- (1))%Qc] _ _ _ _ _ _).
  - discriminate.
  - apply DifferenceFactor_evaluable.
  - apply ascending_1_2.
  - apply keys_1_2_present.
  - by_compute.
  - apply (DifferenceFactor_separable 2 1).
Defined.

(** ** The system [linearize] assembles *)

Lemma blocks_shaped_dims (m : nat) (Js : list Matrix) (dims : list nat) :
  blocks_shaped m Js dims → cols <$> Js = dims.
Proof.
  induction 1 as [|J d Js dims [HJ _] _ IH]; [reflexivity|].
  cbn. rewrite HJ, IH. reflexivity.
Qed.

Lemma hcat_snoc (Js : list Matrix) (J : Matrix) :
  hcat (Js ++ [J]) = hcat Js ++ columns J.
Proof.
  unfold hcat. rewrite fmap_app, concat_app. cbn. rewrite app_nil_r.
  reflexivity.
Qed.

Lemma sum_list_snoc (l : list nat) (d : nat) :
  sum_list (l ++ [d]) = (sum_list l + d)%nat.
Proof. induction l as [|a l IH]; cbn; lia. Qed.

(** Adding the blocks an expression produces into zeroed blocks of the
    right widths stores the blocks themselves, side by side; the columns
    [rest] to their right are left as they are. *)
Lemma JacobianMap_add_zeros (m : nat) (Js : list Matrix) (dims : list nat) :
  blocks_shaped m Js dims →
  ∀ (tail : list nat) (rest : list Vector),
    JacobianMap_add
      (mkVBM (dims ++ tail)
         (mkMatrix m (replicate (sum_list dims) (zero m) ++ rest))) Js
    = mkVBM (dims ++ tail) (mkMatrix m (hcat Js ++ rest)).
Proof.
  revert dims. induction Js as [|J Js IH] using rev_ind; intros dims Hshape.
  - apply Forall2_nil_inv_l in Hshape. subst dims. reflexivity.
  - apply Forall2_app_inv_l in Hshape
      as (dims' & dlast & Hpre & Hlast & ->).
    apply Forall2_cons_inv_l in Hlast as (d & dnil & [HJ Hcols] & Hnil & ->).
    apply Forall2_nil_inv_l in Hnil. subst dnil.
    intros tail rest. unfold JacobianMap_add.
    rewrite imap_app, foldl_app. cbn [imap foldl].
    rewrite Nat.add_0_r.
    pose proof (IH dims' Hpre ([d] ++ tail)
                  (replicate d (zero m) ++ rest)) as Hfold.
    unfold JacobianMap_add in Hfold.
    rewrite sum_list_snoc, replicate_add, <- !app_assoc.
    rewrite Hfold. clear Hfold.
    assert (Hoff : offset (dims' ++ [d] ++ tail) (length Js)
                   = length (hcat Js)).
    { rewrite <- (blocks_shaped_dims m Js dims' Hpre).
      rewrite offset_fmap_cols by lia. rewrite firstn_all. reflexivity. }
    assert (Hd : (dims' ++ [d] ++ tail) !! length Js = Some d).
    { rewrite (Forall2_length _ _ _ Hpre).
      apply list_lookup_middle. reflexivity. }
    unfold set_block, block, madd.
    cbn [blockDims matrix rows columns].
    rewrite Hoff, Hd. cbn [default].
    unfold id. rewrite drop_app_length, take_app_length.
    rewrite (take_app_length' (replicate d (zero m)) rest d)
      by (rewrite length_replicate; reflexivity).
    subst d. unfold cols.
    rewrite zip_with_vadd_zeros by exact Hcols.
    rewrite firstn_all, hcat_snoc, <- app_assoc.
    do 3 f_equal.
    rewrite drop_app_add' by reflexivity.
    f_equal. apply drop_app_length'. rewrite length_replicate. reflexivity.
Qed.

Section linearize_assembly.
Context {Value : Type} `{GV : GenericValue Value}.
Context {NM : Type} `{NMI : NoiseModel NM}.
Context {T : Type} `{ChartT : Chart T}.

Implicit Types this : ExpressionFactor (Value := Value) (NM := NM) (T := T).

Lemma unwhitened_system_blocks this x e (v : T) (Js : list Matrix) :
  expression_ this = Some e →
  valueAndJacobianMap e x (keys_ this) = Return (v, Js) →
  length (keys_ this) = length (dims_ this) →
  blocks_shaped Dim Js (dims_ this) →
  unwhitened_system this x
  = Return (mkVBM (dims_ this ++ [1%nat])
              (mkMatrix Dim
                 (hcat Js ++ [vneg (local (measured_ this) v)]))).
Proof.
  intros He HJs Hlen Hshape. unfold unwhitened_system.
  rewrite He. cbn [deref mbind result_bind]. rewrite HJs.
  cbn [mbind result_bind]. f_equal.
  unfold zeros. rewrite replicate_add. cbn [replicate].
  rewrite (JacobianMap_add_zeros Dim Js (dims_ this) Hshape).
  unfold set_block_col0, set_col, factor_size.
  cbn [blockDims matrix rows columns]. do 2 f_equal.
  rewrite <- (blocks_shaped_dims Dim Js (dims_ this) Hshape).
  rewrite Hlen, <- (Forall2_length _ _ _ Hshape).
  rewrite offset_fmap_cols by lia. rewrite firstn_all.
  rewrite insert_app_r_alt by lia. rewrite Nat.sub_diag. reflexivity.
Qed.
End linearize_assembly.

Lemma fmap_hcat (w : Vector → Vector) (Js : list Matrix) :
  w <$> hcat Js
  = hcat ((λ J, mkMatrix (rows J) (w <$> columns J)) <$> Js).
Proof.
  unfold hcat. induction Js as [|J Js IH]; [reflexivity|].
  cbn. rewrite fmap_app, IH. reflexivity.
Qed.

(** X20. On an active, initialized factor whose expression hands over one
    Jacobian block per key, with [Dim] rows and the widths [dims_], and
    whose noise model whitens column by column with [w]: [linearize]
    returns a system over the factor's keys whose block [i] is the
    whitened [i]-th Jacobian block of the expression, and whose right-hand
    side is the whitened [-local(measured, value)]. *)
Theorem linearize_blocks {Value NM T : Type} `{NoiseModel NM} `{Chart T}
    (this : ExpressionFactor (Value := Value) (NM := NM) (T := T))
    (x : gmap Key Value) (nm : NM) (e : Expression Value T)
    (v : T) (Js : list Matrix) (w : Vector → Vector) :
  initialized this nm e →
  active this x = true →
  valueAndJacobianMap e x (keys_ this) = Return (v, Js) →
  length (keys_ this) = length (dims_ this) →
  blocks_shaped Dim Js (dims_ this) →
  whitens_columnwise nm w →
  ∃ jf, linearize this x = Return (Some jf) ∧
    jf_keys jf = keys_ this ∧
    getb jf = w (vneg (local (measured_ this) v)) ∧
    ∀ i J, Js !! i = Some J → getA jf i = mkMatrix Dim (w <$> columns J).
Proof.
  intros Hinit Hact HJs Hlen Hshape Hw.
  rewrite (linearize_active this x nm e Hinit Hact).
  unfold whitened_system.
  rewrite (unwhitened_system_blocks this x e v Js (proj2 Hinit) HJs Hlen
             Hshape).
  cbn [mbind result_bind blockDims matrix]. rewrite Hw.
  cbn [fst rows columns]. eexists. split; [reflexivity|].
  split; [reflexivity|].
  rewrite fmap_app, fmap_hcat. cbn [fmap list_fmap].
  set (wJ := λ J : Matrix, mkMatrix (rows J) (w <$> columns J)).
  assert (Hdims : dims_ this = cols <$> (wJ <$> Js)).
  { rewrite <- (blocks_shaped_dims Dim Js (dims_ this) Hshape).
    rewrite <- list_fmap_compose. apply list_fmap_ext. intros i J _.
    unfold cols, wJ. cbn. rewrite length_fmap. reflexivity. }
  split.
  - unfold getb, jf_size. cbn [jf_keys jf_Ab blockDims matrix].
    rewrite Hlen, Hdims at 1. rewrite Hdims. rewrite length_fmap.
    rewrite rhs_hcat. reflexivity.
  - intros i J HJ. unfold getA. cbn [jf_Ab]. rewrite Hdims.
    apply (block_hcat (wJ <$> Js) [1%nat] _ Dim i (wJ J)).
    rewrite list_lookup_fmap, HJ. reflexivity.
Qed.

(** The difference of two scalar variables with sigma one half. *)
Lemma linearize_blocks_witness :
  let nm := Sigmas [(1 / 2)%Qc] in
  let this := {| keys_ := [1%N; 2%N]; noiseModel_ := Some nm;
                 active := λ _ : gmap Key Vector, true;
                 measured_ := [1%Qc];
                 expression_ := Some (Between 1 1 2);
                 dims_ := [1%nat; 1%nat] |} in
  let x : gmap Key Vector := <[1%N := [2%Qc]]> {[ 2%N := [1%Qc] ]} in
  let Js := [mkMatrix 1 [[(- (1))%Qc]]; mkMatrix 1 [[1%Qc]]] in
  ∃ jf, linearize (ChartT := EuclideanChart 1) this x = Return (Some jf) ∧
    jf_keys jf = [1%N; 2%N] ∧
    getb jf = whiten_with nm (vneg (vsub [(- (1))%Qc] [1%Qc])) ∧
    ∀ i J, Js !! i = Some J →
      getA jf i = mkMatrix 1 (whiten_with nm <$> columns J).
Proof.
  intros nm this x Js.
  refine (linearize_blocks (H0 := EuclideanChart 1) this x nm (Between 1 1 2)
            [(- (1))%Qc] Js (whiten_with nm) _ _ _ _ _ _).
  - split; reflexivity.
  - reflexivity.
  - by_compute.
  - reflexivity.
  - repeat constructor.
  - intros A b. reflexivity.
Defined.

(** The right-hand side column of [[J1 .. Jn b]], read through its
    block. *)
Lemma rhs_column_hcat (Bs : list Matrix) (b : Vector) (r : nat) :
  rhs_column (mkVBM ((cols <$> Bs) ++ [1%nat]) (mkMatrix r (hcat Bs ++ [b])))
    (length Bs) = b.
Proof.
  unfold rhs_column, block, col. cbn [blockDims matrix rows columns].
  rewrite offset_fmap_cols by lia. rewrite firstn_all.
  rewrite lookup_app_r by (rewrite length_fmap; lia).
  rewrite length_fmap, Nat.sub_diag. cbn [lookup list_lookup default].
  unfold id. rewrite drop_app_length. reflexivity.
Qed.

(** The blocks and the right-hand side of a system [[J1 .. Jn b]] that has
    been whitened column by column. *)
Lemma columnwise_whitened_blocks (w : Vector → Vector) (Js : list Matrix)
    (b : Vector) (r : nat) (keys : list Key) (NM : Type)
    (model : option NM) :
  length keys = length Js →
  let jf := mkJacobianFactor keys
              (mkVBM ((cols <$> Js) ++ [1%nat])
                 (mkMatrix r (w <$> (hcat Js ++ [b])))) model in
  getb jf = w b ∧
  ∀ i J, Js !! i = Some J → getA jf i = mkMatrix r (w <$> columns J).
Proof.
  intros Hlen jf. subst jf.
  rewrite fmap_app, fmap_hcat. cbn [fmap list_fmap].
  set (wJ := λ J : Matrix, mkMatrix (rows J) (w <$> columns J)).
  assert (Hdims : cols <$> Js = cols <$> (wJ <$> Js)).
  { rewrite <- list_fmap_compose. apply list_fmap_ext. intros i J _.
    unfold cols, wJ. cbn. rewrite length_fmap. reflexivity. }
  rewrite Hdims. split.
  - unfold getb, jf_size. cbn [jf_keys jf_Ab blockDims matrix].
    rewrite Hlen, <- (length_fmap wJ Js), rhs_hcat. reflexivity.
  - intros i J HJ. unfold getA. cbn [jf_Ab].
    apply (block_hcat (wJ <$> Js) [1%nat] _ r i (wJ J)).
    rewrite list_lookup_fmap, HJ. reflexivity.
Qed.

(** C9. [linearize] returns no factor exactly when the factor is not
    active at the given values, and that is a normal return, not an
    exception.  When the factor is active, either the expression throws and
    [linearize] throws the same exception without producing a system, or
    the expression hands over its value and one Jacobian block per key, of
    [Dim] rows and the widths [dims_], and [linearize] returns the complete
    system: it is over the factor's keys, has one block per key followed by
    one right-hand side column, and its matrix is the whitening, by the
    factor's noise model, of [[J1 .. Jn | -local(measured, value)]], the
    matrix whose block [i] is the expression's [i]-th Jacobian, for every
    key, and whose last column is [-local(measured, value)].  With a noise
    model that whitens column by column, block [i] of the returned system
    is the whitened [i]-th Jacobian and its right-hand side the whitened
    [-local(measured, value)]. *)
Theorem linearize_null_iff_inactive {Value NM T : Type} `{NoiseModel NM}
    `{Chart T} (this : ExpressionFactor (Value := Value) (NM := NM) (T := T))
    (x : gmap Key Value) (nm : NM) (e : Expression Value T) :
  initialized this nm e →
  (linearize this x = Return None ↔ active this x = false) ∧
  (active this x = true →
     match valueAndJacobianMap e x (keys_ this) with
     | Throw ex => linearize this x = Throw ex
     | Return (v, Js) =>
         length (keys_ this) = length (dims_ this) →
         blocks_shaped Dim Js (dims_ this) →
         let b := vneg (local (measured_ this) v) in
         let Ab := mkVBM (dims_ this ++ [1%nat])
                     (mkMatrix Dim (hcat Js ++ [b])) in
         ((∀ i J, Js !! i = Some J → block Ab i = mkMatrix Dim (columns J)) ∧
          rhs_column Ab (length (keys_ this)) = b) ∧
         ∃ jf, linearize this x = Return (Some jf) ∧
           jf_keys jf = keys_ this ∧
           blockDims (jf_Ab jf) = dims_ this ++ [1%nat] ∧
           matrix (jf_Ab jf) = (WhitenSystem nm (matrix Ab) b).1 ∧
           ∀ w, whitens_columnwise nm w →
             getb jf = w b ∧
             ∀ i J, Js !! i = Some J →
               getA jf i = mkMatrix Dim (w <$> columns J)
     end).
Proof.
  intros Hinit. pose proof Hinit as [Hnm He]. split.
  - split.
    + intros Hnull. destruct (active this x) eqn:Hact; [|reflexivity].
      rewrite (linearize_active this x nm e Hinit Hact) in Hnull.
      unfold whitened_system in Hnull.
      destruct (unwhitened_system this x); discriminate.
    + apply linearize_inactive.
  - intros Hact. rewrite (linearize_active this x nm e Hinit Hact).
    destruct (valueAndJacobianMap e x (keys_ this)) as [[v Js]|ex] eqn:HJs.
    + intros Hlen Hshape b Ab.
      pose proof (blocks_shaped_dims Dim Js (dims_ this) Hshape) as Hdims.
      pose proof (Forall2_length _ _ _ Hshape) as HlenJs.
      assert (Hrhs : rhs_column Ab (length (keys_ this)) = b).
      { subst Ab. rewrite <- Hdims, Hlen, <- HlenJs. apply rhs_column_hcat. }
      split.
      * split; [|exact Hrhs].
        intros i J HJ. subst Ab. rewrite <- Hdims.
        apply block_hcat. exact HJ.
      * unfold whitened_system.
        rewrite (unwhitened_system_blocks this x e v Js He HJs Hlen Hshape).
        cbn [mbind result_bind blockDims matrix]. fold b. fold Ab.
        unfold factor_size. rewrite Hrhs.
        eexists. split; [reflexivity|].
        cbn [jf_keys jf_Ab blockDims matrix].
        split; [reflexivity|]. split; [reflexivity|]. split; [reflexivity|].
        intros w Hw. unfold Ab. cbn [matrix]. rewrite !Hw.
        cbn [fst rows columns].
        rewrite <- Hdims.
        apply (columnwise_whitened_blocks w Js b Dim (keys_ this)).
        rewrite Hlen. symmetry. exact HlenJs.
    + unfold whitened_system, unwhitened_system. rewrite He.
      cbn [deref mbind result_bind]. rewrite HJs. reflexivity.
Qed.

(** The factor on the difference of two scalar variables with sigma one
    half, once at an assignment at which it is inactive and once at one
    at which it is active. *)
Lemma linearize_null_iff_inactive_witness :
  let this := {| keys_ := [1%N; 2%N]; noiseModel_ := Some (Sigmas [(1 / 2)%Qc]);
                 active := λ x : gmap Key Vector,
                             bool_decide (is_Some (x !! 1%N));
                 measured_ := [1%Qc];
                 expression_ := Some (Between 1 1 2);
                 dims_ := [1%nat; 1%nat] |} in
  let x : gmap Key Vector := <[1%N := [2%Qc]]> {[ 2%N := [1%Qc] ]} in
  (linearize (ChartT := EuclideanChart 1) this ∅ = Return None
   ↔ active this ∅ = false) ∧
  ∃ jf, linearize (ChartT := EuclideanChart 1) this x = Return (Some jf) ∧
    jf_keys jf = [1%N; 2%N] ∧
    getA jf 0 = mkMatrix 1 [[(- (2))%Qc]] ∧
    getA jf 1 = mkMatrix 1 [[2%Qc]] ∧
    getb jf = [(2 + 2)%Qc].
Proof.
  intros this x.
  split.
  - apply (linearize_null_iff_inactive (H0 := EuclideanChart 1) this ∅
             (Sigmas [(1 / 2)%Qc]) (Between 1 1 2)).
    split; reflexivity.
  - destruct (linearize_null_iff_inactive (H0 := EuclideanChart 1) this x
                (Sigmas [(1 / 2)%Qc]) (Between 1 1 2)) as [_ Hact].
    { split; reflexivity. }
    specialize (Hact eq_refl).
    change (valueAndJacobianMap (Between 1 1 2) x (keys_ this))
      with (Return (A := Vector * list Matrix)
              ([(- (1))%Qc],
               [mkMatrix 1 [[(- (1))%Qc]]; mkMatrix 1 [[1%Qc]]])) in Hact.
    cbv beta iota in Hact.
    destruct (Hact eq_refl ltac:(repeat constructor))
      as (_ & jf & Hlin & Hkeys & _ & _ & Hw).
    destruct (Hw (whiten_with (Sigmas [(1 / 2)%Qc])) ltac:(intros A b; reflexivity))
      as [Hb HA].
    exists jf. split; [exact Hlin|]. split; [exact Hkeys|].
    split; [|split].
    + rewrite (HA 0%nat _ eq_refl). by_compute.
    + rewrite (HA 1%nat _ eq_refl). by_compute.
    + rewrite Hb. by_compute.
Defined.

(** ** The cross-check driver on top of the harness *)

Lemma numerically_zero_vneg (tol : double) (e : Vector) :
  numerically_zero tol (vneg e) → numerically_zero tol e.
Proof.
  unfold numerically_zero, vneg. intros Hz i a Ha.
  specialize (Hz i (- a)%Qc). rewrite list_lookup_fmap, Ha in Hz.
  rewrite <- Qcabs_opp. apply Hz. reflexivity.
Qed.

Lemma EXPECT_prefix (result_ : list Failure) (name_ text : string)
    (holds : bool) :
  ∃ new, EXPECT result_ name_ text holds = result_ ++ new ∧
    (length new ≤ 1)%nat ∧ Forall (λ f, testName f = name_) new.
Proof.
  unfold EXPECT. destruct holds.
  - exists []. rewrite app_nil_r. repeat split; [cbn; lia|constructor].
  - eexists. split; [reflexivity|]. split; [cbn; lia|].
    repeat constructor.
Qed.

(** X21. When the factor's error at [values] is [e] and the factor
    linearizes to a Jacobian system, the driver returns a test result, and
    it can only be free of new failures when every entry of [e] is zero
    within the tolerance: the cross-check is meant for values at which the
    error vanishes. *)
Theorem testFactorJacobians_pass_needs_zero_error {Value NM : Type}
    `{GenericValue Value} (result_ : list Failure) (name_ : string)
    (f : FactorType Value NM) (values : gmap Key Value)
    (fd_step tolerance : double) (e : Vector) (jf : JacobianFactor NM) :
  evaluable f values →
  (∀ k, k ∈ factor_keys f → k ∈ dom values) →
  factor_unwhitenedError f values = Return e →
  factor_linearize f values = Return (Some (Jacobian jf)) →
  ∃ r, testFactorJacobians result_ name_ f values fd_step tolerance
       = Return r ∧
    (r = result_ → numerically_zero tolerance e).
Proof.
  intros Heval Hkeys He Hlin.
  destruct (harness_rhs f values fd_step e Heval Hkeys He)
    as (expected & Hexpected & Hb).
  unfold testFactorJacobians.
  rewrite Hexpected, Hlin. cbn [mbind result_bind dynamic_pointer_cast deref].
  eexists. split; [reflexivity|].
  rewrite EXPECT_three. intros (_ & _ & H3).
  apply assert_equal_Vector_zero in H3 as [_ Hzero].
  apply numerically_zero_vneg. rewrite <- Hb. exact Hzero.
Qed.

Lemma Leaf_factor_evaluable (n : nat) (key : Key) (z : Vector)
    (nm : option DiagonalModel) (act : gmap Key Vector → bool)
    (values : gmap Key Vector) :
  key ∈ dom values →
  evaluable
    (as_FactorType (ChartT := EuclideanChart n)
       {| keys_ := [key]; noiseModel_ := nm; active := act; measured_ := z;
          expression_ := Some (Leaf n key); dims_ := [n] |}) values.
Proof.
  intros Hkey x Hdom. rewrite <- Hdom in Hkey.
  apply elem_of_dom in Hkey as [xv Hx].
  unfold as_FactorType, factor_unwhitenedError, unwhitenedError.
  cbn [expression_ deref mbind result_bind Leaf value measured_].
  unfold Values_at. rewrite Hx. eexists. reflexivity.
Qed.

Lemma key_7_present (v : Vector) (k : Key) :
  k ∈ [7%N] → k ∈ dom ({[ 7%N := v ]} : gmap Key Vector).
Proof.
  intros Hk. apply list_elem_of_singleton in Hk as ->.
  rewrite dom_singleton_L. apply elem_of_singleton. reflexivity.
Qed.

Lemma key_7_in_dom (v : Vector) :
  7%N ∈ dom ({[ 7%N := v ]} : gmap Key Vector).
Proof. rewrite dom_singleton_L. apply elem_of_singleton. reflexivity. Qed.

(** The factor measuring [h(x) = x] with measurement 2, cross-checked at
    [x = 3], where its error is 1. *)
Lemma testFactorJacobians_pass_needs_zero_error_witness :
  let this := {| keys_ := [7%N]; noiseModel_ := Some (Unit 1);
                 active := λ _ : gmap Key Vector, true;
                 measured_ := [2%Qc];
                 expression_ := Some (Leaf 1 7%N); dims_ := [1%nat] |} in
  let f := as_FactorType (ChartT := EuclideanChart 1) this in
  let values : gmap Key Vector := {[ 7%N := [Q2Qc 3] ]} in
  ∃ r, testFactorJacobians [] "Leaf" f values 1%Qc 0%Qc = Return r ∧
    (r = [] → numerically_zero 0%Qc [1%Qc]).
Proof.
  intros this f values.
  refine (testFactorJacobians_pass_needs_zero_error [] "Leaf" f values
            1%Qc 0%Qc [1%Qc]
            (mkJacobianFactor [7%N]
               (mkVBM [1; 1]%nat (mkMatrix 1 [[1%Qc]; [(- (1))%Qc]])) None)
            _ _ _ _).
  - apply Leaf_factor_evaluable. apply key_7_in_dom.
  - apply key_7_present.
  - by_compute.
  - by_compute.
Defined.

(** X22. On an expression factor that is inactive at [values],
    [linearize] hands back a null pointer and the driver goes on to
    dereference it: no test result is returned. *)
Theorem testFactorJacobians_inactive_factor {Value NM T : Type}
    `{GenericValue Value} `{NoiseModel NM} `{Chart T}
    (result_ : list Failure) (name_ : string)
    (this : ExpressionFactor (Value := Value) (NM := NM) (T := T))
    (values : gmap Key Value) (fd_step tolerance : double) :
  evaluable (as_FactorType this) values →
  (∀ k, k ∈ keys_ this → k ∈ dom values) →
  active this values = false →
  testFactorJacobians result_ name_ (as_FactorType this) values fd_step
    tolerance
  = Throw undefined_behaviour.
Proof.
  intros Heval Hkeys Hact.
  destruct (Heval values eq_refl) as [e He].
  destruct (harness_rhs (as_FactorType this) values fd_step e Heval Hkeys He)
    as (expected & Hexpected & _).
  unfold testFactorJacobians. rewrite Hexpected.
  cbn [mbind result_bind as_FactorType factor_linearize].
  rewrite (linearize_inactive this values Hact). reflexivity.
Qed.

Lemma testFactorJacobians_inactive_factor_witness :
  let this := {| keys_ := [7%N]; noiseModel_ := Some (Unit 1);
                 active := λ _ : gmap Key Vector, false;
                 measured_ := [2%Qc];
                 expression_ := Some (Leaf 1 7%N); dims_ := [1%nat] |} in
  testFactorJacobians [] "Leaf" (as_FactorType (ChartT := EuclideanChart 1) this)
    ({[ 7%N := [2%Qc] ]} : gmap Key Vector) 1%Qc 0%Qc
  = Throw undefined_behaviour.
Proof.
  intros this.
  refine (testFactorJacobians_inactive_factor (H1 := EuclideanChart 1)
            [] "Leaf" this ({[ 7%N := [2%Qc] ]} : gmap Key Vector)
            1%Qc 0%Qc _ _ _).
  - apply Leaf_factor_evaluable. apply key_7_in_dom.
  - apply key_7_present.
  - reflexivity.
Defined.

(** X23. Whatever the factor computes, a test result the driver returns
    keeps every failure recorded before the call, in order, and adds at
    most three, each under the name of the running test. *)
Theorem testFactorJacobians_extends_result {Value NM : Type}
    `{GenericValue Value} (result_ : list Failure) (name_ : string)
    (f : FactorType Value NM) (values : gmap Key Value)
    (fd_step tolerance : double) (r : list Failure) :
  testFactorJacobians result_ name_ f values fd_step tolerance = Return r →
  ∃ new, r = result_ ++ new ∧ (length new ≤ 3)%nat ∧
    Forall (λ failure, testName failure = name_) new.
Proof.
  unfold testFactorJacobians.
  destruct (computeNumericalDerivativeJacobianFactor f values fd_step)
    as [expected|]; [|discriminate].
  cbn [mbind result_bind].
  destruct (factor_linearize f values) as [gf|]; [|discriminate].
  cbn [mbind result_bind].
  destruct (dynamic_pointer_cast gf) as [jf|]; [|discriminate].
  cbn [deref mbind result_bind]. intros [= <-].
  match goal with
  | |- context [EXPECT (EXPECT (EXPECT _ _ ?t1 ?c1) _ ?t2 ?c2) _ ?t3 ?c3] =>
      destruct (EXPECT_prefix result_ name_ t1 c1) as (n1 & -> & Hl1 & Hn1);
      destruct (EXPECT_prefix (result_ ++ n1) name_ t2 c2)
        as (n2 & -> & Hl2 & Hn2);
      destruct (EXPECT_prefix ((result_ ++ n1) ++ n2) name_ t3 c3)
        as (n3 & -> & Hl3 & Hn3)
  end.
  exists (n1 ++ n2 ++ n3). rewrite <- !app_assoc. split; [reflexivity|].
  split; [rewrite !length_app; lia|].
  repeat (apply Forall_app_2); assumption.
Qed.

Lemma testFactorJacobians_extends_result_witness :
  let this := {| keys_ := [7%N]; noiseModel_ := Some (Unit 1);
                 active := λ _ : gmap Key Vector, true;
                 measured_ := [2%Qc];
                 expression_ := Some (Leaf 1 7%N); dims_ := [1%nat] |} in
  let f := as_FactorType (ChartT := EuclideanChart 1) this in
  let earlier := [mkFailure "Earlier" "false"] in
  let r := earlier
           ++ [mkFailure "Leaf"
                 "assert_equal(evalJ.second, Eigen::VectorXd::Zero(evalJ.second.size()), tolerance)";
               mkFailure "Leaf"
                 "assert_equal(estJ.second, Eigen::VectorXd::Zero(evalJ.second.size()), tolerance)"] in
  ∃ new, r = earlier ++ new ∧ (length new ≤ 3)%nat ∧
    Forall (λ failure, testName failure = "Leaf"%string) new.
Proof.
  intros this f earlier r.
  refine (testFactorJacobians_extends_result earlier "Leaf" f
            ({[ 7%N := [Q2Qc 3] ]} : gmap Key Vector) 1%Qc 0%Qc r _).
  by_compute.
Defined.

(** ** The cross-check of the factor measuring [h(x) = x] *)

Lemma central_difference_basis (x : Vector) (n j : nat) (delta : double) :
  delta ≠ 0%Qc → length x = n →
  (λ a, a / (2 * delta))%Qc <$>
    vsub (vadd x (basis n j delta)) (vadd x (basis n j (- delta)%Qc))
  = if decide (j < n)%nat then basis n j 1%Qc else zero n.
Proof.
  intros Hdelta. revert n j.
  induction x as [|a x IH]; intros [|n] j Hlen; try discriminate.
  - destruct (decide (j < 0)%nat); [lia|reflexivity].
  - injection Hlen as Hlen. destruct j as [|j].
    + rewrite !basis_0. cbn [vadd vsub zip_with fmap list_fmap].
      rewrite decide_True by lia.
      f_equal; [field; nonzero|].
      fold (vadd x (zero n)). rewrite <- Hlen, vadd_zero_r.
      fold (vsub x x). rewrite vsub_diag. apply fmap_div_zero.
    + rewrite !basis_S. cbn [vadd vsub zip_with fmap list_fmap].
      specialize (IH n j Hlen). unfold vadd, vsub in IH. rewrite IH.
      destruct (decide (j < n)%nat); [rewrite decide_True by lia|
                                      rewrite decide_False by lia].
      * f_equal. field; nonzero.
      * unfold zero. cbn [replicate]. f_equal. field; nonzero.
Qed.

Section leaf_cross_check.
Variables (n : nat) (key : Key) (z : Vector).

Let this : ExpressionFactor (Value := Vector) (NM := DiagonalModel)
    (T := Vector) :=
  {| keys_ := [key]; noiseModel_ := Some (Unit n); active := λ _, true;
     measured_ := z; expression_ := Some (Leaf n key); dims_ := [n] |}.

Let f : FactorType Vector DiagonalModel :=
  as_FactorType (ChartT := EuclideanChart n) this.

Lemma Leaf_factor_error (x : gmap Key Vector) (xv : Vector) :
  x !! key = Some xv →
  factor_unwhitenedError f x = Return (vsub xv z).
Proof.
  intros Hx. unfold f, as_FactorType, factor_unwhitenedError, unwhitenedError.
  cbn [expression_ deref mbind result_bind Leaf value measured_ this].
  unfold Values_at. rewrite Hx. reflexivity.
Qed.

Lemma Leaf_factor_central_difference (values : gmap Key Vector)
    (xv : Vector) (fd_step : double) (j : nat) :
  fd_step ≠ 0%Qc → length z = n → length xv = n → (j < n)%nat →
  values !! key = Some xv →
  harness_central_difference f values fd_step key j
  = Return (basis n j 1%Qc).
Proof.
  intros Hfd Hz Hxv Hj Hv. unfold harness_central_difference.
  assert (Hret : ∀ c, Values_retract values (single_delta values key j c)
                      !! key = Some (vadd xv (basis n j c))).
  { intros c. unfold Values_retract, single_delta.
    rewrite !map_lookup_imap, Hv. cbn. rewrite decide_True by reflexivity.
    cbn. rewrite Hxv. reflexivity. }
  rewrite !(Leaf_factor_error _ _ (Hret _)). cbn [mbind result_bind].
  f_equal.
  rewrite vsub_cancel
    by (rewrite length_vadd; rewrite ?length_basis; congruence).
  rewrite (central_difference_basis xv n j fd_step Hfd Hxv).
  rewrite decide_True by exact Hj. reflexivity.
Qed.

Lemma Leaf_factor_harness (values : gmap Key Vector) (xv : Vector)
    (fd_step : double) :
  fd_step ≠ 0%Qc → length z = n → length xv = n →
  values !! key = Some xv →
  computeNumericalDerivativeJacobianFactor f values fd_step
  = Return (JacobianFactor_of_terms [(key, identity n)] (vsub z xv)).
Proof.
  intros Hfd Hz Hxv Hv.
  assert (Hkey : key ∈ dom values) by (apply elem_of_dom; eexists; exact Hv).
  assert (Heval : evaluable f values)
    by (apply Leaf_factor_evaluable; exact Hkey).
  unfold computeNumericalDerivativeJacobianFactor.
  rewrite (Leaf_factor_error values xv Hv).
  cbn [mbind result_bind f as_FactorType factor_keys keys_ this foldM].
  fold this. fold f.
  assert (H0 : zeroVectors values !! key = Some (zero n)).
  { unfold zeroVectors. rewrite lookup_fmap, Hv. cbn. rewrite Hxv.
    reflexivity. }
  unfold harness_key at 1, VectorValues_dim. rewrite H0.
  cbn [mbind result_bind]. rewrite length_zero.
  destruct (harness_columns_loop f values fd_step key
              (length (vsub xv z)) n (zeroVectors values) Hfd Heval
              (dom_zeroVectors values) Hkey)
    as (J & dX' & -> & Hrows & Hcols & Hcol & _).
  cbn [mbind result_bind map_assign]. rewrite vneg_vsub.
  do 4 f_equal. apply matrix_eq.
  - rewrite Hrows, length_vsub by congruence. exact Hxv.
  - unfold cols. rewrite Hcols, length_identity_columns. reflexivity.
  - unfold cols. rewrite Hcols. intros j Hj.
    destruct (Hcol j Hj) as (c & Hc & HJ).
    replace n with (dim xv) in Hc at 1 by exact Hxv.
    rewrite (central_difference_around_zero f values fd_step key xv j Hv) in Hc.
    rewrite (Leaf_factor_central_difference values xv fd_step j Hfd Hz Hxv Hj
               Hv) in Hc.
    injection Hc as <-. unfold col. rewrite HJ.
    cbn [identity columns]. rewrite list_lookup_fmap, lookup_seq_lt by exact Hj.
    reflexivity.
Qed.
End leaf_cross_check.

Lemma vectors_agree_refl (tol : double) (v : Vector) :
  (0 ≤ tol)%Qc → vectors_agree tol v v.
Proof.
  intros Htol. split; [reflexivity|]. intros i a b Ha Hb.
  rewrite Ha in Hb. injection Hb as <-.
  replace (a - a)%Qc with 0%Qc by ring. exact Htol.
Qed.

Lemma matrices_agree_refl (tol : double) (A : Matrix) :
  (0 ≤ tol)%Qc → matrices_agree tol A A.
Proof.
  intros Htol. split; [reflexivity|]. split; [reflexivity|].
  intros j ca cb Ha Hb. rewrite Ha in Hb. injection Hb as <-.
  apply vectors_agree_refl. exact Htol.
Qed.

Lemma numerically_zero_swap (tol : double) (a b : Vector) :
  numerically_zero tol (vsub a b) ↔ numerically_zero tol (vsub b a).
Proof.
  split; intros Hz; apply numerically_zero_vneg; rewrite vneg_vsub; exact Hz.
Qed.

(** X24. The factor that measures [h(x) = x] on an [n]-dimensional
    variable with a unit noise model, cross-checked at [x] with a non-zero
    step and a tolerance that is not negative.  In exact arithmetic the
    numerical Jacobian is the identity, as the analytic one is, so that
    the driver records no failure exactly when [x - z] is zero within the
    tolerance.  (In the code's doubles the numerical Jacobian is the
    identity up to rounding error, which a tolerance of zero does not
    absorb.) *)
Theorem testFactorJacobians_Leaf (n : nat) (key : Key) (z xv : Vector)
    (values : gmap Key Vector) (fd_step tolerance : double)
    (result_ : list Failure) (name_ : string) :
  fd_step ≠ 0%Qc → (0 ≤ tolerance)%Qc →
  length z = n → length xv = n →
  values !! key = Some xv →
  ∃ r, testFactorJacobians result_ name_
         (as_FactorType (ChartT := EuclideanChart n)
            {| keys_ := [key]; noiseModel_ := Some (Unit n);
               active := λ _, true; measured_ := z;
               expression_ := Some (Leaf n key); dims_ := [n] |})
         values fd_step tolerance = Return r ∧
    (r = result_ ↔ numerically_zero tolerance (vsub xv z)).
Proof.
  intros Hfd Htol Hz Hxv Hv. unfold testFactorJacobians.
  rewrite (Leaf_factor_harness n key z values xv fd_step Hfd Hz Hxv Hv).
  cbn [mbind result_bind as_FactorType factor_linearize].
  rewrite (Leaf_linearize n key z xv values Hv).
  cbn [fmap result_fmap option_fmap option_map mbind result_bind
       dynamic_pointer_cast deref].
  eexists. split; [reflexivity|].
  rewrite EXPECT_three, assert_equal_Matrix_spec, !assert_equal_Vector_zero.
  unfold jacobianUnweighted. cbn [fst snd].
  rewrite getb_of_terms.
  assert (Hb : getb (mkJacobianFactor (NM := DiagonalModel) [key]
                 (mkVBM [n; 1%nat]
                    (mkMatrix n (columns (identity n) ++ [vsub z xv]))) None)
               = vsub z xv).
  { unfold getb, jf_size, offset, col.
    cbn [jf_keys jf_Ab blockDims matrix columns length take sum_list
         sum_list_with].
    rewrite Nat.add_0_r. rewrite <- (length_identity_columns n) at 1.
    rewrite list_lookup_middle by reflexivity. reflexivity. }
  rewrite Hb. rewrite (numerically_zero_swap tolerance xv z).
  split; [intros (_ & [_ H2] & _); exact H2|].
  intros Hzero. split; [|split; [split|split]]; try reflexivity;
    try exact Hzero.
  unfold JacobianFactor_of_terms, jf_size, offset, hcat.
  cbn [jf_keys jf_Ab blockDims matrix rows columns fmap list_fmap fst snd
       compose app length take sum_list sum_list_with concat].
  unfold cols, id. rewrite ?app_nil_r, ?Nat.add_0_r.
  rewrite ?length_identity_columns, ?length_vsub by congruence.
  rewrite ?Hz.
  replace (take n (columns (identity n) ++ [vsub z xv]))
    with (columns (identity n))
    by (symmetry; apply take_app_length'; symmetry; apply length_identity_columns).
  apply matrices_agree_refl. exact Htol.
Qed.

(** A two-dimensional variable measured as [(1, 2)] and cross-checked at
    [(2, 2)], with tolerance one. *)
Lemma testFactorJacobians_Leaf_witness :
  ∃ r, testFactorJacobians [] "Leaf"
         (as_FactorType (ChartT := EuclideanChart 2)
            {| keys_ := [7%N]; noiseModel_ := Some (Unit 2);
               active := λ _, true; measured_ := [1; 2]%Qc;
               expression_ := Some (Leaf 2 7%N); dims_ := [2%nat] |})
         ({[ 7%N := [2; 2]%Qc ]} : gmap Key Vector) 2%Qc 1%Qc = Return r ∧
    (r = [] ↔ numerically_zero 1%Qc (vsub [2; 2]%Qc [1; 2]%Qc)).
Proof.
  refine (testFactorJacobians_Leaf 2 7%N [1; 2]%Qc [2; 2]%Qc
            ({[ 7%N := [2; 2]%Qc ]} : gmap Key Vector) 2%Qc 1%Qc [] "Leaf"
            _ _ _ _ _).
  - discriminate.
  - discriminate.
  - reflexivity.
  - reflexivity.
  - reflexivity.
Defined.

(** ** The two-variable specialization and serialization *)

(** X25. [evaluateError] on a factor whose two keys are the same variable
    throws: the second [insert] into the fresh assignment finds the key
    taken. *)
Theorem evaluateError_repeated_key {Value NM T A1 A2 : Type}
    `{NoiseModel NM} `{Chart T} (wrap1 : A1 → Value) (wrap2 : A2 → Value)
    (this : ExpressionFactor (Value := Value) (NM := NM) (T := T))
    (key : Key) (a1 : A1) (a2 : A2) (H1 H2 : option Matrix) :
  keys_ this !! 0%nat = Some key →
  keys_ this !! 1%nat = Some key →
  evaluateError wrap1 wrap2 this a1 a2 H1 H2
  = Throw (ValuesKeyAlreadyExists key).
Proof.
  intros Hk0 Hk1. unfold evaluateError, at_index. rewrite Hk0, Hk1.
  cbn [deref mbind result_bind]. unfold Values_insert.
  rewrite lookup_empty. cbn [mbind result_bind].
  rewrite lookup_insert_eq. reflexivity.
Qed.

Lemma evaluateError_repeated_key_witness :
  evaluateError (ChartT := EuclideanChart 1) (NM := DiagonalModel) id id
    {| keys_ := [1%N; 1%N]; noiseModel_ := Some (Unit 1);
       active := λ _ : gmap Key Vector, true; measured_ := [1%Qc];
       expression_ := Some (Between 1 1 1); dims_ := [1%nat; 1%nat] |}
    [2%Qc] [1%Qc] None None
  = Throw (ValuesKeyAlreadyExists 1).
Proof.
  apply (evaluateError_repeated_key (H0 := EuclideanChart 1)); reflexivity.
Defined.

(** X26. The two steps a class derived from [ExpressionFactor2] takes, the
    protected constructor with two keys and then [initialize], build the
    factor the public constructor of [ExpressionFactor] builds from the
    same noise model, measurement and expression, or throw as it does:
    the keys handed to the constructor are replaced by the keys of the
    expression. *)
Theorem ExpressionFactor2_then_initialize {Value NM T : Type}
    `{NoiseModel NM} `{Chart T} (key1 key2 : Key) (noiseModel : option NM)
    (measurement : T) (e : Expression Value T) :
  (this ← ExpressionFactor2_new key1 key2 noiseModel measurement;
   initialize this e)
  = ExpressionFactor_new noiseModel measurement e.
Proof.
  unfold ExpressionFactor2_new, ExpressionFactor_new.
  cbn [mbind result_bind]. rewrite !initialize_result. reflexivity.
Qed.

Section serialization_facts.
Context {Value : Type} `{GV : GenericValue Value}.
Context {NM : Type} `{NMI : NoiseModel NM}.
Context {T : Type} `{ChartT : Chart T}.

Implicit Types this f : ExpressionFactor (Value := Value) (NM := NM) (T := T).

Lemma load_result (expression : ExpressionFactor (Value := Value) (NM := NM)
                                  (T := T) → result (Expression Value T))
    this (keys : list Key) (nm : NM) (z : T) (e : Expression Value T) :
  (∀ this', keys_ this' = keys → expression this' = Return e) →
  nm_dim nm = Dim →
  load expression this (mkArchive keys (Some nm) z)
  = Return {| keys_ := (keysAndDims e).1;
              noiseModel_ := Some nm;
              active := active this;
              measured_ := z;
              expression_ := Some e;
              dims_ := (keysAndDims e).2 |}.
Proof.
  intros He Hdim. unfold load. cbn [ar_keys ar_noiseModel ar_measured].
  rewrite He by reflexivity. cbn [mbind result_bind].
  rewrite initialize_result. cbn [noiseModel_ active measured_].
  rewrite decide_True by exact Hdim. reflexivity.
Qed.
End serialization_facts.

(** X27. A factor type that overrides neither [expression()] nor
    [expression(key1, key2)] cannot be read back: whatever the archive
    holds, [load] throws [std::runtime_error], before the noise model is
    looked at; for the two-variable specialization this holds on an
    archive with at least two keys. *)
Theorem load_without_override {Value NM T : Type} `{NoiseModel NM} `{Chart T}
    (this : ExpressionFactor (Value := Value) (NM := NM) (T := T))
    (ar : Archive) (key1 key2 : Key) :
  load ExpressionFactor_expression this ar
  = Throw (runtime_error
      "ExpressionFactor::expression not provided: cannot deserialize.") ∧
  (ar_keys ar !! 0%nat = Some key1 →
   ar_keys ar !! 1%nat = Some key2 →
   load (ExpressionFactor2_expression ExpressionFactor2_expression_keys)
     this ar
   = Throw (runtime_error
       "ExpressionFactor2::expression not provided: cannot deserialize.")).
Proof.
  split; [reflexivity|]. intros Hk1 Hk2.
  unfold load, ExpressionFactor2_expression, at_index. cbn [keys_].
  rewrite Hk1, Hk2. reflexivity.
Qed.

Lemma load_without_override_witness :
  let this : ExpressionFactor (Value := Vector) (NM := DiagonalModel)
      (T := Vector) :=
    ExpressionFactor_uninitialized None [] in
  let ar := mkArchive (NM := DiagonalModel) [1%N; 2%N] None [1%Qc] in
  load (ChartT := EuclideanChart 1) ExpressionFactor_expression this ar
  = Throw (runtime_error
      "ExpressionFactor::expression not provided: cannot deserialize.") ∧
  load (ChartT := EuclideanChart 1)
    (ExpressionFactor2_expression ExpressionFactor2_expression_keys) this ar
  = Throw (runtime_error
      "ExpressionFactor2::expression not provided: cannot deserialize.").
Proof.
  intros this ar.
  destruct (load_without_override (H0 := EuclideanChart 1) this ar 1%N 2%N)
    as [Hbase Htwo].
  split; [exact Hbase|]. apply Htwo; reflexivity.
Defined.

(** X28. Round trip through the archive for a factor of the two-variable
    specialization that has gone through [initialize]: when the derived
    class rebuilds the factor's expression from its first two keys,
    [load] of what [save] wrote restores the factor, keys, noise model,
    measurement, expression and Jacobian widths, although the archive
    holds neither the expression nor the widths. *)
Theorem load_save_round_trip {Value NM T : Type} `{NoiseModel NM} `{Chart T}
    (expression2 : Key → Key → result (Expression Value T))
    (this0 f0 f : ExpressionFactor (Value := Value) (NM := NM) (T := T))
    (e : Expression Value T) (key1 key2 : Key) :
  initialize f0 e = Return f →
  keys_ f !! 0%nat = Some key1 →
  keys_ f !! 1%nat = Some key2 →
  expression2 key1 key2 = Return e →
  active this0 = active f →
  load (ExpressionFactor2_expression expression2) this0 (save f) = Return f.
Proof.
  intros Hinit Hk1 Hk2 He Hact. rewrite initialize_result in Hinit.
  destruct (noiseModel_ f0) as [nm|]; [|discriminate].
  destruct (decide (nm_dim nm = Dim)) as [Hdim|]; [|discriminate].
  injection Hinit as <-. cbn [keys_ active] in Hk1, Hk2, Hact.
  unfold save. cbn [keys_ noiseModel_ measured_].
  rewrite (load_result _ this0 _ nm _ e).
  - rewrite Hact. reflexivity.
  - intros this' Hkeys. unfold ExpressionFactor2_expression, at_index.
    rewrite Hkeys, Hk1, Hk2. exact He.
  - exact Hdim.
Qed.

Lemma load_save_round_trip_witness :
  let f : ExpressionFactor (Value := Vector) (NM := DiagonalModel)
      (T := Vector) :=
    {| keys_ := [1%N; 2%N]; noiseModel_ := Some (Unit 1);
       active := λ _, true; measured_ := [1%Qc];
       expression_ := Some (Between 1 1 2); dims_ := [1%nat; 1%nat] |} in
  load (ChartT := EuclideanChart 1)
    (ExpressionFactor2_expression (λ key1 key2, Return (Between 1 key1 key2)))
    (ExpressionFactor_uninitialized None []) (save f)
  = Return f.
Proof.
  intros f.
  refine (load_save_round_trip (H0 := EuclideanChart 1)
            (λ key1 key2, Return (Between 1 key1 key2))
            (ExpressionFactor_uninitialized None [])
            (ExpressionFactor_uninitialized (Some (Unit 1)) [1%Qc])
            f (Between 1 1 2) 1%N 2%N _ _ _ _ _); reflexivity.
Defined.
